(** * ElectroMart customer console: message correlation and pending-message lifecycle

    A shallow embedding of the two hooks that carry the console's logic:

    - [useMessageCorrelation] (hooks/useMessageCorrelation.ts, both versions
      present in the source), a pure function of the message log and of the
      pending map;
    - [useSocket], the hook that owns the log, the pending map, the offline
      queue and the throttle guard, modelled as a state record and one
      state transformer per handler;

    and of what is wired to them: the two helpers of the message list that
    read the correlation map (components/MessageList.tsx), the module-level
    socket and session id (lib/socket.ts) and the send handler of the input
    box.

    JavaScript values are modelled as follows.  A [Map] keyed by
    [string | number] whose iteration order is never observed is a [gmap];
    the pending map, which [forEach] walks in insertion order, is an
    insertion-ordered association list ([JsMap]).  Numbers that count things
    are [nat], clock readings and server-supplied numbers are [Z].  A Rocq
    string holds the UTF-8 encoding of the text.  [trim] strips the white
    space and the line terminators of ECMAScript; [toLowerCase], which
    follows the case tables of Unicode, is taken as the engine gives it (the
    class [Engine]). *)

From Stdlib Require Import Ascii String.
From stdpp Require Import gmap strings list pretty.

#[local] Set Warnings "-clear-no-such-hyp".

Local Open Scope string_scope.
Local Open Scope Z_scope.
Local Open Scope nat_scope.
Local Open Scope list_scope.

(** ** types/index.ts *)

Inductive MessageRole := user | assistant.

Inductive AgentType :=
  orchestrator | sales | marketing | support | logistics | human | system.

Module MessageType.
Inductive t := text | voice | system | error.
End MessageType.

Inductive MetadataType :=
  | agent_switch | disconnection | reconnection | reconnection_failed
  | offline_queued | duplicate | cancellation.

#[global] Instance MessageRole_eq_dec : EqDecision MessageRole.
Proof. solve_decision. Defined.
#[global] Instance AgentType_eq_dec : EqDecision AgentType.
Proof. solve_decision. Defined.
#[global] Instance MessageType_eq_dec : EqDecision MessageType.t.
Proof. solve_decision. Defined.
#[global] Instance MetadataType_eq_dec : EqDecision MetadataType.
Proof. solve_decision. Defined.

(** [MessageMetadata] is an open record in the source ([[key: string]: any]);
    the fields below are the ones the handlers of [useSocket] write, either
    directly or by spreading the event payload into the metadata. *)
Module MessageMetadata.
Record t := mk {
  type : option MetadataType;
  from_agent : option AgentType;
  to_agent : option AgentType;
  reason : option string;
  attempts : option Z;
  message_id : option string;
  cancelled_count : option Z;
  message : option string;
  original_message : option string;
}.
Definition only (ty : MetadataType) : t :=
  mk (Some ty) None None None None None None None None.
End MessageMetadata.

Record Message := mkMessage {
  role : MessageRole;
  content : string;
  timestamp : string;
  agent : option AgentType;
  metadata : option MessageMetadata.t;
  message_id : option string;
}.

Inductive PendingStatus := sending | queued.

Module PendingMessage.
Record t := mk {
  message : string;
  status : PendingStatus;
  sent_at : Z;
  is_typing : bool;
  queue_position : option Z;
}.
End PendingMessage.

Module OfflineQueuedMessage.
Record t := mk {
  message : string;
  type : MessageType.t;
  queued_at : Z;
  message_id : string;
}.
End OfflineQueuedMessage.

(** Keys of the correlation map: [message.message_id || index].  A JavaScript
    [Map] keeps the string ["1"] and the number [1] apart. *)
Inductive MessageKey :=
  | KeyId (id : string)
  | KeyIndex (index : nat).

#[global] Instance MessageKey_eq_dec : EqDecision MessageKey.
Proof. solve_decision. Defined.

Definition MessageKey_to_sum (k : MessageKey) : string + nat :=
  match k with KeyId s => inl s | KeyIndex n => inr n end.
Definition MessageKey_of_sum (x : string + nat) : MessageKey :=
  match x with inl s => KeyId s | inr n => KeyIndex n end.

#[global] Instance MessageKey_countable : Countable MessageKey.
Proof.
  apply (inj_countable' MessageKey_to_sum MessageKey_of_sum).
  by intros [].
Defined.

Module CorrelationData.
Record t := mk {
  correlationNumber : nat;
  color : option string;
  isPending : bool;
  isUserMessage : bool;
  replyToMessageId : option MessageKey;
  pendingData : option PendingMessage.t;
}.
End CorrelationData.

(** ** JavaScript [Map] with observable insertion order *)

Module JsMap.
Section ops.
Context {V : Type}.
Definition t := list (string * V).

Definition empty : t := [].

Fixpoint get (k : string) (m : t) : option V :=
  match m with
  | [] => None
  | (k', v) :: m' => if decide (k' = k) then Some v else get k m'
  end.

Definition has (k : string) (m : t) : bool :=
  match get k m with Some _ => true | None => false end.

(** [set] on a present key replaces the value and keeps the position. *)
Fixpoint set (k : string) (v : V) (m : t) : t :=
  match m with
  | [] => [(k, v)]
  | (k', v') :: m' =>
      if decide (k' = k) then (k', v) :: m' else (k', v') :: set k v m'
  end.

Fixpoint delete (k : string) (m : t) : t :=
  match m with
  | [] => []
  | (k', v') :: m' =>
      if decide (k' = k) then m' else (k', v') :: delete k m'
  end.

(** [const e = m.get(k); if (e) { mutate e }]: the entry object is shared,
    so the mutation shows in the map. *)
Fixpoint update (k : string) (f : V → V) (m : t) : t :=
  match m with
  | [] => []
  | (k', v') :: m' =>
      if decide (k' = k) then (k', f v') :: m' else (k', v') :: update k f m'
  end.

Definition size (m : t) : nat := length m.

Definition keys (m : t) : list string := m.*1.

(** A [Map] holds each key once. *)
Definition wf (m : t) : Prop := NoDup (keys m).
End ops.
Arguments t : clear implicits.
End JsMap.

(** ** config/constants.ts *)

Module TIMING.
Definition DUPLICATE_SEND_THROTTLE_MS : Z := 2000.
Definition SENDING_STATE_DURATION_MS : Z := 1000.
Definition ERROR_AUTO_CLEAR_MS : Z := 2000.
End TIMING.

Module MESSAGE_CORRELATION.
Definition COLORS : list string :=
  ["#1976d2"; "#9c27b0"; "#2e7d32"; "#ed6c02"; "#d32f2f"; "#00796b"].
End MESSAGE_CORRELATION.

Module ERROR_MESSAGES.
Definition CONNECTION_LOST := "Connection lost. Attempting to reconnect...".
Definition RECONNECTING := "Reconnecting...".
Definition CANNOT_RECONNECT :=
  "Cannot reconnect to server. Please refresh the page.".
Definition SEND_TOO_FAST :=
  "Please wait before sending the same message again".
Definition OFFLINE :=
  "You are offline. Messages will be sent when connection is restored.".
Definition ALREADY_PROCESSING := "This message is already being processed.".
End ERROR_MESSAGES.

Module SUCCESS_MESSAGES.
Definition RECONNECTED := "Reconnected successfully!".
End SUCCESS_MESSAGES.

(** ** Array.prototype.forEach with its index argument *)

Fixpoint forEach_from {A S : Type} (f : S → A → nat → S)
    (index : nat) (l : list A) (s : S) : S :=
  match l with
  | [] => s
  | x :: l' => forEach_from f (index + 1) l' (f s x index)
  end.

Definition forEach {A S : Type} (f : S → A → nat → S) (l : list A) (s : S) : S :=
  forEach_from f 0 l s.

(** ** hooks/useMessageCorrelation.ts *)

(** [message.message_id || index]: an absent or empty id is falsy. *)
Definition messageKey (message : Message) (index : nat) : MessageKey :=
  match message_id message with
  | Some id => if decide (id = "") then KeyIndex index else KeyId id
  | None => KeyIndex index
  end.

(** [colors[(number - 1) % colors.length]]; [%] truncates towards zero, and an
    index outside the array reads [undefined] ([None]). *)
Definition getCorrelationColor (number : nat) : option string :=
  let colors := MESSAGE_CORRELATION.COLORS in
  let i := Z.rem (Z.of_nat number - 1) (Z.of_nat (length colors)) in
  if (i <? 0)%Z then None else colors !! Z.to_nat i.

Definition userData (number : nat) : CorrelationData.t :=
  CorrelationData.mk number (getCorrelationColor number) false true None None.

Definition replyData (number : nat) (replyTo : MessageKey) : CorrelationData.t :=
  CorrelationData.mk number (getCorrelationColor number) false false
    (Some replyTo) None.

Definition pendingEntryData (number : nat) (p : PendingMessage.t) :
    CorrelationData.t :=
  CorrelationData.mk number (getCorrelationColor number) true true None (Some p).

Abbreviation CorrelationMap := (gmap MessageKey CorrelationData.t).

(** First pass, shared by both versions: number the user messages. *)
Definition numberUser (st : CorrelationMap * nat) (message : Message)
    (index : nat) : CorrelationMap * nat :=
  let '(correlationMap, userMessageCounter) := st in
  match role message with
  | user =>
      let userMessageCounter := userMessageCounter + 1 in
      (<[messageKey message index := userData userMessageCounter]> correlationMap,
       userMessageCounter)
  | assistant => st
  end.

(** Third pass, shared by both versions: pending ids not yet in the map. *)
Definition addPending (st : CorrelationMap * nat)
    (entry : string * PendingMessage.t) : CorrelationMap * nat :=
  let '(correlationMap, pendingCounter) := st in
  let '(messageId, pendingData) := entry in
  match correlationMap !! KeyId messageId with
  | Some _ => st
  | None =>
      let pendingCounter := pendingCounter + 1 in
      (<[KeyId messageId := pendingEntryData pendingCounter pendingData]>
         correlationMap, pendingCounter)
  end.

Definition pendingPass (pendingMessages : JsMap.t PendingMessage.t)
    (st : CorrelationMap * nat) : CorrelationMap * nat :=
  foldl addPending st pendingMessages.

(** The later version of the hook: FIFO matching. *)
Module Variant2.
Record Question := mkQuestion { id : MessageKey; correlationNumber : nat }.

Definition matchReply (st : CorrelationMap * list Question)
    (message : Message) (index : nat) : CorrelationMap * list Question :=
  let '(correlationMap, unansweredQuestions) := st in
  match role message with
  | user =>
      let messageId := messageKey message index in
      match correlationMap !! messageId with
      | Some correlationData =>
          (correlationMap,
           unansweredQuestions ++
             [mkQuestion messageId
                (CorrelationData.correlationNumber correlationData)])
      | None => st
      end
  | assistant =>
      if decide (agent message = Some system) then st
      else
        match unansweredQuestions with
        | matchedQuestion :: rest =>
            let messageKey := messageKey message index in
            (<[messageKey := replyData (correlationNumber matchedQuestion)
                               (id matchedQuestion)]> correlationMap,
             rest)
        | [] => st
        end
  end.

Definition useMessageCorrelation (messages : list Message)
    (pendingMessages : JsMap.t PendingMessage.t) : CorrelationMap :=
  let '(correlationMap, userMessageCounter) :=
    forEach numberUser messages (∅, 0) in
  let '(correlationMap, _) :=
    forEach matchReply messages (correlationMap, []) in
  (pendingPass pendingMessages (correlationMap, userMessageCounter)).1.
End Variant2.

(** The earlier version of the hook: every assistant message is linked to the
    last user message seen so far. *)
Module Variant1.
Record Last := mkLast {
  lastUserMessageId : option MessageKey;
  lastUserCorrelationNumber : nat;
}.

(** Truthiness of a [string | number | null]: [null], [0] and [""] are falsy. *)
Definition truthy (k : option MessageKey) : bool :=
  match k with
  | None => false
  | Some (KeyIndex 0) => false
  | Some (KeyIndex _) => true
  | Some (KeyId s) => bool_decide (s ≠ "")
  end.

Definition linkReply (st : CorrelationMap * Last)
    (message : Message) (index : nat) : CorrelationMap * Last :=
  let '(correlationMap, last) := st in
  match role message with
  | user =>
      let messageId := messageKey message index in
      match correlationMap !! messageId with
      | Some correlationData =>
          (correlationMap,
           mkLast (Some messageId)
             (CorrelationData.correlationNumber correlationData))
      | None =>
          (correlationMap,
           mkLast (Some messageId) (lastUserCorrelationNumber last))
      end
  | assistant =>
      match lastUserMessageId last with
      | Some lastId =>
          if truthy (Some lastId) then
            (<[messageKey message index :=
                 replyData (lastUserCorrelationNumber last) lastId]>
               correlationMap, last)
          else st
      | None => st
      end
  end.

Definition useMessageCorrelation (messages : list Message)
    (pendingMessages : JsMap.t PendingMessage.t) : CorrelationMap :=
  let '(correlationMap, userMessageCounter) :=
    forEach numberUser messages (∅, 0) in
  let '(correlationMap, _) :=
    forEach linkReply messages (correlationMap, mkLast None 0) in
  (pendingPass pendingMessages (correlationMap, userMessageCounter)).1.
End Variant1.

(** ** Strings

    A Rocq string holds the UTF-8 encoding of the text.  The white space
    that [String.prototype.trim] strips is the WhiteSpace and LineTerminator
    of ECMAScript: U+0009..U+000D, U+0020, U+00A0, U+1680, U+2000..U+200A,
    U+2028, U+2029, U+202F, U+205F, U+3000 and U+FEFF, which are one, two or
    three bytes long. *)

(** U+0009..U+000D and U+0020. *)
Definition isWhiteSpace1 (c1 : ascii) : bool :=
  let n := nat_of_ascii c1 in
  (n =? 32) || ((9 <=? n) && (n <=? 13)).

(** U+00A0. *)
Definition isWhiteSpace2 (c1 c2 : ascii) : bool :=
  (nat_of_ascii c1 =? 194) && (nat_of_ascii c2 =? 160).

(** U+1680; U+2000..U+200A, U+2028, U+2029 and U+202F; U+205F; U+3000;
    U+FEFF. *)
Definition isWhiteSpace3 (c1 c2 c3 : ascii) : bool :=
  let n1 := nat_of_ascii c1 in
  let n2 := nat_of_ascii c2 in
  let n3 := nat_of_ascii c3 in
  ((n1 =? 225) && (n2 =? 154) && (n3 =? 128))
  || ((n1 =? 226) && (n2 =? 128)
      && (((128 <=? n3) && (n3 <=? 138))
          || (n3 =? 168) || (n3 =? 169) || (n3 =? 175)))
  || ((n1 =? 226) && (n2 =? 129) && (n3 =? 159))
  || ((n1 =? 227) && (n2 =? 128) && (n3 =? 128))
  || ((n1 =? 239) && (n2 =? 187) && (n3 =? 191)).

(** What follows the first character, when that character is white space. *)
Definition dropWhiteSpace (s : string) : option string :=
  match s with
  | String c1 s1 =>
      if isWhiteSpace1 c1 then Some s1
      else
        match s1 with
        | String c2 s2 =>
            if isWhiteSpace2 c1 c2 then Some s2
            else
              match s2 with
              | String c3 s3 => if isWhiteSpace3 c1 c2 c3 then Some s3 else None
              | EmptyString => None
              end
        | EmptyString => None
        end
  | EmptyString => None
  end.

Fixpoint trimStart (s : string) : string :=
  match s with
  | String c1 s1 =>
      if isWhiteSpace1 c1 then trimStart s1
      else
        match s1 with
        | String c2 s2 =>
            if isWhiteSpace2 c1 c2 then trimStart s2
            else
              match s2 with
              | String c3 s3 =>
                  if isWhiteSpace3 c1 c2 c3 then trimStart s3 else s
              | EmptyString => s
              end
        | EmptyString => s
        end
  | EmptyString => EmptyString
  end.

(** The string is cut where what is left of it is white space only. *)
Fixpoint trimEnd (s : string) : string :=
  match s with
  | String c s' =>
      match trimStart s with
      | EmptyString => EmptyString
      | String _ _ => String c (trimEnd s')
      end
  | EmptyString => EmptyString
  end.

Definition trim (s : string) : string := trimEnd (trimStart s).

(** [String.prototype.toLowerCase] follows the case tables of Unicode, which
    are the engine's and not the program's.  The hook only compares
    lower-cased texts with each other, so the function is taken as the engine
    gives it, together with two facts about it: the empty string is
    lower-cased to itself, and nothing else is lower-cased to it. *)
Class Engine := {
  toLowerCase : string → string;
  toLowerCase_nil : toLowerCase "" = "";
  toLowerCase_nonempty s : toLowerCase s = "" → s = "";
}.

(** The engine of the examples lower-cases the letters of Basic Latin (A..Z)
    and of Latin-1 (U+00C0..U+00DE without U+00D7, the bytes 195 128..158
    without 195 151), as [toLowerCase] does, and leaves every other character
    as it is; the texts of the examples are written in these letters. *)
Definition lowerChar (c : ascii) : ascii :=
  let n := nat_of_ascii c in
  if (65 <=? n) && (n <=? 90) then ascii_of_nat (n + 32) else c.

Definition isLatin1Upper (c2 : ascii) : bool :=
  let n := nat_of_ascii c2 in
  (128 <=? n) && (n <=? 158) && negb (n =? 151).

Fixpoint lowerLatin1 (s : string) : string :=
  match s with
  | String c1 s1 =>
      match s1 with
      | String c2 s2 =>
          if (nat_of_ascii c1 =? 195) && isLatin1Upper c2 then
            String c1
              (String (ascii_of_nat (nat_of_ascii c2 + 32)) (lowerLatin1 s2))
          else String (lowerChar c1) (lowerLatin1 s1)
      | EmptyString => String (lowerChar c1) EmptyString
      end
  | EmptyString => EmptyString
  end.

#[global] Instance latin1 : Engine.
Proof.
  refine {| toLowerCase := lowerLatin1 |}.
  - reflexivity.
  - intros s. destruct s as [|c1 [|c2 s2]]; [done | done |].
    cbn [lowerLatin1]. by case_match.
Defined.

(** The no-break space U+00A0. *)
Definition nbsp : string := String (ascii_of_nat 194) (String (ascii_of_nat 160) "").

(** An optional string used as a condition or on the left of [||]. *)
Definition truthyString (o : option string) : option string :=
  match o with
  | Some s => if decide (s = "") then None else Some s
  | None => None
  end.

(** ** Event payloads (types/index.ts) *)

Module SocketResponse.
Record t := mk {
  message : string;
  agent : AgentType;
  timestamp : option string;
  metadata : option MessageMetadata.t;
  message_id : option string;
}.
End SocketResponse.

Module SocketError.
Record t := mk {
  message : string;
  message_id : option string;
  code : option string;
}.
End SocketError.

Module AgentSwitchData.
Record t := mk {
  from_agent : AgentType;
  to_agent : AgentType;
  reason : string;
  message_id : option string;
}.
End AgentSwitchData.

Module MessageQueuedData.
Record t := mk { message_id : string; queue_position : Z }.
End MessageQueuedData.

Module MessageCancelledData.
Record t := mk { message_id : string; success : bool }.
End MessageCancelledData.

Module AllMessagesCancelledData.
Record t := mk { cancelled_count : Z; message : option string }.
End AllMessagesCancelledData.

Module TypingData.
Record t := mk { is_typing : bool; message_id : option string }.
End TypingData.

(** What one call of [sendMessage] reads from the browser: the clock (three
    [Date.now()] calls and two [new Date().toISOString()]) and the random
    suffix of the temporary id. *)
Module SendEnv.
Record t := mk {
  now : Z;
  id_now : Z;
  random36 : string;
  user_iso : string;
  stamp_now : Z;
  offline_iso : string;
}.
End SendEnv.

(** ** unnamed/part_002: the [useSocket] hook *)

Inductive Socket := socketInstance.

(** Calls of [socket.emit], in the order they are made. *)
Inductive Emit :=
  | emit_message (message : string) (type : MessageType.t)
  | emit_cancel_message (message_id : string)
  | emit_cancel_all_messages.

(** Callbacks handed to [setTimeout]. *)
Inductive Timeout := clearError | clearSending.

#[global] Instance Timeout_eq_dec : EqDecision Timeout.
Proof. solve_decision. Defined.

(** The hook's [useState] cells and [useRef] cells, the emissions handed to the
    transport so far, and the timeouts scheduled and not yet run (callback and
    the time at which it falls due). *)
Record State := mkState {
  socket : option Socket;
  isConnected : bool;
  isReconnecting : bool;
  reconnectAttempt : Z;
  sessionId : option string;
  messages : list Message;
  isTyping : bool;
  currentAgent : option AgentType;
  error : option string;
  pendingMessages : JsMap.t PendingMessage.t;
  offlineQueue : list OfflineQueuedMessage.t;
  isSending : bool;
  lastSentMessage : option string;
  lastSentTime : Z;
  messagesRef : list Message;
  pendingMessagesRef : JsMap.t PendingMessage.t;
  offlineQueueRef : list OfflineQueuedMessage.t;
  emitted : list Emit;
  timers : list (Timeout * Z);
}.

Definition setSocket (f : option Socket → option Socket)
    (s : State) : State :=
  mkState (f (socket s)) (isConnected s) (isReconnecting s)
    (reconnectAttempt s) (sessionId s) (messages s) (isTyping s) (currentAgent
    s) (error s) (pendingMessages s) (offlineQueue s) (isSending s)
    (lastSentMessage s) (lastSentTime s) (messagesRef s) (pendingMessagesRef
    s) (offlineQueueRef s) (emitted s) (timers s).
Definition setIsConnected (f : bool → bool) (s : State) : State :=
  mkState (socket s) (f (isConnected s)) (isReconnecting s)
    (reconnectAttempt s) (sessionId s) (messages s) (isTyping s) (currentAgent
    s) (error s) (pendingMessages s) (offlineQueue s) (isSending s)
    (lastSentMessage s) (lastSentTime s) (messagesRef s) (pendingMessagesRef
    s) (offlineQueueRef s) (emitted s) (timers s).
Definition setIsReconnecting (f : bool → bool) (s : State) : State :=
  mkState (socket s) (isConnected s) (f (isReconnecting s))
    (reconnectAttempt s) (sessionId s) (messages s) (isTyping s) (currentAgent
    s) (error s) (pendingMessages s) (offlineQueue s) (isSending s)
    (lastSentMessage s) (lastSentTime s) (messagesRef s) (pendingMessagesRef
    s) (offlineQueueRef s) (emitted s) (timers s).
Definition setReconnectAttempt (f : Z → Z) (s : State) : State :=
  mkState (socket s) (isConnected s) (isReconnecting s) (f (reconnectAttempt
    s)) (sessionId s) (messages s) (isTyping s) (currentAgent s) (error s)
    (pendingMessages s) (offlineQueue s) (isSending s) (lastSentMessage s)
    (lastSentTime s) (messagesRef s) (pendingMessagesRef s) (offlineQueueRef
    s) (emitted s) (timers s).
Definition setSessionId (f : option string → option string)
    (s : State) : State :=
  mkState (socket s) (isConnected s) (isReconnecting s) (reconnectAttempt s)
    (f (sessionId s)) (messages s) (isTyping s) (currentAgent s) (error s)
    (pendingMessages s) (offlineQueue s) (isSending s) (lastSentMessage s)
    (lastSentTime s) (messagesRef s) (pendingMessagesRef s) (offlineQueueRef
    s) (emitted s) (timers s).
Definition setMessages (f : list Message → list Message)
    (s : State) : State :=
  mkState (socket s) (isConnected s) (isReconnecting s) (reconnectAttempt s)
    (sessionId s) (f (messages s)) (isTyping s) (currentAgent s) (error s)
    (pendingMessages s) (offlineQueue s) (isSending s) (lastSentMessage s)
    (lastSentTime s) (messagesRef s) (pendingMessagesRef s) (offlineQueueRef
    s) (emitted s) (timers s).
Definition setIsTyping (f : bool → bool) (s : State) : State :=
  mkState (socket s) (isConnected s) (isReconnecting s) (reconnectAttempt s)
    (sessionId s) (messages s) (f (isTyping s)) (currentAgent s) (error s)
    (pendingMessages s) (offlineQueue s) (isSending s) (lastSentMessage s)
    (lastSentTime s) (messagesRef s) (pendingMessagesRef s) (offlineQueueRef
    s) (emitted s) (timers s).
Definition setCurrentAgent (f : option AgentType → option AgentType)
    (s : State) : State :=
  mkState (socket s) (isConnected s) (isReconnecting s) (reconnectAttempt s)
    (sessionId s) (messages s) (isTyping s) (f (currentAgent s)) (error s)
    (pendingMessages s) (offlineQueue s) (isSending s) (lastSentMessage s)
    (lastSentTime s) (messagesRef s) (pendingMessagesRef s) (offlineQueueRef
    s) (emitted s) (timers s).
Definition setError (f : option string → option string) (s : State) : State :=
  mkState (socket s) (isConnected s) (isReconnecting s) (reconnectAttempt s)
    (sessionId s) (messages s) (isTyping s) (currentAgent s) (f (error s))
    (pendingMessages s) (offlineQueue s) (isSending s) (lastSentMessage s)
    (lastSentTime s) (messagesRef s) (pendingMessagesRef s) (offlineQueueRef
    s) (emitted s) (timers s).
Definition setPendingMessages (f : JsMap.t PendingMessage.t → JsMap.t PendingMessage.t)
    (s : State) : State :=
  mkState (socket s) (isConnected s) (isReconnecting s) (reconnectAttempt s)
    (sessionId s) (messages s) (isTyping s) (currentAgent s) (error s) (f
    (pendingMessages s)) (offlineQueue s) (isSending s) (lastSentMessage s)
    (lastSentTime s) (messagesRef s) (pendingMessagesRef s) (offlineQueueRef
    s) (emitted s) (timers s).
Definition setOfflineQueue (f : list OfflineQueuedMessage.t → list OfflineQueuedMessage.t)
    (s : State) : State :=
  mkState (socket s) (isConnected s) (isReconnecting s) (reconnectAttempt s)
    (sessionId s) (messages s) (isTyping s) (currentAgent s) (error s)
    (pendingMessages s) (f (offlineQueue s)) (isSending s) (lastSentMessage s)
    (lastSentTime s) (messagesRef s) (pendingMessagesRef s) (offlineQueueRef
    s) (emitted s) (timers s).
Definition setIsSending (f : bool → bool) (s : State) : State :=
  mkState (socket s) (isConnected s) (isReconnecting s) (reconnectAttempt s)
    (sessionId s) (messages s) (isTyping s) (currentAgent s) (error s)
    (pendingMessages s) (offlineQueue s) (f (isSending s)) (lastSentMessage s)
    (lastSentTime s) (messagesRef s) (pendingMessagesRef s) (offlineQueueRef
    s) (emitted s) (timers s).
Definition setLastSentMessage (f : option string → option string)
    (s : State) : State :=
  mkState (socket s) (isConnected s) (isReconnecting s) (reconnectAttempt s)
    (sessionId s) (messages s) (isTyping s) (currentAgent s) (error s)
    (pendingMessages s) (offlineQueue s) (isSending s) (f (lastSentMessage s))
    (lastSentTime s) (messagesRef s) (pendingMessagesRef s) (offlineQueueRef
    s) (emitted s) (timers s).
Definition setLastSentTime (f : Z → Z) (s : State) : State :=
  mkState (socket s) (isConnected s) (isReconnecting s) (reconnectAttempt s)
    (sessionId s) (messages s) (isTyping s) (currentAgent s) (error s)
    (pendingMessages s) (offlineQueue s) (isSending s) (lastSentMessage s) (f
    (lastSentTime s)) (messagesRef s) (pendingMessagesRef s) (offlineQueueRef
    s) (emitted s) (timers s).
Definition setEmitted (f : list Emit → list Emit) (s : State) : State :=
  mkState (socket s) (isConnected s) (isReconnecting s) (reconnectAttempt s)
    (sessionId s) (messages s) (isTyping s) (currentAgent s) (error s)
    (pendingMessages s) (offlineQueue s) (isSending s) (lastSentMessage s)
    (lastSentTime s) (messagesRef s) (pendingMessagesRef s) (offlineQueueRef
    s) (f (emitted s)) (timers s).
Definition setTimers (f : list (Timeout * Z) → list (Timeout * Z))
    (s : State) : State :=
  mkState (socket s) (isConnected s) (isReconnecting s) (reconnectAttempt s)
    (sessionId s) (messages s) (isTyping s) (currentAgent s) (error s)
    (pendingMessages s) (offlineQueue s) (isSending s) (lastSentMessage s)
    (lastSentTime s) (messagesRef s) (pendingMessagesRef s) (offlineQueueRef
    s) (emitted s) (f (timers s)).

(** The agent tag as it prints inside a template string. *)
Definition pretty_agent (a : AgentType) : string :=
  match a with
  | orchestrator => "orchestrator" | sales => "sales"
  | marketing => "marketing" | support => "support"
  | logistics => "logistics" | human => "human" | system => "system"
  end.

Definition initialState : State :=
  mkState None false false 0%Z None [] false None None [] [] false None 0%Z
    [] [] [] [] [].

(** The three [useEffect]s that copy state into the refs after a render. *)
Definition commit (s : State) : State :=
  mkState (socket s) (isConnected s) (isReconnecting s) (reconnectAttempt s)
    (sessionId s) (messages s) (isTyping s) (currentAgent s) (error s)
    (pendingMessages s) (offlineQueue s) (isSending s) (lastSentMessage s)
    (lastSentTime s) (messages s) (pendingMessages s) (offlineQueue s)
    (emitted s) (timers s).

Definition to (A : Type) (x : A) : A → A := λ _, x.
Arguments to {A} x _ /.

Definition append {A : Type} (x : A) : list A → list A := λ prev, prev ++ [x].
Arguments append {A} x _ /.

Definition systemMessage (text iso : string) (md : MessageMetadata.t)
    (id : option string) : Message :=
  mkMessage assistant text iso (Some system) (Some md) id.

Definition on_mount (s : State) : State :=
  setSocket (to (Some socketInstance)) s.

Definition emitQueued (q : OfflineQueuedMessage.t) : Emit :=
  emit_message (OfflineQueuedMessage.message q) (OfflineQueuedMessage.type q).

Definition on_connect (iso : string) (s : State) : State :=
  let s := setIsConnected (to true) s in
  let s := setIsReconnecting (to false) s in
  let s := setReconnectAttempt (to 0%Z) s in
  let s := setError (to None) s in
  if decide (0 < length (offlineQueueRef s)) then
    let systemMessage :=
      systemMessage
        ("Reconnected! Sending " +:+ pretty (length (offlineQueueRef s)) +:+
         " message(s) from offline queue...")
        iso (MessageMetadata.only reconnection) None in
    let s := setMessages (append systemMessage) s in
    let s := setEmitted (λ out, out ++ (emitQueued <$> offlineQueueRef s)) s in
    setOfflineQueue (to []) s
  else s.

Definition on_disconnect (reason iso : string) (s : State) : State :=
  let s := setIsConnected (to false) s in
  let s := setError (to (Some ERROR_MESSAGES.CONNECTION_LOST)) s in
  let md :=
    MessageMetadata.mk (Some disconnection) None None (Some reason) None None
      None None None in
  setMessages (append (systemMessage ERROR_MESSAGES.CONNECTION_LOST iso md None)) s.

Definition on_reconnect (attempt : Z) (iso : string) (s : State) : State :=
  let s := setIsReconnecting (to false) s in
  let s := setReconnectAttempt (to 0%Z) s in
  let text :=
    SUCCESS_MESSAGES.RECONNECTED +:+ " " +:+
    (if (1 <? attempt)%Z then "(after " +:+ pretty attempt +:+ " attempts)"
     else "") in
  let md :=
    MessageMetadata.mk (Some reconnection) None None None (Some attempt) None
      None None None in
  setMessages (append (systemMessage text iso md None)) s.

Definition on_reconnect_attempt (attempt : Z) (s : State) : State :=
  let s := setIsReconnecting (to true) s in
  let s := setReconnectAttempt (to attempt) s in
  setError
    (to (Some (ERROR_MESSAGES.RECONNECTING +:+ " (attempt " +:+
               pretty attempt +:+ ")"))) s.

Definition on_reconnect_error (message : string) (s : State) : State :=
  setError (to (Some ("Reconnection failed: " +:+ message))) s.

Definition on_reconnect_failed (iso : string) (s : State) : State :=
  let s := setIsReconnecting (to false) s in
  let s := setError (to (Some ERROR_MESSAGES.CANNOT_RECONNECT)) s in
  setMessages
    (append (systemMessage ERROR_MESSAGES.CANNOT_RECONNECT iso
               (MessageMetadata.only reconnection_failed) None)) s.

Definition on_connected (session_id : string) (s : State) : State :=
  setSessionId (to (Some session_id)) s.

Definition markQueued (position : Z) (p : PendingMessage.t) : PendingMessage.t :=
  PendingMessage.mk (PendingMessage.message p) queued (PendingMessage.sent_at p)
    (PendingMessage.is_typing p) (Some position).

Definition on_message_queued (data : MessageQueuedData.t) (s : State) : State :=
  setPendingMessages
    (JsMap.update (MessageQueuedData.message_id data)
       (markQueued (MessageQueuedData.queue_position data))) s.

(** [setPendingMessages(prev => { if (prev.size === 0) setIsTyping(false);
    return prev; })]: the updater sees the map left by the updaters queued
    before it. *)
Definition stopTypingIfIdle (s : State) : State :=
  if decide (JsMap.size (pendingMessages s) = 0) then setIsTyping (to false) s
  else s.

Definition resolvePending (id : option string) (s : State) : State :=
  match truthyString id with
  | Some id => setPendingMessages (JsMap.delete id) s
  | None => s
  end.

Definition on_response (data : SocketResponse.t) (iso : string) (s : State) :
    State :=
  let newMessage :=
    mkMessage assistant (SocketResponse.message data)
      (default iso (truthyString (SocketResponse.timestamp data)))
      (Some (SocketResponse.agent data)) (SocketResponse.metadata data)
      (SocketResponse.message_id data) in
  let s := setMessages (append newMessage) s in
  let s := setCurrentAgent (to (Some (SocketResponse.agent data))) s in
  let s := resolvePending (SocketResponse.message_id data) s in
  stopTypingIfIdle s.

Definition markTyping (flag : bool) (p : PendingMessage.t) : PendingMessage.t :=
  PendingMessage.mk (PendingMessage.message p) (PendingMessage.status p)
    (PendingMessage.sent_at p) flag (PendingMessage.queue_position p).

Definition on_typing (data : TypingData.t) (s : State) : State :=
  let s :=
    match truthyString (TypingData.message_id data) with
    | Some id =>
        setPendingMessages
          (JsMap.update id (markTyping (TypingData.is_typing data))) s
    | None => s
    end in
  setIsTyping
    (to (TypingData.is_typing data
         || bool_decide (0 < JsMap.size (pendingMessagesRef s)))) s.

Definition on_agent_switch (data : AgentSwitchData.t) (iso : string)
    (s : State) : State :=
  let s := setCurrentAgent (to (Some (AgentSwitchData.to_agent data))) s in
  let md :=
    MessageMetadata.mk (Some agent_switch)
      (Some (AgentSwitchData.from_agent data))
      (Some (AgentSwitchData.to_agent data))
      (Some (AgentSwitchData.reason data)) None
      (AgentSwitchData.message_id data) None None None in
  setMessages
    (append (systemMessage
               ("Transferring you to our " +:+
                pretty_agent (AgentSwitchData.to_agent data) +:+ " specialist...")
               iso md (AgentSwitchData.message_id data))) s.

Definition on_error (data : SocketError.t) (s : State) : State :=
  let s := setError (to (Some (SocketError.message data))) s in
  let s := resolvePending (SocketError.message_id data) s in
  stopTypingIfIdle s.

Definition on_message_cancelled (data : MessageCancelledData.t) (s : State) :
    State :=
  let id := MessageCancelledData.message_id data in
  let s := setPendingMessages (JsMap.delete id) s in
  let s :=
    setMessages
      (filter (λ msg, message_id msg ≠ Some id)) s in
  if decide (JsMap.size (pendingMessagesRef s) ≤ 1) then setIsTyping (to false) s
  else s.

Definition cancellationNotice (data : AllMessagesCancelledData.t) (iso : string) :
    Message :=
  let count := AllMessagesCancelledData.cancelled_count data in
  let md :=
    MessageMetadata.mk (Some cancellation) None None None None None
      (Some count) (AllMessagesCancelledData.message data) None in
  systemMessage
    (default ("Cancelled " +:+ pretty count +:+ " pending message(s)")
       (truthyString (AllMessagesCancelledData.message data)))
    iso md None.

Definition on_all_messages_cancelled (data : AllMessagesCancelledData.t)
    (iso : string) (s : State) : State :=
  let s := setPendingMessages (to JsMap.empty) s in
  let s := setIsTyping (to false) s in
  setMessages (append (cancellationNotice data iso)) s.

Definition on_message_duplicate (original_message iso : string) (s : State) :
    State :=
  let md :=
    MessageMetadata.mk (Some duplicate) None None None None None None None
      (Some original_message) in
  let s :=
    setMessages
      (append (systemMessage ERROR_MESSAGES.ALREADY_PROCESSING iso md None)) s in
  setIsSending (to false) s.

(** [setTimeout(callback, delay)] called at time [now]. *)
Definition schedule (t : Timeout) (now delay : Z) (s : State) : State :=
  setTimers (append (t, (now + delay)%Z)) s.

Definition tempMessageId (env : SendEnv.t) : string :=
  "temp_" +:+ pretty (SendEnv.id_now env) +:+ "_" +:+ SendEnv.random36 env.

Section with_engine.
Context `{!Engine}.

Definition normalize (message : string) : string := toLowerCase (trim message).

Definition sendMessage (env : SendEnv.t) (message : string) (s : State) : State :=
  if decide (trim message = "") then s
  else
    let now := SendEnv.now env in
    let timeSinceLastSend := (now - lastSentTime s)%Z in
    let normalizedMessage := normalize message in
    if decide (lastSentMessage s = Some normalizedMessage
               ∧ (timeSinceLastSend < TIMING.DUPLICATE_SEND_THROTTLE_MS)%Z)
    then
      let s := setError (to (Some ERROR_MESSAGES.SEND_TOO_FAST)) s in
      schedule clearError now TIMING.ERROR_AUTO_CLEAR_MS s
    else if isSending s then s
    else
      let socket_ := socket s in
      let isConnected_ := isConnected s in
      let s := setLastSentMessage (to (Some normalizedMessage)) s in
      let s := setLastSentTime (to now) s in
      let s := setIsSending (to true) s in
      let tempMessageId := tempMessageId env in
      let userMessage :=
        mkMessage user message (SendEnv.user_iso env) None None
          (Some tempMessageId) in
      let s := setMessages (append userMessage) s in
      let s := setError (to None) s in
      if decide (socket_ = None ∨ isConnected_ = false) then
        let s :=
          setOfflineQueue
            (append (OfflineQueuedMessage.mk message MessageType.text
                       (SendEnv.stamp_now env) tempMessageId)) s in
        let offlineMessage :=
          systemMessage ERROR_MESSAGES.OFFLINE (SendEnv.offline_iso env)
            (MessageMetadata.only offline_queued) None in
        let s := setMessages (append offlineMessage) s in
        setIsSending (to false) s
      else
        let s :=
          setPendingMessages
            (JsMap.set tempMessageId
               (PendingMessage.mk message sending (SendEnv.stamp_now env) false
                  None)) s in
        let s := setEmitted (append (emit_message message MessageType.text)) s in
        let s := setIsTyping (to true) s in
        schedule clearSending now TIMING.SENDING_STATE_DURATION_MS s.

Definition clearMessages (s : State) : State :=
  let s := setMessages (to []) s in
  let s := setCurrentAgent (to None) s in
  let s := setError (to None) s in
  setPendingMessages (to JsMap.empty) s.

Definition cancelMessage (messageId : string) (s : State) : State :=
  if decide (socket s = None ∨ isConnected s = false) then s
  else setEmitted (append (emit_cancel_message messageId)) s.

Definition cancelAllMessages (s : State) : State :=
  if decide (socket s = None ∨ isConnected s = false) then s
  else setEmitted (append emit_cancel_all_messages) s.

(** A scheduled timeout runs its callback and leaves the list. *)
Fixpoint unschedule (t : Timeout) (l : list (Timeout * Z)) : list (Timeout * Z) :=
  match l with
  | [] => []
  | (t', d) :: l' => if decide (t' = t) then l' else (t', d) :: unschedule t l'
  end.

Definition on_timeout (t : Timeout) (s : State) : State :=
  if decide (t ∈ (timers s).*1) then
    let s := setTimers (unschedule t) s in
    match t with
    | clearError => setError (to None) s
    | clearSending => setIsSending (to false) s
    end
  else s.

(** Everything that can happen to the hook after its first render. *)
Inductive Event :=
  | Mount
  | Connect (iso : string)
  | Disconnect (reason iso : string)
  | Reconnect (attempt : Z) (iso : string)
  | ReconnectAttempt (attempt : Z)
  | ReconnectError (message : string)
  | ReconnectFailed (iso : string)
  | Connected (session_id : string)
  | MessageQueued (data : MessageQueuedData.t)
  | Response (data : SocketResponse.t) (iso : string)
  | Typing (data : TypingData.t)
  | AgentSwitch (data : AgentSwitchData.t) (iso : string)
  | Error (data : SocketError.t)
  | MessageCancelled (data : MessageCancelledData.t)
  | AllMessagesCancelled (data : AllMessagesCancelledData.t) (iso : string)
  | MessageDuplicate (original_message iso : string)
  | SendMessage (env : SendEnv.t) (message : string)
  | ClearMessages
  | CancelMessage (messageId : string)
  | CancelAllMessages
  | TimeoutFires (t : Timeout).

Definition handle (ev : Event) (s : State) : State :=
  match ev with
  | Mount => on_mount s
  | Connect iso => on_connect iso s
  | Disconnect reason iso => on_disconnect reason iso s
  | Reconnect attempt iso => on_reconnect attempt iso s
  | ReconnectAttempt attempt => on_reconnect_attempt attempt s
  | ReconnectError message => on_reconnect_error message s
  | ReconnectFailed iso => on_reconnect_failed iso s
  | Connected session_id => on_connected session_id s
  | MessageQueued data => on_message_queued data s
  | Response data iso => on_response data iso s
  | Typing data => on_typing data s
  | AgentSwitch data iso => on_agent_switch data iso s
  | Error data => on_error data s
  | MessageCancelled data => on_message_cancelled data s
  | AllMessagesCancelled data iso => on_all_messages_cancelled data iso s
  | MessageDuplicate original_message iso =>
      on_message_duplicate original_message iso s
  | SendMessage env message => sendMessage env message s
  | ClearMessages => clearMessages s
  | CancelMessage messageId => cancelMessage messageId s
  | CancelAllMessages => cancelAllMessages s
  | TimeoutFires t => on_timeout t s
  end.

(** One event followed by a render: the handler runs to completion, React
    renders, and the effects bring the refs up to date.  [reachable] is the
    schedule in which React renders between any two events.  Events that are
    handled one after the other before React renders are [handle] applied
    twice, with the refs as the last render left them ([live_by] below). *)
Definition step (ev : Event) (s : State) : State := commit (handle ev s).

Inductive reachable : State → Prop :=
  | reachable_initial : reachable initialState
  | reachable_step ev s : reachable s → reachable (step ev s).
End with_engine.

(** ** hooks/useMessageCorrelation.ts: the lookup exported beside the hook *)

(** [correlationMap.get(messageId) || null]: a record is an object, hence
    truthy. *)
Definition getMessageCorrelationInfo (messageId : MessageKey)
    (correlationMap : CorrelationMap) : option CorrelationData.t :=
  correlationMap !! messageId.

(** ** components/MessageList.tsx: what a message bubble shows, once the
    component is mounted *)

Module MessageList.
(** [correlationData?.correlationNumber || null]: the number 0 is falsy. *)
Definition getCorrelationNumber (correlationMap : CorrelationMap)
    (message : Message) (index : nat) : option nat :=
  match getMessageCorrelationInfo (messageKey message index) correlationMap with
  | Some correlationData =>
      let number := CorrelationData.correlationNumber correlationData in
      if decide (number = 0) then None else Some number
  | None => None
  end.

(** [pendingMessages.has(message.message_id || '') ||
    getMessageCorrelationInfo(messageId, correlationMap)?.isPending || false]
    for a user message, [false] for any other. *)
Definition isMessagePending (correlationMap : CorrelationMap)
    (pendingMessages : JsMap.t PendingMessage.t)
    (message : Message) (index : nat) : bool :=
  match role message with
  | user =>
      JsMap.has (default "" (message_id message)) pendingMessages
      || from_option CorrelationData.isPending false
           (getMessageCorrelationInfo (messageKey message index) correlationMap)
  | assistant => false
  end.
End MessageList.

(** ** lib/socket.ts: the module-level socket and session id *)

Module SocketModule.
(** The two module variables; a socket made by [io(...)] is told from the
    others by the number of [io] calls made before it.  [created] counts
    these calls. *)
Record t := mk {
  socket : option nat;
  sessionId : option string;
  created : nat;
}.

Definition initial : t := mk None None 0.

Definition getSocket (st : t) : nat * t :=
  match socket st with
  | Some sock => (sock, st)
  | None => (created st, mk (Some (created st)) (sessionId st) (created st + 1))
  end.

(** The ['connected'] handler registered on the socket when it is made. *)
Definition on_connected (session_id : string) (st : t) : t :=
  match socket st with
  | Some _ => mk (socket st) (Some session_id) (created st)
  | None => st
  end.

(** The [auth] callback, called at every connection attempt: what it hands
    to [cb] ([None] for the empty object). *)
Definition auth (st : t) : option string := truthyString (sessionId st).

Definition disconnectSocket (st : t) : t :=
  match socket st with
  | Some _ => mk None None (created st)
  | None => st
  end.

Definition getStoredSessionId (st : t) : option string := sessionId st.

Inductive Call :=
  | GetSocket
  | ConnectedEvent (session_id : string)
  | DisconnectSocket.

Definition call (c : Call) (st : t) : t :=
  match c with
  | GetSocket => (getSocket st).2
  | ConnectedEvent session_id => on_connected session_id st
  | DisconnectSocket => disconnectSocket st
  end.

Definition calls (cs : list Call) (st : t) : t := foldl (λ st c, call c st) st cs.
End SocketModule.

(** ** unnamed/part_000: the input box *)

Module InputBox.
(** The text of the input field, and the cells of the voice hook that
    [resetTranscript] writes: the transcript, the voice error and the
    finalized text. *)
Record t := mk {
  message : string;
  transcript : string;
  voiceError : option string;
  finalTranscript : string;
}.

Definition setMessage (text : string) (box : t) : t :=
  mk text (transcript box) (voiceError box) (finalTranscript box).

Definition resetTranscript (box : t) : t := mk (message box) "" None "".

(** [onSend] is the [sendMessage] of the hook; [St] is the state it works
    on. *)
Definition handleSend {St : Type} (onSend : string → St → St) (disabled : bool)
    (box : t) (s : St) : t * St :=
  if bool_decide (trim (message box) ≠ "") && negb disabled then
    let s := onSend (trim (message box)) s in
    (resetTranscript (setMessage "" box), s)
  else (box, s).
End InputBox.

(** * Vocabulary of the statements *)

(** ** States of [useSocket] *)

Definition notConnected (s : State) : Prop :=
  socket s = None ∨ isConnected s = false.

#[global] Instance notConnected_dec s : Decision (notConnected s).
Proof. unfold notConnected. apply _. Defined.

Section states.
Context `{!Engine}.

(** The refs hold what the state cells hold. *)
Definition synced (s : State) : Prop :=
  messagesRef s = messages s
  ∧ pendingMessagesRef s = pendingMessages s
  ∧ offlineQueueRef s = offlineQueue s.

Definition throttled (env : SendEnv.t) (message : string) (s : State) : Prop :=
  lastSentMessage s = Some (normalize message)
  ∧ (SendEnv.now env - lastSentTime s < TIMING.DUPLICATE_SEND_THROTTLE_MS)%Z.

(** A send that gets past the three guards (blank input, throttle, in flight). *)
Definition accepted (env : SendEnv.t) (message : string) (s : State) : Prop :=
  trim message ≠ "" ∧ ¬ throttled env message s ∧ isSending s = false.

Definition userMessage (env : SendEnv.t) (message : string) : Message :=
  mkMessage user message (SendEnv.user_iso env) None None
    (Some (tempMessageId env)).

Definition offlineNotice (env : SendEnv.t) : Message :=
  mkMessage assistant ERROR_MESSAGES.OFFLINE (SendEnv.offline_iso env)
    (Some system)
    (Some (MessageMetadata.mk (Some offline_queued) None None None None None
             None None None))
    None.

Definition queuedEntry (env : SendEnv.t) (message : string) :
    OfflineQueuedMessage.t :=
  OfflineQueuedMessage.mk message MessageType.text (SendEnv.stamp_now env)
    (tempMessageId env).

Definition pendingEntry (env : SendEnv.t) (message : string) : PendingMessage.t :=
  PendingMessage.mk message sending (SendEnv.stamp_now env) false None.

(** The notice of the connect handler: an assistant message tagged [system]
    whose text states the number of queued messages. *)
Definition replayNotice (count : nat) (iso : string) : Message :=
  mkMessage assistant
    ("Reconnected! Sending " +:+ pretty count +:+
     " message(s) from offline queue...")
    iso (Some system)
    (Some (MessageMetadata.mk (Some reconnection) None None None None None
             None None None))
    None.

Definition demoEnv (t : Z) (suffix : string) : SendEnv.t :=
  SendEnv.mk t t suffix "2024-05-01T10:00:00.000Z" t "2024-05-01T10:00:00.000Z".

(** A send made before the transport has connected. *)
Definition demoOffline : State :=
  step (SendMessage (demoEnv 5000 "k3x9q2m1a") "Where is my order?")
    (step Mount initialState).

(** The timeouts that are due at time [now] have run: every timeout still
    scheduled falls due later. *)
Definition punctual (now : Z) (s : State) : Prop :=
  ∀ t due, (t, due) ∈ timers s → (now < due)%Z.

(** While a send is in flight, the timeout that ends the in-flight window is
    scheduled, one window after the send. *)
Definition inFlightTimer (s : State) : Prop :=
  isSending s = true →
  (clearSending, (lastSentTime s + TIMING.SENDING_STATE_DURATION_MS)%Z)
    ∈ timers s.

(** A send accepted while connected. *)
Definition demoOnline : State :=
  step (SendMessage (demoEnv 5000 "k3x9q2m1a") "Where is my order?")
    (step (Connect "2024-05-01T10:00:00.000Z") (step Mount initialState)).

(** The same, one second later, when the in-flight timeout has run. *)
Definition demoOnlineIdle : State := step (TimeoutFires clearSending) demoOnline.


(** States reached through events of a given kind only. *)
Inductive reachable_by (allowed : Event → Prop) : State → Prop :=
  | reachable_by_initial : reachable_by allowed initialState
  | reachable_by_step ev s :
      allowed ev → reachable_by allowed s → reachable_by allowed (step ev s).







(** Two sends in flight, rendered. *)
Definition demoTwoPending : State :=
  step (SendMessage (demoEnv 9000 "q1w2e3r4t") "And my refund?")
    (step (TimeoutFires clearSending) demoOnline).

Definition demoReply : SocketResponse.t :=
  SocketResponse.mk "Your order ships tomorrow." logistics None None
    (Some "temp_5000_k3x9q2m1a").

End states.

(** ** Messages and logs *)

Definition isUser (m : Message) : bool := bool_decide (role m = user).

(** An assistant message that takes part in the matching: its agent tag is
    not the system-notice tag. *)
Definition isReply (m : Message) : bool :=
  bool_decide (role m = assistant) && bool_decide (agent m ≠ Some system).

(** A message for which one of the first two passes may call
    [correlationMap.set]. *)
Definition writes (m : Message) : bool := isUser m || isReply m.

(** The number the numbering pass gives to the user message at position [i]:
    the count of user messages up to and including it. *)
Definition userNumber (log : list Message) (i : nat) : nat :=
  length (filter (λ m, isUser m = true) (take (S i) log)).

Definition keyAt (log : list Message) (i : nat) : MessageKey :=
  match log !! i with
  | Some m => messageKey m i
  | None => KeyIndex i
  end.

(** The key of the message at position [i] is the key of no other message
    that the passes may write. *)
Definition keyUnshared (log : list Message) (i : nat) : Prop :=
  ∀ j m, log !! j = Some m → j ≠ i → writes m = true →
    messageKey m j ≠ keyAt log i.

(** The two passes over the log, as [useMessageCorrelation] chains them. *)
Definition firstPass (messages : list Message) : CorrelationMap * nat :=
  forEach numberUser messages (∅, 0).

Definition secondPass (messages : list Message) (correlationMap : CorrelationMap) :
    CorrelationMap * list Variant2.Question :=
  forEach Variant2.matchReply messages (correlationMap, []).

Definition demoLog : list Message :=
  [mkMessage user "Where is my order?" "t1" None None (Some "m1");
   mkMessage user "And my refund?" "t2" None None (Some "m2")].

Definition demoExtension : list Message :=
  [mkMessage assistant "It ships tomorrow." "t3" (Some logistics) None
     (Some "r1")].

(** Removing the message at position [n] moves every later message one
    position down, and with it the positional keys of the later messages
    that carry no id.  [shiftKey n] is that renumbering, read from the log
    without the message to the log with it. *)
Definition bump (n i : nat) : nat := if decide (n ≤ i) then S i else i.

Definition shiftKey (n : nat) (k : MessageKey) : MessageKey :=
  match k with
  | KeyIndex i => KeyIndex (bump n i)
  | KeyId id => KeyId id
  end.

Definition shiftData (n : nat) (d : CorrelationData.t) : CorrelationData.t :=
  CorrelationData.mk (CorrelationData.correlationNumber d)
    (CorrelationData.color d) (CorrelationData.isPending d)
    (CorrelationData.isUserMessage d)
    (shiftKey n <$> CorrelationData.replyToMessageId d)
    (CorrelationData.pendingData d).

Definition shiftQuestion (n : nat) (q : Variant2.Question) : Variant2.Question :=
  Variant2.mkQuestion (shiftKey n (Variant2.id q)) (Variant2.correlationNumber q).

#[global] Instance shiftKey_inj n : Inj (=) (=) (shiftKey n).
Proof.
  intros [a|i] [b|j]; unfold shiftKey, bump; try done.
  repeat case_decide; intros [= ?]; f_equal; lia.
Qed.

Definition shiftMap (n : nat) (m : CorrelationMap) : CorrelationMap :=
  kmap (shiftKey n) (shiftData n <$> m).

Definition shiftNumbered (n : nat) (st : CorrelationMap * nat) :
    CorrelationMap * nat :=
  (shiftMap n st.1, st.2).

Definition shiftMatched (n : nat) (st : CorrelationMap * list Variant2.Question) :
    CorrelationMap * list Variant2.Question :=
  (shiftMap n st.1, shiftQuestion n <$> st.2).

(** A reconnection banner between two questions; the second question and
    both replies carry no id, so their keys are their positions. *)
Definition demoBanner : Message :=
  systemMessage "Reconnected successfully! " "t2"
    (MessageMetadata.only reconnection) None.

(** A question, the notice of an agent switch, a second question and the
    reply to the first: the server puts the id it gave to the first question
    on the [agent_switch] event and on the reply, and the handler of
    [agent_switch] copies it to the notice. *)
Definition demoSwitchLog : list Message :=
  [mkMessage user "Where is my order?" "t1" None None (Some "temp_1");
   mkMessage assistant "Transferring you to our logistics specialist..." "t2"
     (Some system)
     (Some (MessageMetadata.mk (Some agent_switch) (Some orchestrator)
              (Some logistics) (Some "order status") None (Some "srv_1") None
              None None))
     (Some "srv_1");
   mkMessage user "And my refund?" "t3" None None (Some "temp_2");
   mkMessage assistant "It ships tomorrow." "t4" (Some logistics) None
     (Some "srv_1")].

Definition demoAfterBanner : list Message :=
  [mkMessage user "And my refund?" "t3" None None None;
   mkMessage assistant "It ships tomorrow." "t4" (Some logistics) None None;
   mkMessage assistant "Refund issued." "t5" (Some support) None None].

(** ** FIFO matching in the words of the specification *)

Definition isUserAt (log : list Message) (j : nat) : bool :=
  from_option isUser false (log !! j).

Definition isReplyAt (log : list Message) (i : nat) : bool :=
  from_option isReply false (log !! i).

(** The positions, oldest first, of the user messages before position [n]
    that are not among the positions [bound]. *)
Definition unansweredBefore (log : list Message) (n : nat) (bound : list nat) :
    list nat :=
  filter (λ j, isUserAt log j = true ∧ j ∉ bound) (seq 0 n).

(** The pairs (assistant position, user position) bound before position [n]:
    each non-system assistant message is bound to the oldest user message
    that precedes it and is not yet bound to an earlier assistant message,
    and stays unbound when there is none. *)
Fixpoint bindingsBefore (log : list Message) (n : nat) : list (nat * nat) :=
  match n with
  | 0 => []
  | S n' =>
      let earlier := bindingsBefore log n' in
      if isReplyAt log n' then
        match head (unansweredBefore log n' earlier.*2) with
        | Some j => earlier ++ [(n', j)]
        | None => earlier
        end
      else earlier
  end.

Definition oldestUnanswered (log : list Message) (i : nat) : option nat :=
  head (unansweredBefore log i (bindingsBefore log i).*2).

(** Two messages that the passes write under one key are a user message
    and, later in the log, a non-system assistant message (a reply that
    carries the id of the message it answers, for instance). *)
Definition keysFresh (log : list Message) : Prop :=
  ∀ i j a b, log !! i = Some a → log !! j = Some b →
    writes a = true → writes b = true →
    messageKey a i = messageKey b j → i < j →
    isUser a = true ∧ isReply b = true.

(** The key of the user message at position [i] is used by no other user
    message, and a non-system assistant message uses it only if it is the
    reply bound to that user message (the server puts the id of the question
    on its reply, say). *)
Definition keyOwnOrEchoed (log : list Message) (i : nat) : Prop :=
  ∀ j m, log !! j = Some m → j ≠ i → writes m = true →
    messageKey m j = keyAt log i →
    isReply m = true ∧ oldestUnanswered log j = Some i.

(** The number found under a key. *)
Definition numberUnder (m : CorrelationMap) (k : MessageKey) : option nat :=
  CorrelationData.correlationNumber <$> m !! k.

(** A question, and the reply that carries the question's id. *)
Definition demoQuestion : list Message :=
  [mkMessage user "Where is my order?" "t1" None None (Some "m1")].

Definition demoEcho : list Message :=
  [mkMessage assistant "It ships tomorrow." "t2" (Some logistics) None
     (Some "m1")].

(** At every point of the log, no more non-system assistant messages than
    user messages have been seen. *)
Definition balanced (log : list Message) : Prop :=
  ∀ n, n ≤ length log →
    length (filter (λ m, isReply m = true) (take n log))
    ≤ length (filter (λ m, isUser m = true) (take n log)).

Definition questionAt (log : list Message) (j : nat) : Variant2.Question :=
  Variant2.mkQuestion (keyAt log j) (userNumber log j).

(** The [replyToMessageId] found under a key, if any. *)
Definition replyLink (m : CorrelationMap) (k : MessageKey) : option MessageKey :=
  m !! k ≫= CorrelationData.replyToMessageId.

(** The unanswered user messages when the loop reaches position [n]. *)
Definition queueBefore (log : list Message) (n : nat) : list nat :=
  unansweredBefore log n (bindingsBefore log n).*2.

(** What the specification expects under the key of the assistant message
    [a] at position [i]. *)
Definition bound_as_specified (log : list Message) (m : CorrelationMap)
    (i : nat) (a : Message) : Prop :=
  match oldestUnanswered log i with
  | Some j =>
      m !! messageKey a i = Some (replyData (userNumber log j) (keyAt log j))
  | None => replyLink m (messageKey a i) = None
  end.

Definition matchedUpTo (log : list Message) (n : nat) :
    CorrelationMap * list Variant2.Question :=
  forEach Variant2.matchReply (take n log) ((firstPass log).1, []).

(** Two questions in flight; each reply carries the id of the question the
    server answers, and the second question is answered first. *)
Definition demoConversation : list Message :=
  [mkMessage user "Where is my order?" "t1" None None (Some "m1");
   mkMessage user "And my refund?" "t2" None None (Some "m2");
   mkMessage assistant "Refund issued." "t3" (Some support) None (Some "m2");
   mkMessage assistant "It ships tomorrow." "t4" (Some logistics) None
     (Some "m1")].

(** A conversation of strictly alternating turns, read from position [i]:
    each user message is followed by exactly one non-system assistant
    message before the next user message; the last question may still be
    open.  The user message of an answered turn has a truthy key: an id, or a
    position other than 0. *)
Inductive alternating : nat → list Message → Prop :=
  | alternating_end i : alternating i []
  | alternating_open i u : isUser u = true → alternating i [u]
  | alternating_turn i u a l :
      isUser u = true → isReply a = true → messageKey u i ≠ KeyIndex 0 →
      alternating (i + 1 + 1) l → alternating i (u :: a :: l).

(** One answered question and one open question. *)
Definition demoTurns : list Message :=
  [mkMessage user "Where is my order?" "t1" None None (Some "m1");
   mkMessage assistant "It ships tomorrow." "t2" (Some logistics) None
     (Some "r1");
   mkMessage user "And my refund?" "t3" None None None].

(** ** Records of the correlation map *)

(** The number of user messages of a log. *)
Definition userCount (log : list Message) : nat :=
  length (filter (λ m, isUser m = true) log).

(** A record whose colour is the palette colour of its number, and whose
    number lies between 1 and [bound]. *)
Definition soundRecord (bound : nat) (d : CorrelationData.t) : Prop :=
  CorrelationData.color d = getCorrelationColor (CorrelationData.correlationNumber d)
  ∧ 1 ≤ CorrelationData.correlationNumber d ≤ bound.

Definition soundQuestion (bound : nat) (q : Variant2.Question) : Prop :=
  1 ≤ Variant2.correlationNumber q ≤ bound.

(** The keys of the messages of a log, position by position. *)
Definition keysOf (log : list Message) : list MessageKey :=
  imap (λ i m, messageKey m i) log.

(** No two messages of the log have the same key. *)
Definition distinctKeys (log : list Message) : Prop := NoDup (keysOf log).

(** ** Events of [useSocket], by what they may do *)

(** Every event except the two that take messages out of the log. *)
Definition keepsLog (ev : Event) : Prop :=
  match ev with
  | MessageCancelled _ | ClearMessages => False
  | _ => True
  end.

(** The events whose handlers call [socket.emit]. *)
Definition mayEmit (ev : Event) : Prop :=
  match ev with
  | Connect _ | SendMessage _ _ | CancelMessage _ | CancelAllMessages => True
  | _ => False
  end.

(** The id of the pending entry that an event resolves, if it names one. *)
Definition resolved (ev : Event) : option string :=
  match ev with
  | Response data _ => truthyString (SocketResponse.message_id data)
  | Error data => truthyString (SocketError.message_id data)
  | MessageCancelled data => Some (MessageCancelledData.message_id data)
  | _ => None
  end.

(** No message of the log carries the id. *)
Definition freshId (id : string) (s : State) : Prop :=
  ∀ m, m ∈ messages s → message_id m ≠ Some id.

(** Every pending entry belongs to a user message of the log. *)
Definition pendingOwned (s : State) : Prop :=
  ∀ id, id ∈ JsMap.keys (pendingMessages s) →
    id ≠ "" ∧ ∃ m, m ∈ messages s ∧ role m = user ∧ message_id m = Some id.

(** * Properties *)

(** Projections of a state built by setters. *)
Ltac state_simpl :=
  cbn [socket isConnected isReconnecting reconnectAttempt sessionId messages
       isTyping currentAgent error pendingMessages offlineQueue isSending
       lastSentMessage lastSentTime messagesRef pendingMessagesRef
       offlineQueueRef emitted timers
       setSocket setIsConnected setIsReconnecting setReconnectAttempt
       setSessionId setMessages setIsTyping setCurrentAgent setError
       setPendingMessages setOfflineQueue setIsSending setLastSentMessage
       setLastSentTime setEmitted setTimers commit schedule to append] in *.

Ltac unfold_handlers :=
  unfold step, handle, on_mount, on_connect, on_disconnect, on_reconnect,
    on_reconnect_attempt, on_reconnect_error, on_reconnect_failed,
    on_connected, on_message_queued, on_response, on_typing, on_agent_switch,
    on_error, on_message_cancelled, on_all_messages_cancelled,
    on_message_duplicate, sendMessage, clearMessages, cancelMessage,
    cancelAllMessages, on_timeout, stopTypingIfIdle, resolvePending, schedule
    in *.

Ltac handler_cases :=
  unfold_handlers; repeat (case_decide || case_match); simpl in *.

(** Fields of the state after one event are rewritten to fields of the
    handler's result. *)
Create Rewrite HintDb step_fields.

Ltac step_fields := autorewrite with step_fields; cbn [handle].

(** ** Insertion-ordered maps *)

Section JsMap_facts.
Context {V : Type}.
Implicit Types (m : JsMap.t V) (k : string).

Lemma JsMap_get_set_eq k v m : JsMap.get k (JsMap.set k v m) = Some v.
Proof.
  induction m as [|[k' v'] m IH]; simpl.
  - by rewrite decide_True.
  - destruct (decide (k' = k)) as [->|Hne]; simpl.
    + by rewrite decide_True.
    + by rewrite decide_False.
Qed.

Lemma JsMap_keys_set k v m :
  JsMap.keys (JsMap.set k v m) =
    if decide (k ∈ JsMap.keys m) then JsMap.keys m else JsMap.keys m ++ [k].
Proof.
  unfold JsMap.keys.
  induction m as [|[k' v'] m IH].
  - case_decide as Hin; [by apply elem_of_nil in Hin | done].
  - cbn [JsMap.set]. destruct (decide (k' = k)) as [->|Hne].
    + rewrite !fmap_cons. cbn [fst].
      rewrite decide_True; [done | by left].
    + rewrite !fmap_cons, IH. cbn [fst].
      destruct (decide (k ∈ m.*1)) as [Hin|Hnin].
      * rewrite decide_True; [done | by right].
      * rewrite decide_False; [done |].
        intros [?|?]%elem_of_cons; congruence.
Qed.

Lemma JsMap_keys_update k f m : JsMap.keys (JsMap.update k f m) = JsMap.keys m.
Proof.
  unfold JsMap.keys.
  induction m as [|[k' v'] m IH]; [done |].
  cbn [JsMap.update]. destruct (decide (k' = k)); rewrite !fmap_cons; [done |].
  by rewrite IH.
Qed.

Lemma JsMap_keys_delete_sublist k m :
  sublist (JsMap.keys (JsMap.delete k m)) (JsMap.keys m).
Proof.
  unfold JsMap.keys.
  induction m as [|[k' v'] m IH]; [done |].
  cbn [JsMap.delete]. destruct (decide (k' = k)); rewrite !fmap_cons.
  - by apply sublist_cons.
  - by apply sublist_skip.
Qed.

Lemma JsMap_wf_set k v m : JsMap.wf m → JsMap.wf (JsMap.set k v m).
Proof.
  unfold JsMap.wf. rewrite JsMap_keys_set. intros Hm.
  destruct (decide (k ∈ JsMap.keys m)) as [|Hnin]; [done |].
  apply NoDup_app. split_and!; [done | | apply NoDup_singleton].
  intros x Hx ->%list_elem_of_singleton. done.
Qed.

Lemma JsMap_wf_empty : JsMap.wf (@JsMap.empty V).
Proof. apply NoDup_nil_2. Qed.

Lemma JsMap_wf_update k f m : JsMap.wf m → JsMap.wf (JsMap.update k f m).
Proof. unfold JsMap.wf. by rewrite JsMap_keys_update. Qed.

Lemma JsMap_wf_delete k m : JsMap.wf m → JsMap.wf (JsMap.delete k m).
Proof.
  unfold JsMap.wf. intros Hm.
  eapply sublist_NoDup; [done | apply JsMap_keys_delete_sublist].
Qed.

End JsMap_facts.

(** ** Strings *)

Lemma trimStart_unfold s :
  trimStart s =
    match dropWhiteSpace s with Some r => trimStart r | None => s end.
Proof.
  destruct s as [|c1 s1]; [done |].
  cbn [trimStart dropWhiteSpace]. destruct (isWhiteSpace1 c1); [done |].
  destruct s1 as [|c2 s2]; [done |].
  destruct (isWhiteSpace2 c1 c2); [done |].
  destruct s2 as [|c3 s3]; [done |].
  by destruct (isWhiteSpace3 c1 c2 c3).
Qed.

Lemma dropWhiteSpace_length s r :
  dropWhiteSpace s = Some r → String.length r < String.length s.
Proof.
  destruct s as [|c1 s1]; [done |].
  cbn [dropWhiteSpace String.length].
  destruct (isWhiteSpace1 c1); [intros [= <-]; lia |].
  destruct s1 as [|c2 s2]; [done |]. cbn [String.length].
  destruct (isWhiteSpace2 c1 c2); [intros [= <-]; lia |].
  destruct s2 as [|c3 s3]; [done |]. cbn [String.length].
  destruct (isWhiteSpace3 c1 c2 c3); [intros [= <-]; lia | done].
Qed.

Lemma append_String c s t : String c s +:+ t = String c (s +:+ t).
Proof. reflexivity. Qed.

(** Whether a string starts with white space is decided by its first
    character. *)
Lemma dropWhiteSpace_app s r t :
  dropWhiteSpace s = Some r → dropWhiteSpace (s +:+ t) = Some (r +:+ t).
Proof.
  destruct s as [|c1 s1]; [done |].
  rewrite append_String. cbn [dropWhiteSpace].
  destruct (isWhiteSpace1 c1); [by intros [= <-] |].
  destruct s1 as [|c2 s2]; [done |]. rewrite append_String.
  destruct (isWhiteSpace2 c1 c2); [by intros [= <-] |].
  destruct s2 as [|c3 s3]; [done |]. rewrite append_String.
  destruct (isWhiteSpace3 c1 c2 c3); [by intros [= <-] | done].
Qed.

Lemma trimStart_fixed s : dropWhiteSpace (trimStart s) = None.
Proof.
  remember (String.length s) as n eqn:Hn. revert s Hn.
  induction n as [n IH] using lt_wf_ind. intros s ->.
  rewrite trimStart_unfold. destruct (dropWhiteSpace s) as [r|] eqn:Hr; [|done].
  apply (IH (String.length r)); [by apply dropWhiteSpace_length | done].
Qed.

Lemma trimStart_id s : dropWhiteSpace s = None → trimStart s = s.
Proof. intros Hs. by rewrite trimStart_unfold, Hs. Qed.

Lemma trimStart_blank_app s t :
  trimStart s = "" → trimStart (s +:+ t) = trimStart t.
Proof.
  remember (String.length s) as n eqn:Hn. revert s Hn.
  induction n as [n IH] using lt_wf_ind. intros s -> Hs.
  rewrite trimStart_unfold in Hs.
  destruct (dropWhiteSpace s) as [r|] eqn:Hr.
  - rewrite (trimStart_unfold (s +:+ t)), (dropWhiteSpace_app s r t Hr).
    apply (IH (String.length r)); [by apply dropWhiteSpace_length | done..].
  - by subst s.
Qed.

Lemma trimEnd_String c s :
  trimEnd (String c s) =
    if decide (trimStart (String c s) = "") then "" else String c (trimEnd s).
Proof. cbn [trimEnd]. by destruct (trimStart (String c s)). Qed.

(** What [trimEnd] cuts off is white space. *)
Lemma trimEnd_split s : ∃ t, s = trimEnd s +:+ t ∧ trimStart t = "".
Proof.
  induction s as [|c s IH]; [by exists "" |].
  rewrite trimEnd_String. case_decide as Hblank.
  - by exists (String c s).
  - destruct IH as (t & Hs & Ht). exists t. split; [|done].
    by rewrite append_String, <- Hs.
Qed.

Lemma trimEnd_idempotent s : trimEnd (trimEnd s) = trimEnd s.
Proof.
  induction s as [|c s IH]; [done |].
  rewrite trimEnd_String. case_decide as Hblank; [done |].
  rewrite trimEnd_String, decide_False; [by rewrite IH |].
  intros Hb. apply Hblank.
  destruct (trimEnd_split s) as (t & Hs & Ht).
  rewrite Hs at 1. rewrite <- append_String.
  by rewrite trimStart_blank_app.
Qed.

Lemma trimEnd_fixed s :
  dropWhiteSpace s = None → dropWhiteSpace (trimEnd s) = None.
Proof.
  intros Hs. destruct (dropWhiteSpace (trimEnd s)) as [r|] eqn:Hr; [|done].
  destruct (trimEnd_split s) as (t & Heq & _).
  apply (dropWhiteSpace_app _ _ t) in Hr. rewrite <- Heq in Hr. congruence.
Qed.

Lemma trim_idempotent s : trim (trim s) = trim s.
Proof.
  unfold trim.
  rewrite (trimStart_id (trimEnd (trimStart s)))
    by apply trimEnd_fixed, trimStart_fixed.
  apply trimEnd_idempotent.
Qed.

(** White space beyond ASCII is stripped too, and text between is kept. *)
Example trim_strips_unicode_white_space :
  trim nbsp = ""
  ∧ trim (nbsp +:+ " Où est ma commande ?" +:+ nbsp) = "Où est ma commande ?".
Proof. split; reflexivity. Qed.

(** ** Invariants of the reachable states of [useSocket] *)

Section useSocket_facts.
Context `{!Engine}.

Lemma normalize_nonblank message : trim message ≠ "" → normalize message ≠ "".
Proof. unfold normalize. intros Hne Heq. by apply Hne, toLowerCase_nonempty. Qed.

Lemma commit_synced s : synced (commit s).
Proof. by repeat split. Qed.

Lemma reachable_synced s : reachable s → synced s.
Proof. destruct 1; [by repeat split | apply commit_synced]. Qed.

(** Only [sendMessage] writes [lastSentMessage], and only past its blank-input
    guard. *)
Lemma handle_lastSentMessage ev s :
  lastSentMessage (handle ev s) = lastSentMessage s
  ∨ ∃ message, trim message ≠ ""
      ∧ lastSentMessage (handle ev s) = Some (normalize message).
Proof. destruct ev; handler_cases; eauto. Qed.

Lemma reachable_lastSentMessage s : reachable s → lastSentMessage s ≠ Some "".
Proof.
  induction 1 as [|ev s Hs IH]; [done |].
  change (lastSentMessage (step ev s)) with (lastSentMessage (handle ev s)).
  destruct (handle_lastSentMessage ev s) as [->|(message & Hne & ->)]; [done |].
  intros [= Heq]. by apply (normalize_nonblank message).
Qed.

(** Every write to the pending map is one of the [Map] operations. *)
Lemma handle_pendingMessages_wf ev s :
  JsMap.wf (pendingMessages s) → JsMap.wf (pendingMessages (handle ev s)).
Proof.
  intros Hwf.
  destruct ev; handler_cases;
    auto using JsMap_wf_set, JsMap_wf_update, JsMap_wf_delete, JsMap_wf_empty.
Qed.

Lemma reachable_pendingMessages_wf s : reachable s → JsMap.wf (pendingMessages s).
Proof.
  induction 1 as [|ev s Hs IH]; [apply JsMap_wf_empty |].
  change (pendingMessages (step ev s)) with (pendingMessages (handle ev s)).
  by apply handle_pendingMessages_wf.
Qed.

(** ** Conditions of [sendMessage], as the source writes them *)

Lemma sendMessage_accepted_offline env message s :
  accepted env message s → notConnected s →
  sendMessage env message s =
    setIsSending (to false)
      (setMessages (append (offlineNotice env))
         (setOfflineQueue (append (queuedEntry env message))
            (setError (to None)
               (setMessages (append (userMessage env message))
                  (setIsSending (to true)
                     (setLastSentTime (to (SendEnv.now env))
                        (setLastSentMessage (to (Some (normalize message)))
                           s))))))).
Proof.
  intros (Hblank & Hthr & Hsend) Hoff. unfold sendMessage.
  rewrite decide_False by done. rewrite decide_False by done.
  rewrite Hsend. by rewrite decide_True.
Qed.

Lemma sendMessage_accepted_online env message s :
  accepted env message s → ¬ notConnected s →
  sendMessage env message s =
    schedule clearSending (SendEnv.now env) TIMING.SENDING_STATE_DURATION_MS
      (setIsTyping (to true)
         (setEmitted (append (emit_message message MessageType.text))
            (setPendingMessages
               (JsMap.set (tempMessageId env) (pendingEntry env message))
               (setError (to None)
                  (setMessages (append (userMessage env message))
                     (setIsSending (to true)
                        (setLastSentTime (to (SendEnv.now env))
                           (setLastSentMessage (to (Some (normalize message)))
                              s)))))))).
Proof.
  intros (Hblank & Hthr & Hsend) Hon. unfold sendMessage.
  rewrite decide_False by done. rewrite decide_False by done.
  rewrite Hsend. by rewrite decide_False.
Qed.

Lemma sendMessage_emitted_offline env message s :
  notConnected s → emitted (sendMessage env message s) = emitted s.
Proof.
  intros Hoff. unfold sendMessage.
  repeat case_decide; try done; destruct (isSending s); try done.
Qed.

Lemma on_connect_replay iso s :
  offlineQueueRef s = offlineQueue s → offlineQueue s ≠ [] →
  messages (on_connect iso s) =
    messages s ++ [replayNotice (length (offlineQueue s)) iso]
  ∧ emitted (on_connect iso s) = emitted s ++ (emitQueued <$> offlineQueue s)
  ∧ offlineQueue (on_connect iso s) = []
  ∧ isConnected (on_connect iso s) = true.
Proof.
  intros Href Hne. unfold on_connect.
  state_simpl. rewrite Href. rewrite decide_True.
  - by state_simpl.
  - destruct (offlineQueue s); [done | simpl; lia].
Qed.

Lemma on_connect_empty_queue iso s :
  offlineQueueRef s = [] →
  messages (on_connect iso s) = messages s
  ∧ emitted (on_connect iso s) = emitted s
  ∧ offlineQueue (on_connect iso s) = offlineQueue s.
Proof.
  intros Href. unfold on_connect.
  state_simpl. rewrite Href. by rewrite decide_False by (simpl; lia).
Qed.

(** Fields of the state after one event, in terms of the handler alone. *)
Section step_fields.
Context (ev : Event) (s : State).

Lemma step_messages : messages (step ev s) = messages (handle ev s).
Proof. reflexivity. Qed.
Lemma step_emitted : emitted (step ev s) = emitted (handle ev s).
Proof. reflexivity. Qed.
Lemma step_offlineQueue : offlineQueue (step ev s) = offlineQueue (handle ev s).
Proof. reflexivity. Qed.
Lemma step_offlineQueueRef :
  offlineQueueRef (step ev s) = offlineQueue (handle ev s).
Proof. reflexivity. Qed.
Lemma step_pendingMessages :
  pendingMessages (step ev s) = pendingMessages (handle ev s).
Proof. reflexivity. Qed.
Lemma step_pendingMessagesRef :
  pendingMessagesRef (step ev s) = pendingMessages (handle ev s).
Proof. reflexivity. Qed.
Lemma step_isTyping : isTyping (step ev s) = isTyping (handle ev s).
Proof. reflexivity. Qed.
Lemma step_error : error (step ev s) = error (handle ev s).
Proof. reflexivity. Qed.
Lemma step_isConnected : isConnected (step ev s) = isConnected (handle ev s).
Proof. reflexivity. Qed.
Lemma step_isSending : isSending (step ev s) = isSending (handle ev s).
Proof. reflexivity. Qed.
Lemma step_timers : timers (step ev s) = timers (handle ev s).
Proof. reflexivity. Qed.
End step_fields.

#[local] Hint Rewrite step_messages step_emitted step_offlineQueue
  step_offlineQueueRef step_pendingMessages step_pendingMessagesRef
  step_isTyping step_error step_isConnected step_isSending step_timers
  : step_fields.

(** C4. A message sent while the hook is not connected is not handed to the
    transport by that call; when the call is accepted the message is
    appended to the offline queue.  When the transport connects and the queue
    is not empty, the log gains exactly one message, the notice
    [replayNotice], the transport receives the queued messages in queue
    order, once each, and the queue is empty afterwards; a further connect
    event emits nothing.  The notice is an assistant message tagged [system]
    whose text is "Reconnected! Sending <n> message(s) from offline queue...",
    [n] being the number of queued messages. *)
Theorem offline_queue_replayed_once_in_order s :
  reachable s →
  (∀ env message, notConnected s →
     emitted (step (SendMessage env message) s) = emitted s
     ∧ (accepted env message s →
        offlineQueue (step (SendMessage env message) s) =
          offlineQueue s ++ [queuedEntry env message]))
  ∧ (∀ iso, offlineQueue s ≠ [] →
       messages (step (Connect iso) s) =
         messages s ++ [replayNotice (length (offlineQueue s)) iso]
       ∧ emitted (step (Connect iso) s) =
           emitted s ++ (emitQueued <$> offlineQueue s)
       ∧ offlineQueue (step (Connect iso) s) = []
       ∧ isConnected (step (Connect iso) s) = true
       ∧ ∀ iso',
           emitted (step (Connect iso') (step (Connect iso) s)) =
             emitted (step (Connect iso) s)
           ∧ messages (step (Connect iso') (step (Connect iso) s)) =
               messages (step (Connect iso) s))
  ∧ (∀ count iso,
       role (replayNotice count iso) = assistant
       ∧ agent (replayNotice count iso) = Some system
       ∧ content (replayNotice count iso) =
           "Reconnected! Sending " +:+ pretty count +:+
           " message(s) from offline queue...").
Proof.
  intros Hs. destruct (reachable_synced s Hs) as (_ & _ & Href).
  split; [|split; [|done]].
  - intros env message Hoff. step_fields. split.
    + exact (sendMessage_emitted_offline env message s Hoff).
    + intros Hacc. rewrite sendMessage_accepted_offline by done.
      reflexivity.
  - intros iso Hne.
    destruct (on_connect_replay iso s Href Hne) as (Hm & He & Hq & Hc).
    assert (Hq' : offlineQueueRef (step (Connect iso) s) = []).
    { step_fields. exact Hq. }
    split; [step_fields; exact Hm |]. split; [step_fields; exact He |].
    split; [step_fields; exact Hq |]. split; [step_fields; exact Hc |].
    intros iso'.
    generalize dependent (step (Connect iso) s). intros s' Hq'.
    destruct (on_connect_empty_queue iso' s' Hq') as (Hm' & He' & _).
    step_fields. split; [exact He' | exact Hm'].
Qed.

(** ** The throttle guard *)

Lemma sendMessage_throttled env message s :
  trim message ≠ "" → throttled env message s →
  sendMessage env message s =
    schedule clearError (SendEnv.now env) TIMING.ERROR_AUTO_CLEAR_MS
      (setError (to (Some ERROR_MESSAGES.SEND_TOO_FAST)) s).
Proof.
  intros Hblank Hthr. unfold sendMessage.
  rewrite decide_False by done. by rewrite decide_True.
Qed.

Lemma sendMessage_in_flight env message s :
  trim message ≠ "" → ¬ throttled env message s → isSending s = true →
  sendMessage env message s = s.
Proof.
  intros Hblank Hthr Hsend. unfold sendMessage.
  rewrite decide_False by done. rewrite decide_False by done.
  by rewrite Hsend.
Qed.

Lemma sendMessage_blank env message s :
  trim message = "" → sendMessage env message s = s.
Proof. intros Hblank. unfold sendMessage. by rewrite decide_True. Qed.

Lemma sendMessage_accepted_messages env message s :
  accepted env message s →
  messages (sendMessage env message s) =
    messages s ++
      userMessage env message ::
      (if decide (notConnected s) then [offlineNotice env] else []).
Proof.
  intros Hacc. destruct (decide (notConnected s)) as [Hoff|Hon].
  - rewrite sendMessage_accepted_offline by done. state_simpl.
    by rewrite <- app_assoc.
  - rewrite sendMessage_accepted_online by done. by state_simpl.
Qed.

(** In a reachable state the content last sent is never blank, so a message
    that normalizes to it gets past the blank-input guard. *)
Lemma repeat_is_not_blank s message :
  reachable s → lastSentMessage s = Some (normalize message) →
  trim message ≠ "".
Proof.
  intros Hs Hlast Hblank. apply (reachable_lastSentMessage s Hs).
  rewrite Hlast. unfold normalize. by rewrite Hblank, toLowerCase_nil.
Qed.

Lemma unschedule_other t t' d l :
  t ≠ t' → (t', d) ∈ l → (t', d) ∈ unschedule t l.
Proof.
  intros Hne. induction l as [|[t0 d0] l IH]; [done |].
  cbn [unschedule]. intros [[= -> ->]|Hin]%elem_of_cons.
  - rewrite decide_False by done. by left.
  - case_decide; [done |]. right. by apply IH.
Qed.

Lemma sendMessage_inFlightTimer env message s :
  inFlightTimer s → inFlightTimer (sendMessage env message s).
Proof.
  intros Hinv. unfold sendMessage.
  case_decide; [done |]. case_decide.
  { unfold inFlightTimer in *. state_simpl. intros Hs.
    apply elem_of_app. left. by apply Hinv. }
  destruct (isSending s) eqn:Hsend; [exact Hinv |].
  case_decide; unfold inFlightTimer; state_simpl; [done |].
  intros _. apply elem_of_app. right. by apply list_elem_of_singleton.
Qed.

Lemma handle_inFlightTimer ev s : inFlightTimer s → inFlightTimer (handle ev s).
Proof.
  intros Hinv. destruct ev; cbn [handle];
    try (by apply sendMessage_inFlightTimer);
    try (unfold_handlers; repeat case_decide; repeat case_match; done).
  unfold on_timeout. case_decide; [|done].
  unfold inFlightTimer in *. destruct t; state_simpl; [|done].
  intros Hs. apply unschedule_other; [done |]. by apply Hinv.
Qed.

Lemma reachable_inFlightTimer s : reachable s → inFlightTimer s.
Proof.
  induction 1 as [|ev s Hs IH]; [done |].
  apply (handle_inFlightTimer ev) in IH. exact IH.
Qed.

(** Once the cooldown has elapsed and the due timeouts have run, no send is
    in flight any more. *)
Lemma cooled_down_not_in_flight s now :
  reachable s → punctual now s →
  (TIMING.DUPLICATE_SEND_THROTTLE_MS ≤ now - lastSentTime s)%Z →
  isSending s = false.
Proof.
  intros Hs Hp Hslow. destruct (isSending s) eqn:Hsend; [|done].
  pose proof (reachable_inFlightTimer s Hs Hsend) as Hin.
  apply Hp in Hin. unfold TIMING.DUPLICATE_SEND_THROTTLE_MS,
    TIMING.SENDING_STATE_DURATION_MS in *. lia.
Qed.

(** C5. A send whose normalized content (trimmed, lower-cased) equals the
    content last sent is rejected while less than the cooldown has elapsed
    since that send: the "too fast" error is surfaced (and a timeout is
    scheduled to clear it) while the log, the offline queue, the pending map
    and the transport are left as they were.  The same call made once the
    cooldown has elapsed (the timeouts due by then having run) is accepted
    and appends the user message to the log. *)
Theorem repeated_send_throttled_within_cooldown s env message :
  reachable s →
  lastSentMessage s = Some (normalize message) →
  ((SendEnv.now env - lastSentTime s < TIMING.DUPLICATE_SEND_THROTTLE_MS)%Z →
     error (step (SendMessage env message) s) =
       Some ERROR_MESSAGES.SEND_TOO_FAST
     ∧ timers (step (SendMessage env message) s) =
         timers s ++
           [(clearError, (SendEnv.now env + TIMING.ERROR_AUTO_CLEAR_MS)%Z)]
     ∧ messages (step (SendMessage env message) s) = messages s
     ∧ offlineQueue (step (SendMessage env message) s) = offlineQueue s
     ∧ pendingMessages (step (SendMessage env message) s) = pendingMessages s
     ∧ emitted (step (SendMessage env message) s) = emitted s)
  ∧ ((TIMING.DUPLICATE_SEND_THROTTLE_MS ≤ SendEnv.now env - lastSentTime s)%Z →
     punctual (SendEnv.now env) s →
     messages (step (SendMessage env message) s) =
       messages s ++
         userMessage env message ::
         (if decide (notConnected s) then [offlineNotice env] else [])).
Proof.
  intros Hs Hlast.
  pose proof (repeat_is_not_blank s message Hs Hlast) as Hblank.
  split.
  - intros Hfast. step_fields.
    rewrite sendMessage_throttled by done. by state_simpl.
  - intros Hslow Hpunctual. step_fields.
    apply sendMessage_accepted_messages. split; [done | split].
    + intros [_ Hfast]. lia.
    + by apply (cooled_down_not_in_flight s (SendEnv.now env)).
Qed.

Lemma demoOnlineIdle_reachable : reachable demoOnlineIdle.
Proof.
  unfold demoOnlineIdle, demoOnline.
  do 4 apply reachable_step. apply reachable_initial.
Qed.

(** ** Rejections that leave no trace in the state *)

(** C6, amended.  Of the rejections of the hook only the throttle guard
    surfaces an error.  A send rejected because an earlier send is still in
    flight, and [cancelMessage] and [cancelAllMessages] called while not
    connected, return without touching any state cell: [error] keeps the
    value it had. *)
Theorem only_throttle_rejection_sets_error s env message messageId :
  (trim message ≠ "" → throttled env message s →
     error (sendMessage env message s) = Some ERROR_MESSAGES.SEND_TOO_FAST)
  ∧ (trim message ≠ "" → ¬ throttled env message s → isSending s = true →
     sendMessage env message s = s)
  ∧ (notConnected s →
     cancelMessage messageId s = s ∧ cancelAllMessages s = s).
Proof.
  split_and!.
  - intros Hblank Hthr. by rewrite sendMessage_throttled.
  - apply sendMessage_in_flight.
  - intros Hoff. unfold cancelMessage, cancelAllMessages.
    by rewrite !decide_True.
Qed.

(** ** Pending entries *)

(** C7, amended.  A send accepted while connected adds to the pending map an
    entry keyed by the new message's id, with status [sending].  A send
    accepted while not connected leaves the pending map as it was; the
    message is recorded in the offline queue instead. *)
Theorem accepted_send_tracked_when_connected s env message :
  accepted env message s →
  (¬ notConnected s →
     JsMap.get (tempMessageId env)
       (pendingMessages (step (SendMessage env message) s)) =
       Some (pendingEntry env message))
  ∧ (notConnected s →
     pendingMessages (step (SendMessage env message) s) = pendingMessages s
     ∧ offlineQueue (step (SendMessage env message) s) =
         offlineQueue s ++ [queuedEntry env message]).
Proof.
  intros Hacc. split.
  - intros Hon. step_fields. rewrite sendMessage_accepted_online by done.
    state_simpl. apply JsMap_get_set_eq.
  - intros Hoff. step_fields. rewrite sendMessage_accepted_offline by done.
    by state_simpl.
Qed.

(** ** The typing indicator *)

Lemma reachable_by_reachable allowed s : reachable_by allowed s → reachable s.
Proof. induction 1; by constructor. Qed.














Lemma demoOnline_reachable : reachable demoOnline.
Proof. unfold demoOnline. do 3 apply reachable_step. apply reachable_initial. Qed.

(** ** Bulk cancellation *)

(** C9. On the bulk cancellation confirmation the pending map is emptied,
    whatever it held, the typing indicator is turned off, and the log gains
    exactly one message at its end and loses none: a system notice whose
    metadata carries the confirmed count and whose text is the server's text
    when it sent one, and "Cancelled <count> pending message(s)" otherwise. *)
Theorem bulk_cancellation_clears_pending s data iso :
  pendingMessages (step (AllMessagesCancelled data iso) s) = []
  ∧ isTyping (step (AllMessagesCancelled data iso) s) = false
  ∧ messages (step (AllMessagesCancelled data iso) s) =
      messages s ++ [cancellationNotice data iso]
  ∧ role (cancellationNotice data iso) = assistant
  ∧ agent (cancellationNotice data iso) = Some system
  ∧ metadata (cancellationNotice data iso) ≫= MessageMetadata.cancelled_count =
      Some (AllMessagesCancelledData.cancelled_count data)
  ∧ content (cancellationNotice data iso) =
      match truthyString (AllMessagesCancelledData.message data) with
      | Some text => text
      | None =>
          "Cancelled " +:+
          pretty (AllMessagesCancelledData.cancelled_count data) +:+
          " pending message(s)"
      end.
Proof.
  step_fields. split_and!; reflexivity.
Qed.

End useSocket_facts.

#[global] Hint Rewrite @step_messages @step_emitted @step_offlineQueue
  @step_offlineQueueRef @step_pendingMessages @step_pendingMessagesRef
  @step_isTyping @step_error @step_isConnected @step_isSending @step_timers
  : step_fields.

(** ** The claims about [useSocket] on runs of the hook *)

(** A message of no-break spaces is blank input, under every engine; and the
    engine of the examples folds accented capitals, so that a repeat in
    another case normalizes to the content last sent. *)
Example no_break_space_is_blank `{!Engine} env s :
  sendMessage env (nbsp +:+ " " +:+ nbsp) s = s.
Proof. by apply sendMessage_blank. Qed.

Example accented_repeat_normalized :
  normalize "  CAFÉ " = "café" ∧ normalize "café" = "café".
Proof. split; reflexivity. Qed.

Lemma offline_queue_replayed_once_in_order_witness :
  (emitted demoOffline = []
   ∧ offlineQueue demoOffline =
       [queuedEntry (demoEnv 5000 "k3x9q2m1a") "Where is my order?"])
  ∧ emitted (step (Connect "2024-05-01T10:00:07.000Z") demoOffline) =
      [emit_message "Where is my order?" MessageType.text]
  ∧ offlineQueue (step (Connect "2024-05-01T10:00:07.000Z") demoOffline) = []
  ∧ content <$>
      last (messages (step (Connect "2024-05-01T10:00:07.000Z") demoOffline)) =
      Some "Reconnected! Sending 1 message(s) from offline queue...".
Proof.
  split.
  - assert (Hr : reachable (step Mount initialState))
      by (apply reachable_step, reachable_initial).
    destruct (offline_queue_replayed_once_in_order _ Hr) as [Hsend _].
    destruct (Hsend (demoEnv 5000 "k3x9q2m1a") "Where is my order?")
      as [Hemit Hqueue]; [vm_compute; right; reflexivity |].
    split; [exact Hemit |]. apply Hqueue.
    split; [vm_compute; discriminate | split; [|reflexivity]].
    intros [[=] _].
  - assert (Hr : reachable demoOffline)
      by (unfold demoOffline; do 2 apply reachable_step; apply reachable_initial).
    destruct (offline_queue_replayed_once_in_order demoOffline Hr)
      as (_ & H & Hnotice).
    assert (Hne : offlineQueue demoOffline ≠ []) by (vm_compute; discriminate).
    destruct (H "2024-05-01T10:00:07.000Z" Hne) as (Hm & He & Hq & _).
    destruct (Hnotice (length (offlineQueue demoOffline))
                "2024-05-01T10:00:07.000Z") as (_ & _ & Hcontent).
    split; [rewrite He; vm_compute; reflexivity |]. split; [exact Hq |].
    rewrite Hm, last_snoc. cbn [fmap option_fmap option_map].
    rewrite Hcontent. vm_compute. reflexivity.
Defined.

Lemma repeated_send_throttled_within_cooldown_witness :
  error
    (step (SendMessage (demoEnv 6200 "p0o9i8u7y") "  where is MY order? ")
       demoOnlineIdle) = Some ERROR_MESSAGES.SEND_TOO_FAST
  ∧ length
      (messages
         (step (SendMessage (demoEnv 7000 "p0o9i8u7y") "  where is MY order? ")
            demoOnlineIdle)) = S (length (messages demoOnlineIdle)).
Proof.
  assert (Hlast : lastSentMessage demoOnlineIdle =
                    Some (normalize "  where is MY order? "))
    by (vm_compute; reflexivity).
  split.
  - destruct (repeated_send_throttled_within_cooldown demoOnlineIdle
                (demoEnv 6200 "p0o9i8u7y") "  where is MY order? "
                demoOnlineIdle_reachable Hlast) as [Hfast _].
    apply Hfast. vm_compute. reflexivity.
  - destruct (repeated_send_throttled_within_cooldown demoOnlineIdle
                (demoEnv 7000 "p0o9i8u7y") "  where is MY order? "
                demoOnlineIdle_reachable Hlast) as [_ Hslow].
    rewrite Hslow.
    + vm_compute. reflexivity.
    + vm_compute. discriminate.
    + assert (Htimers : timers demoOnlineIdle = []) by (vm_compute; reflexivity).
      intros t due Hin. rewrite Htimers in Hin. apply elem_of_nil in Hin.
      destruct Hin.
Defined.

(** C6, as stated, fails: a send rejected because an earlier send is still in
    flight, and the two cancel calls made while not connected, leave [error]
    null. *)
Lemma silent_rejections_counterexample :
  (isSending demoOnline = true
   ∧ error (step (SendMessage (demoEnv 5300 "z1y2x3w4v") "Any update?")
              demoOnline) = None)
  ∧ (isConnected (step Mount initialState) = false
     ∧ error (step (CancelMessage "temp_5000_k3x9q2m1a")
                (step Mount initialState)) = None
     ∧ error (step CancelAllMessages (step Mount initialState)) = None).
Proof. vm_compute. repeat split. Qed.

Lemma only_throttle_rejection_sets_error_witness :
  sendMessage (demoEnv 5300 "z1y2x3w4v") "Any update?" demoOnline = demoOnline
  ∧ cancelMessage "temp_5000_k3x9q2m1a" demoOffline = demoOffline
  ∧ error (sendMessage (demoEnv 5300 "z1y2x3w4v") "where is my order?"
             demoOnline) = Some ERROR_MESSAGES.SEND_TOO_FAST.
Proof.
  destruct (only_throttle_rejection_sets_error demoOnline
              (demoEnv 5300 "z1y2x3w4v") "Any update?" "") as (_ & Hflight & _).
  destruct (only_throttle_rejection_sets_error demoOffline
              (demoEnv 5300 "z1y2x3w4v") "Any update?" "temp_5000_k3x9q2m1a")
    as (_ & _ & Hcancel).
  destruct (only_throttle_rejection_sets_error demoOnline
              (demoEnv 5300 "z1y2x3w4v") "where is my order?" "")
    as (Hthr & _ & _).
  split; [|split].
  - apply Hflight.
    + vm_compute. discriminate.
    + vm_compute. intros [[=] _].
    + vm_compute. reflexivity.
  - assert (Hoff : notConnected demoOffline) by (vm_compute; right; reflexivity).
    destruct (Hcancel Hoff) as [Hone _]. exact Hone.
  - apply Hthr.
    + vm_compute. discriminate.
    + vm_compute. split; reflexivity.
Defined.

(** C7, as stated, fails: a send accepted while not connected appends the
    message to the log and to the offline queue, and the pending map stays
    empty. *)
Lemma offline_send_not_tracked_counterexample :
  accepted (demoEnv 5000 "k3x9q2m1a") "Where is my order?"
    (step Mount initialState)
  ∧ userMessage (demoEnv 5000 "k3x9q2m1a") "Where is my order?"
      ∈ messages demoOffline
  ∧ JsMap.get (tempMessageId (demoEnv 5000 "k3x9q2m1a"))
      (pendingMessages demoOffline) = None
  ∧ pendingMessages demoOffline = [].
Proof.
  split_and!.
  - vm_compute. split_and!; [discriminate | intros [[=] _] | reflexivity].
  - vm_compute. by left.
  - vm_compute. reflexivity.
  - vm_compute. reflexivity.
Qed.

Lemma accepted_send_tracked_when_connected_witness :
  JsMap.get "temp_5000_k3x9q2m1a" (pendingMessages demoOnline) =
    Some (PendingMessage.mk "Where is my order?" sending 5000 false None)
  ∧ pendingMessages demoOffline = [].
Proof.
  assert (Hacc : ∀ s, lastSentMessage s = None → isSending s = false →
            accepted (demoEnv 5000 "k3x9q2m1a") "Where is my order?" s).
  { intros s Hlast Hidle. split; [|split].
    - vm_compute. discriminate.
    - intros [Heq _]. congruence.
    - exact Hidle. }
  split.
  - destruct (accepted_send_tracked_when_connected
                (step (Connect "2024-05-01T10:00:00.000Z")
                   (step Mount initialState))
                (demoEnv 5000 "k3x9q2m1a") "Where is my order?") as [Hon _].
    + apply Hacc; vm_compute; reflexivity.
    + apply Hon. vm_compute. intros [[=]|[=]].
  - destruct (accepted_send_tracked_when_connected (step Mount initialState)
                (demoEnv 5000 "k3x9q2m1a") "Where is my order?") as [_ Hoff].
    + apply Hacc; vm_compute; reflexivity.
    + destruct Hoff as [Hp _]; [vm_compute; right; reflexivity | exact Hp].
Defined.



(** Two message-cancelled confirmations handled before React renders: both
    read the size 2 from the ref, the pending map ends up empty and the
    indicator stays on.  With a render between them the indicator goes
    off. *)
Example two_cancellations_before_a_render :
  JsMap.size (pendingMessages demoTwoPending) = 2
  ∧ pendingMessages
      (handle (MessageCancelled (MessageCancelledData.mk "temp_9000_q1w2e3r4t" true))
         (handle (MessageCancelled
                    (MessageCancelledData.mk "temp_5000_k3x9q2m1a" true))
            demoTwoPending)) = []
  ∧ isTyping
      (handle (MessageCancelled (MessageCancelledData.mk "temp_9000_q1w2e3r4t" true))
         (handle (MessageCancelled
                    (MessageCancelledData.mk "temp_5000_k3x9q2m1a" true))
            demoTwoPending)) = true
  ∧ isTyping
      (handle (MessageCancelled (MessageCancelledData.mk "temp_9000_q1w2e3r4t" true))
         (step (MessageCancelled
                  (MessageCancelledData.mk "temp_5000_k3x9q2m1a" true))
            demoTwoPending)) = false.
Proof. vm_compute. repeat split. Qed.

(** Two sends in flight, then the confirmation for both. *)
Example bulk_cancellation_of_two :
  let s :=
    step (SendMessage (demoEnv 9000 "q1w2e3r4t") "And my refund?")
      (step (TimeoutFires clearSending) demoOnline) in
  let s' :=
    step (AllMessagesCancelled (AllMessagesCancelledData.mk 2 None)
            "2024-05-01T10:00:12.000Z") s in
  JsMap.size (pendingMessages s) = 2
  ∧ JsMap.size (pendingMessages s') = 0
  ∧ content <$> last (messages s') = Some "Cancelled 2 pending message(s)".
Proof. vm_compute. repeat split. Qed.

(** * The correlation engine *)

Lemma useMessageCorrelation_passes messages pendingMessages :
  Variant2.useMessageCorrelation messages pendingMessages =
    (pendingPass pendingMessages
       ((secondPass messages (firstPass messages).1).1,
        (firstPass messages).2)).1.
Proof.
  unfold Variant2.useMessageCorrelation, secondPass, firstPass.
  destruct (forEach numberUser messages (∅, 0)) as [m c]. cbn [fst snd].
  by destruct (forEach Variant2.matchReply messages (m, [])) as [m' q].
Qed.

(** ** [forEach] *)

Lemma forEach_from_app {A St} (f : St → A → nat → St) i l1 l2 s :
  forEach_from f i (l1 ++ l2) s =
    forEach_from f (i + length l1) l2 (forEach_from f i l1 s).
Proof.
  revert i s. induction l1 as [|x l1 IH]; intros i s; simpl.
  - by rewrite Nat.add_0_r.
  - rewrite IH. f_equal. lia.
Qed.

Lemma forEach_snoc {A St} (f : St → A → nat → St) l x s :
  forEach f (l ++ [x]) s = f (forEach f l s) x (length l).
Proof. unfold forEach. by rewrite forEach_from_app. Qed.

Lemma forEach_take_S {A St} (f : St → A → nat → St) l n x s :
  l !! n = Some x →
  forEach f (take (S n) l) s = f (forEach f (take n l) s) x n.
Proof.
  intros Hx. rewrite (take_S_r l n x Hx), forEach_snoc.
  rewrite length_take_le; [done |]. apply lookup_lt_Some in Hx. lia.
Qed.

(** ** The loop bodies, case by case *)

Lemma isUser_true m : isUser m = true ↔ role m = user.
Proof. unfold isUser. by rewrite bool_decide_eq_true. Qed.

Lemma isReply_true m :
  isReply m = true ↔ role m = assistant ∧ agent m ≠ Some system.
Proof.
  unfold isReply. by rewrite andb_true_iff, !bool_decide_eq_true.
Qed.

Lemma isReply_not_user m : isReply m = true → isUser m = false.
Proof.
  intros [Hrole _]%isReply_true. unfold isUser.
  apply bool_decide_eq_false. congruence.
Qed.

Lemma numberUser_user m c x i :
  isUser x = true →
  numberUser (m, c) x i = (<[messageKey x i := userData (c + 1)]> m, c + 1).
Proof. intros Hu%isUser_true. unfold numberUser. by rewrite Hu. Qed.

Lemma numberUser_other st x i : isUser x = false → numberUser st x i = st.
Proof.
  unfold isUser. intros Hu%bool_decide_eq_false. unfold numberUser.
  destruct st as [m c]. by destruct (role x).
Qed.

Lemma matchReply_user m q x i :
  isUser x = true →
  Variant2.matchReply (m, q) x i =
    match m !! messageKey x i with
    | Some d =>
        (m, q ++ [Variant2.mkQuestion (messageKey x i)
                    (CorrelationData.correlationNumber d)])
    | None => (m, q)
    end.
Proof. intros Hu%isUser_true. unfold Variant2.matchReply. by rewrite Hu. Qed.

Lemma matchReply_notice st x i :
  isUser x = false → isReply x = false → Variant2.matchReply st x i = st.
Proof.
  unfold isUser, isReply. intros Hu%bool_decide_eq_false Hr.
  unfold Variant2.matchReply. destruct st as [m q].
  destruct (role x); [done |].
  rewrite bool_decide_eq_true_2 in Hr by done. simpl in Hr.
  apply bool_decide_eq_false in Hr. apply dec_stable in Hr.
  by rewrite decide_True.
Qed.

Lemma matchReply_reply m q x i :
  isReply x = true →
  Variant2.matchReply (m, q) x i =
    match q with
    | matched :: rest =>
        (<[messageKey x i :=
             replyData (Variant2.correlationNumber matched)
               (Variant2.id matched)]> m, rest)
    | [] => (m, q)
    end.
Proof.
  intros [Hrole Hsys]%isReply_true. unfold Variant2.matchReply.
  rewrite Hrole. by rewrite decide_False.
Qed.

(** Every message is a user message, a reply or a notice. *)
Lemma message_kind x :
  isUser x = true ∨ isReply x = true ∨ (isUser x = false ∧ isReply x = false).
Proof.
  destruct (isUser x) eqn:Hu; [by left | right].
  destruct (isReply x); [by left | by right].
Qed.

(** ** Which keys a pass touches *)

Lemma numberUser_counter l base m c :
  (forEach_from numberUser base l (m, c)).2 =
    c + length (filter (λ x, isUser x = true) l).
Proof.
  revert base m c. induction l as [|x l IH]; intros base m c.
  - simpl. lia.
  - cbn [forEach_from]. rewrite filter_cons.
    destruct (isUser x) eqn:Hu.
    + rewrite numberUser_user, IH by done. rewrite decide_True by done.
      simpl. lia.
    + rewrite numberUser_other, IH by done. by rewrite decide_False.
Qed.

Lemma numberUser_untouched l base m c k :
  (∀ j x, l !! j = Some x → isUser x = true → messageKey x (base + j) ≠ k) →
  (forEach_from numberUser base l (m, c)).1 !! k = m !! k.
Proof.
  revert base m c. induction l as [|x l IH]; intros base m c Hk; [done |].
  cbn [forEach_from].
  assert (Htail : ∀ j y, l !! j = Some y → isUser y = true →
            messageKey y (base + 1 + j) ≠ k).
  { intros j y Hy Hu. specialize (Hk (S j) y Hy Hu).
    by replace (base + 1 + j) with (base + S j) by lia. }
  specialize (Hk 0 x eq_refl). rewrite Nat.add_0_r in Hk.
  destruct (isUser x) eqn:Hu.
  - rewrite numberUser_user, IH by done. apply lookup_insert_ne. by apply Hk.
  - rewrite numberUser_other by done. by apply IH.
Qed.

Lemma matchReply_untouched l base m q k :
  (∀ j x, l !! j = Some x → isReply x = true → messageKey x (base + j) ≠ k) →
  (forEach_from Variant2.matchReply base l (m, q)).1 !! k = m !! k.
Proof.
  revert base m q. induction l as [|x l IH]; intros base m q Hk; [done |].
  cbn [forEach_from].
  assert (Htail : ∀ j y, l !! j = Some y → isReply y = true →
            messageKey y (base + 1 + j) ≠ k).
  { intros j y Hy Hu. specialize (Hk (S j) y Hy Hu).
    by replace (base + 1 + j) with (base + S j) by lia. }
  specialize (Hk 0 x eq_refl). rewrite Nat.add_0_r in Hk.
  destruct (message_kind x) as [Hu|[Hr|[Hu Hr]]].
  - rewrite matchReply_user by done.
    destruct (m !! messageKey x base); by apply IH.
  - rewrite matchReply_reply by done.
    destruct q as [|matched rest]; [by apply IH |].
    rewrite IH by done. apply lookup_insert_ne. by apply Hk.
  - rewrite matchReply_notice by done. by apply IH.
Qed.

Lemma pendingPass_keeps pendingMessages m c k v :
  m !! k = Some v → (pendingPass pendingMessages (m, c)).1 !! k = Some v.
Proof.
  unfold pendingPass. revert m c.
  induction pendingMessages as [|[id p] l IH]; intros m c Hk; [done |].
  cbn [foldl]. unfold addPending at 2.
  destruct (m !! KeyId id) eqn:Hid; [by apply IH |].
  apply IH. rewrite lookup_insert_ne; [done |]. congruence.
Qed.

(** ** Numbers of the user messages *)

Lemma userNumber_eq log i u :
  log !! i = Some u → isUser u = true →
  userNumber log i = length (filter (λ x, isUser x = true) (take i log)) + 1.
Proof.
  intros Hi Hu. unfold userNumber. rewrite (take_S_r log i u Hi).
  rewrite filter_app, length_app, filter_cons, decide_True by done. done.
Qed.

Lemma firstPass_user log i u :
  log !! i = Some u → isUser u = true →
  (∀ j x, log !! j = Some x → i < j → isUser x = true →
     messageKey x j ≠ messageKey u i) →
  (firstPass log).1 !! messageKey u i = Some (userData (userNumber log i)).
Proof.
  intros Hi Hu Hlater. unfold firstPass, forEach.
  rewrite <- (take_drop_middle log i u Hi) at 1.
  rewrite forEach_from_app. cbn [forEach_from].
  assert (Hlen : length (take i log) = i).
  { apply length_take_le. apply lookup_lt_Some in Hi. lia. }
  rewrite Hlen. cbn [Nat.add].
  pose proof (numberUser_counter (take i log) 0 ∅ 0) as Hc.
  destruct (forEach_from numberUser 0 (take i log) (∅, 0)) as [m1 c1].
  cbn [snd] in Hc. rewrite numberUser_user by done.
  rewrite numberUser_untouched.
  - rewrite lookup_insert_eq. f_equal. f_equal.
    rewrite (userNumber_eq log i u) by done. lia.
  - intros j x Hx Hux. rewrite lookup_drop in Hx.
    replace (i + 1 + j) with (S i + j) by lia.
    apply (Hlater (S i + j) x); [done | lia | done].
Qed.

(** A user message whose key no later write reuses keeps, in the map the hook
    returns, the record the numbering pass gave it. *)
Lemma useMessageCorrelation_user log pendingMessages i u :
  log !! i = Some u → isUser u = true → keyUnshared log i →
  Variant2.useMessageCorrelation log pendingMessages !! messageKey u i =
    Some (userData (userNumber log i)).
Proof.
  intros Hi Hu Hkey.
  assert (Hk : keyAt log i = messageKey u i) by (unfold keyAt; by rewrite Hi).
  rewrite useMessageCorrelation_passes. apply pendingPass_keeps.
  unfold secondPass, forEach. rewrite matchReply_untouched.
  - apply firstPass_user; [done..|].
    intros j x Hx Hlt Hux. rewrite <- Hk.
    apply Hkey; [done | lia |]. unfold writes. by rewrite Hux.
  - intros j x Hx Hrx. cbn [Nat.add]. rewrite <- Hk.
    apply Hkey; [done | |].
    + intros ->. rewrite Hi in Hx. injection Hx as ->.
      apply isReply_not_user in Hrx. congruence.
    + unfold writes. rewrite Hrx. apply orb_true_r.
Qed.

Lemma keyUnshared_prefix L E i : i < length L → keyUnshared (L ++ E) i → keyUnshared L i.
Proof.
  intros Hlt Hkey j m Hj Hne Hw.
  assert (Hk : keyAt (L ++ E) i = keyAt L i).
  { unfold keyAt. by rewrite (lookup_app_l L E i Hlt). }
  rewrite <- Hk. apply Hkey; [|done..]. by apply lookup_app_l_Some.
Qed.

Lemma userNumber_app L E i : i < length L → userNumber (L ++ E) i = userNumber L i.
Proof. intros Hlt. unfold userNumber. by rewrite take_app_le by lia. Qed.

Lemma userNumber_bounds log i u :
  log !! i = Some u → isUser u = true →
  1 ≤ userNumber log i ≤ length (filter (λ x, isUser x = true) log).
Proof.
  intros Hi Hu. split.
  - rewrite (userNumber_eq log i u) by done. lia.
  - unfold userNumber. rewrite <- (take_drop (S i) log) at 2.
    rewrite filter_app, length_app. lia.
Qed.

Lemma userNumber_increasing log i j v :
  log !! j = Some v → isUser v = true → i < j →
  userNumber log i < userNumber log j.
Proof.
  intros Hj Hv Hlt. rewrite (userNumber_eq log j v) by done.
  unfold userNumber.
  replace (take (S i) log) with (take (S i) (take j log))
    by (rewrite take_take; f_equal; lia).
  rewrite <- (take_drop (S i) (take j log)) at 2.
  rewrite filter_app, length_app. lia.
Qed.

(** ** Dropping a system notice from the log *)

Lemma shiftMap_empty n : shiftMap n ∅ = ∅.
Proof. unfold shiftMap. rewrite fmap_empty. by apply kmap_empty. Qed.

Lemma shiftMap_insert n k d m :
  shiftMap n (<[k := d]> m) = <[shiftKey n k := shiftData n d]> (shiftMap n m).
Proof. unfold shiftMap. rewrite fmap_insert. by apply kmap_insert, _. Qed.

Lemma shiftMap_lookup n k m : shiftMap n m !! shiftKey n k = shiftData n <$> m !! k.
Proof.
  unfold shiftMap. rewrite lookup_kmap by apply _. apply lookup_fmap.
Qed.

Lemma shiftMap_lookup_gap n m : shiftMap n m !! KeyIndex n = None.
Proof.
  unfold shiftMap. apply lookup_kmap_None; [apply _ |].
  intros [id|i]; unfold shiftKey, bump; [done |].
  case_decide; intros [= ?]; lia.
Qed.

Lemma messageKey_bump n x i : messageKey x (bump n i) = shiftKey n (messageKey x i).
Proof.
  unfold messageKey. destruct (message_id x) as [id|]; [|done].
  by case_decide.
Qed.

(** A loop whose body commutes with the renumbering and ignores the message
    [y] gives the renumbered result when [y] is inserted in the list. *)
Section forEach_skip.
  Context {St : Type} (f : St → Message → nat → St) (T : St → St) (n : nat).
  Context (y : Message).
  Hypothesis body_commutes : ∀ st x i, f (T st) x (bump n i) = T (f st x i).
  Hypothesis body_ignores : ∀ st i, f st y i = st.

Lemma forEach_from_below l b st :
  b + length l ≤ n →
  forEach_from f b l (T st) = T (forEach_from f b l st).
Proof.
  revert b st. induction l as [|x l IH]; intros b st Hb; [done |].
  cbn [forEach_from length] in *.
  rewrite <- IH by lia. rewrite <- body_commutes. unfold bump.
  by rewrite decide_False by lia.
Qed.

Lemma forEach_from_above l b st :
  n ≤ b →
  forEach_from f (S b) l (T st) = T (forEach_from f b l st).
Proof.
  revert b st. induction l as [|x l IH]; intros b st Hb; [done |].
  cbn [forEach_from].
  replace (S b + 1) with (S (b + 1)) by lia.
  rewrite <- IH by lia. rewrite <- body_commutes. unfold bump.
  by rewrite decide_True by lia.
Qed.

Lemma forEach_skip l1 l2 st :
  n = length l1 →
  forEach f (l1 ++ y :: l2) (T st) = T (forEach f (l1 ++ l2) st).
Proof.
  intros Hn. unfold forEach. rewrite !forEach_from_app.
  cbn [forEach_from Nat.add]. rewrite <- Hn.
  rewrite body_ignores, forEach_from_below by lia.
  replace (n + 1) with (S n) by lia.
  by apply forEach_from_above.
Qed.
End forEach_skip.

Lemma numberUser_commutes n st x i :
  numberUser (shiftNumbered n st) x (bump n i) = shiftNumbered n (numberUser st x i).
Proof.
  destruct st as [m c]. unfold shiftNumbered. cbn [fst snd].
  destruct (isUser x) eqn:Hu.
  - rewrite !numberUser_user by done. cbn [fst snd].
    by rewrite shiftMap_insert, messageKey_bump.
  - by rewrite !numberUser_other.
Qed.

Lemma matchReply_commutes n st x i :
  Variant2.matchReply (shiftMatched n st) x (bump n i) =
    shiftMatched n (Variant2.matchReply st x i).
Proof.
  destruct st as [m q]. unfold shiftMatched. cbn [fst snd].
  destruct (message_kind x) as [Hu|[Hr|[Hu Hr]]].
  - rewrite !matchReply_user by done.
    rewrite messageKey_bump, shiftMap_lookup.
    destruct (m !! messageKey x i) as [d|]; cbn [fmap option_fmap option_map fst snd];
      [|done].
    by rewrite fmap_app.
  - rewrite !matchReply_reply by done.
    destruct q as [|matched rest]; cbn [fmap list_fmap fst snd]; [done |].
    by rewrite shiftMap_insert, messageKey_bump.
  - by rewrite !matchReply_notice.
Qed.

Lemma pendingPass_commutes n pendingMessages st :
  pendingPass pendingMessages (shiftNumbered n st) =
    shiftNumbered n (pendingPass pendingMessages st).
Proof.
  unfold pendingPass. revert st.
  induction pendingMessages as [|[id p] l IH]; intros [m c]; [done |].
  cbn [foldl]. rewrite <- IH. f_equal.
  unfold addPending, shiftNumbered. cbn [fst snd].
  change (KeyId id) with (shiftKey n (KeyId id)) at 1.
  rewrite shiftMap_lookup.
  destruct (m !! KeyId id); cbn [fmap option_fmap option_map fst snd]; [done |].
  by rewrite shiftMap_insert.
Qed.

Lemma notice_not_user x : role x = assistant → isUser x = false.
Proof. intros Hrole. unfold isUser. apply bool_decide_eq_false. congruence. Qed.

Lemma notice_not_reply x : agent x = Some system → isReply x = false.
Proof.
  intros Hagent. unfold isReply. apply andb_false_iff. right.
  apply bool_decide_eq_false. by intros [].
Qed.

Lemma useMessageCorrelation_without_notice l1 notice l2 pendingMessages :
  role notice = assistant → agent notice = Some system →
  Variant2.useMessageCorrelation (l1 ++ notice :: l2) pendingMessages =
    shiftMap (length l1)
      (Variant2.useMessageCorrelation (l1 ++ l2) pendingMessages).
Proof.
  intros Hrole%notice_not_user Hagent%notice_not_reply.
  set (n := length l1).
  assert (H1 : firstPass (l1 ++ notice :: l2) =
               shiftNumbered n (firstPass (l1 ++ l2))).
  { unfold firstPass.
    change (∅, 0) with (shiftNumbered n (∅, 0)) at 1.
    - apply (forEach_skip numberUser (shiftNumbered n) n notice); [| |done].
      + apply numberUser_commutes.
      + intros st i. by apply numberUser_other. }
  rewrite !useMessageCorrelation_passes. rewrite H1.
  destruct (firstPass (l1 ++ l2)) as [m1 c1]. cbn [shiftNumbered fst snd].
  assert (H2 : secondPass (l1 ++ notice :: l2) (shiftMap n m1) =
               shiftMatched n (secondPass (l1 ++ l2) m1)).
  { unfold secondPass.
    change (shiftMap n m1, []) with (shiftMatched n (m1, [])).
    apply (forEach_skip Variant2.matchReply (shiftMatched n) n notice); [| |done].
    - apply matchReply_commutes.
    - intros st i. by apply matchReply_notice. }
  rewrite H2. destruct (secondPass (l1 ++ l2) m1) as [m2 q2].
  cbn [shiftMatched fst snd].
  change (shiftMap n m2, c1) with (shiftNumbered n (m2, c1)).
  by rewrite pendingPass_commutes.
Qed.

Lemma writes_user x : isUser x = true → writes x = true.
Proof. unfold writes. by intros ->. Qed.

Lemma writes_reply x : isReply x = true → writes x = true.
Proof. unfold writes. intros ->. apply orb_true_r. Qed.

Lemma pendingPass_untouched pendingMessages m c k :
  (∀ id, id ∈ JsMap.keys pendingMessages → KeyId id ≠ k) →
  (pendingPass pendingMessages (m, c)).1 !! k = m !! k.
Proof.
  unfold pendingPass, JsMap.keys. revert m c.
  induction pendingMessages as [|[id p] l IH]; intros m c Hk; [done |].
  rewrite fmap_cons in Hk. cbn [fst] in Hk. cbn [foldl].
  assert (Htail : ∀ id', id' ∈ l.*1 → KeyId id' ≠ k).
  { intros id' Hin. apply Hk. by right. }
  unfold addPending at 2.
  destruct (m !! KeyId id); [by apply IH |].
  rewrite IH by done. apply lookup_insert_ne. apply Hk. by left.
Qed.

(** C2, as stated, fails where it says that the notice gets no reply link:
    the notice of an agent switch, here between two user messages, carries
    the id of a reply of the log, so what is found under the notice's key is
    that reply's record, reply link included. *)
Lemma notice_with_reply_id_counterexample :
  ∃ question notice question',
    demoSwitchLog !! 0 = Some question ∧ role question = user
    ∧ demoSwitchLog !! 1 = Some notice
    ∧ role notice = assistant ∧ agent notice = Some system
    ∧ demoSwitchLog !! 2 = Some question' ∧ role question' = user
    ∧ Variant2.useMessageCorrelation demoSwitchLog []
        !! messageKey notice 1 = Some (replyData 1 (KeyId "temp_1"))
    ∧ replyLink (Variant2.useMessageCorrelation demoSwitchLog [])
        (messageKey notice 1) = Some (KeyId "temp_1").
Proof.
  eexists _, _, _. split; [reflexivity |]. split; [reflexivity |].
  split; [reflexivity |]. vm_compute. repeat split.
Qed.

(** C2, amended.  A system-tagged assistant message takes no slot of the FIFO
    queue.  The matching loop leaves its state (map and queue) as it found it
    at such a message.  Hence the correlation of a log that contains the
    notice is the correlation of the log without it, up to the renumbering of
    the positional keys behind the notice: every other message, and in
    particular the next non-system assistant message, has the record it has
    without the notice, bound to the same user message.  The notice itself
    has no record, and so no reply link, whenever its key is the key of no
    user message, of no non-system assistant message and of no pending
    entry; in general, under the notice's key there is nothing when it
    carries no id, and otherwise just what the log without the notice has
    under that id. *)
Theorem system_notice_takes_no_slot l1 notice l2 pendingMessages :
  role notice = assistant → agent notice = Some system →
  (∀ st i, Variant2.matchReply st notice i = st)
  ∧ Variant2.useMessageCorrelation (l1 ++ notice :: l2) pendingMessages =
      shiftMap (length l1)
        (Variant2.useMessageCorrelation (l1 ++ l2) pendingMessages)
  ∧ ((∀ j m, (l1 ++ notice :: l2) !! j = Some m → writes m = true →
        messageKey m j ≠ messageKey notice (length l1)) →
     (∀ id, id ∈ JsMap.keys pendingMessages →
        KeyId id ≠ messageKey notice (length l1)) →
     Variant2.useMessageCorrelation (l1 ++ notice :: l2) pendingMessages
       !! messageKey notice (length l1) = None)
  ∧ Variant2.useMessageCorrelation (l1 ++ notice :: l2) pendingMessages
      !! messageKey notice (length l1) =
      match truthyString (message_id notice) with
      | Some id =>
          shiftData (length l1) <$>
            (Variant2.useMessageCorrelation (l1 ++ l2) pendingMessages
               !! KeyId id)
      | None => None
      end
  ∧ (∀ j a, l1 !! j = Some a →
       Variant2.useMessageCorrelation (l1 ++ notice :: l2) pendingMessages
         !! messageKey a j =
         shiftData (length l1) <$>
           (Variant2.useMessageCorrelation (l1 ++ l2) pendingMessages
              !! messageKey a j))
  ∧ (∀ j a, l2 !! j = Some a →
       Variant2.useMessageCorrelation (l1 ++ notice :: l2) pendingMessages
         !! messageKey a (length l1 + 1 + j) =
         shiftData (length l1) <$>
           (Variant2.useMessageCorrelation (l1 ++ l2) pendingMessages
              !! messageKey a (length l1 + j))).
Proof.
  intros Hrole Hagent.
  pose proof (useMessageCorrelation_without_notice l1 notice l2 pendingMessages
                Hrole Hagent) as Heq.
  split; [|split; [done |split]]; [| |rewrite Heq; split; [|split]].
  - intros st i. apply matchReply_notice;
      [by apply notice_not_user | by apply notice_not_reply].
  - intros Hlog Hpending. rewrite useMessageCorrelation_passes.
    rewrite pendingPass_untouched by done.
    unfold secondPass, forEach. rewrite matchReply_untouched
      by (intros j x Hj Hr; apply Hlog; [done | by apply writes_reply]).
    unfold firstPass, forEach. rewrite numberUser_untouched
      by (intros j x Hj Hu; apply Hlog; [done | by apply writes_user]).
    apply lookup_empty.
  - unfold messageKey, truthyString.
    destruct (message_id notice) as [id|]; [|apply shiftMap_lookup_gap].
    case_decide; [apply shiftMap_lookup_gap |].
    apply (shiftMap_lookup (length l1) (KeyId id)).
  - intros j a Hj%lookup_lt_Some. rewrite <- shiftMap_lookup.
    rewrite <- messageKey_bump. unfold bump. by rewrite decide_False by lia.
  - intros j a _. rewrite <- shiftMap_lookup.
    rewrite <- messageKey_bump. unfold bump. rewrite decide_True by lia.
    do 2 f_equal. lia.
Qed.

Lemma system_notice_takes_no_slot_witness :
  Variant2.useMessageCorrelation
    ([mkMessage user "Where is my order?" "t1" None None (Some "m1")]
       ++ demoBanner :: demoAfterBanner) [] !! KeyIndex 1 = None
  ∧ Variant2.useMessageCorrelation
      ([mkMessage user "Where is my order?" "t1" None None (Some "m1")]
         ++ demoBanner :: demoAfterBanner) [] !! KeyIndex 3 =
      Some (replyData 1 (KeyId "m1"))
  ∧ Variant2.useMessageCorrelation
      ([mkMessage user "Where is my order?" "t1" None None (Some "m1")]
         ++ demoBanner :: demoAfterBanner) [] !! KeyIndex 4 =
      Some (replyData 2 (KeyIndex 2)).
Proof.
  destruct (system_notice_takes_no_slot
              [mkMessage user "Where is my order?" "t1" None None (Some "m1")]
              demoBanner demoAfterBanner [] eq_refl eq_refl)
    as (_ & _ & Hown & _ & _ & Hlater).
  split; [|split].
  - apply Hown.
    + intros j m Hj Hw Hkey.
      destruct j as [|[|[|[|[|j]]]]]; try done;
        injection Hj as <-; vm_compute in Hw, Hkey; congruence.
    + intros id Hid. by apply elem_of_nil in Hid.
  - pose proof (Hlater 1 _ eq_refl) as H. cbn [length Nat.add messageKey] in H.
    etrans; [exact H |]. vm_compute. reflexivity.
  - pose proof (Hlater 2 _ eq_refl) as H. cbn [length Nat.add messageKey] in H.
    etrans; [exact H |]. vm_compute. reflexivity.
Defined.

(** ** The specification's queue *)

Lemma unansweredBefore_S_user log n bound :
  isUserAt log n = true → n ∉ bound →
  unansweredBefore log (S n) bound = unansweredBefore log n bound ++ [n].
Proof.
  intros Hu Hn. unfold unansweredBefore.
  rewrite seq_S, filter_app. cbn [Nat.add]. f_equal.
  rewrite filter_cons, decide_True by done. done.
Qed.

Lemma unansweredBefore_S_other log n bound :
  isUserAt log n = false →
  unansweredBefore log (S n) bound = unansweredBefore log n bound.
Proof.
  intros Hu. unfold unansweredBefore.
  rewrite seq_S, filter_app. cbn [Nat.add].
  rewrite filter_cons, decide_False; [apply app_nil_r |].
  intros [? _]. congruence.
Qed.

Lemma filter_ne_id (j : nat) (l : list nat) : j ∉ l → filter (λ x, x ≠ j) l = l.
Proof.
  induction l as [|x l IH]; [done |].
  intros Hj. apply not_elem_of_cons in Hj as [Hne Hj].
  rewrite filter_cons, decide_True by done. f_equal. by apply IH.
Qed.

Lemma unansweredBefore_bind log n bound j rest :
  unansweredBefore log n bound = j :: rest →
  unansweredBefore log n (bound ++ [j]) = rest.
Proof.
  intros Hq.
  assert (Hnd : NoDup (j :: rest)).
  { rewrite <- Hq. apply NoDup_filter, NoDup_seq. }
  apply NoDup_cons in Hnd as [Hj _].
  transitivity (filter (λ x, x ≠ j) (unansweredBefore log n bound)).
  - unfold unansweredBefore. rewrite list_filter_filter.
    apply list_filter_iff. intros x. rewrite not_elem_of_app.
    rewrite list_elem_of_singleton. naive_solver.
  - rewrite Hq, filter_cons, decide_False by (intros ?; done).
    by apply filter_ne_id.
Qed.

Lemma unansweredBefore_elem log n bound j :
  j ∈ unansweredBefore log n bound ↔
    (isUserAt log j = true ∧ (j ∉ bound) ∧ (j < n)).
Proof.
  unfold unansweredBefore. rewrite list_elem_of_filter, elem_of_seq.
  naive_solver lia.
Qed.

Lemma bindingsBefore_elem log n i j :
  (i, j) ∈ bindingsBefore log n →
  i < n ∧ j < i ∧ isUserAt log j = true ∧ isReplyAt log i = true.
Proof.
  induction n as [|n IH]; cbn [bindingsBefore]; [by intros ?%elem_of_nil |].
  destruct (isReplyAt log n) eqn:Hr; [|intros ?%IH; naive_solver lia].
  destruct (head _) as [j'|] eqn:Hhead; [|intros ?%IH; naive_solver lia].
  intros [?%IH|Hlast%list_elem_of_singleton]%elem_of_app; [naive_solver lia |].
  injection Hlast as -> ->.
  apply head_Some_elem_of, unansweredBefore_elem in Hhead.
  naive_solver lia.
Qed.

Lemma bindingsBefore_targets log n j :
  j ∈ (bindingsBefore log n).*2 → j < n.
Proof.
  intros ([i j'] & -> & Hin)%list_elem_of_fmap.
  apply bindingsBefore_elem in Hin. simpl. lia.
Qed.

Lemma bindingsBefore_mono log n n' :
  n ≤ n' → bindingsBefore log n ⊆ bindingsBefore log n'.
Proof.
  induction 1 as [|n' Hle IH]; [done |].
  cbn [bindingsBefore]. destruct (isReplyAt log n'); [|done].
  destruct (head _); [|done].
  intros x Hx. apply elem_of_app. left. by apply IH.
Qed.

Lemma oldestUnanswered_bound log i j :
  isReplyAt log i = true → oldestUnanswered log i = Some j →
  (i, j) ∈ bindingsBefore log (S i).
Proof.
  unfold oldestUnanswered. intros Hr Hj. cbn [bindingsBefore].
  rewrite Hr, Hj. apply elem_of_app. right. by apply list_elem_of_singleton.
Qed.

Lemma oldestUnanswered_fresh log i j :
  oldestUnanswered log i = Some j →
  j < i ∧ isUserAt log j = true ∧ j ∉ (bindingsBefore log i).*2.
Proof.
  unfold oldestUnanswered.
  intros Hj%head_Some_elem_of%unansweredBefore_elem. naive_solver.
Qed.

(** No two assistant messages are bound to the same user message. *)
Lemma oldestUnanswered_inj log i i' j :
  isReplyAt log i = true → isReplyAt log i' = true →
  oldestUnanswered log i = Some j → oldestUnanswered log i' = Some j →
  i = i'.
Proof.
  assert (Hlt : ∀ a b, a < b → isReplyAt log a = true →
            oldestUnanswered log a = Some j → oldestUnanswered log b = Some j →
            False).
  { intros a b Hab Hr Ha Hb.
    apply oldestUnanswered_fresh in Hb as (_ & _ & Hfresh). apply Hfresh.
    apply list_elem_of_fmap. exists (a, j). split; [done |].
    apply (bindingsBefore_mono log (S a) b); [lia |].
    by apply oldestUnanswered_bound. }
  intros Hr Hr' Hj Hj'.
  destruct (Nat.lt_trichotomy i i') as [Hlt'|[->|Hlt']]; [|done|];
    exfalso; eauto.
Qed.

Lemma isUserAt_lookup log n x : log !! n = Some x → isUserAt log n = isUser x.
Proof. intros Hx. unfold isUserAt. by rewrite Hx. Qed.

Lemma isReplyAt_lookup log n x : log !! n = Some x → isReplyAt log n = isReply x.
Proof. intros Hx. unfold isReplyAt. by rewrite Hx. Qed.

Lemma isUser_not_reply x : isUser x = true → isReply x = false.
Proof.
  intros Hu. destruct (isReply x) eqn:Hr; [|done].
  apply isReply_not_user in Hr. congruence.
Qed.

(** How the specification's queue and bindings move over one message. *)
Lemma queue_step_user log n x :
  log !! n = Some x → isUser x = true →
  bindingsBefore log (S n) = bindingsBefore log n
  ∧ queueBefore log (S n) = queueBefore log n ++ [n].
Proof.
  intros Hx Hu.
  assert (Hb : bindingsBefore log (S n) = bindingsBefore log n).
  { cbn [bindingsBefore].
    by rewrite (isReplyAt_lookup log n x Hx), (isUser_not_reply x Hu). }
  split; [done |]. unfold queueBefore. rewrite Hb.
  apply unansweredBefore_S_user.
  - by rewrite (isUserAt_lookup log n x Hx).
  - intros Hin%bindingsBefore_targets. lia.
Qed.

Lemma queue_step_reply log n x :
  log !! n = Some x → isReply x = true →
  match queueBefore log n with
  | j :: rest =>
      bindingsBefore log (S n) = bindingsBefore log n ++ [(n, j)]
      ∧ queueBefore log (S n) = rest
  | [] =>
      bindingsBefore log (S n) = bindingsBefore log n
      ∧ queueBefore log (S n) = []
  end.
Proof.
  intros Hx Hr.
  assert (Hu : isUserAt log n = false).
  { rewrite (isUserAt_lookup log n x Hx). by apply isReply_not_user. }
  destruct (queueBefore log n) as [|j rest] eqn:Hq; unfold queueBefore in *.
  - assert (Hb : bindingsBefore log (S n) = bindingsBefore log n).
    { cbn [bindingsBefore]. by rewrite (isReplyAt_lookup log n x Hx), Hr, Hq. }
    split; [done |]. rewrite Hb. by rewrite unansweredBefore_S_other.
  - assert (Hb : bindingsBefore log (S n) = bindingsBefore log n ++ [(n, j)]).
    { cbn [bindingsBefore]. by rewrite (isReplyAt_lookup log n x Hx), Hr, Hq. }
    split; [done |]. rewrite Hb, unansweredBefore_S_other by done.
    rewrite fmap_app. by apply unansweredBefore_bind.
Qed.

Lemma queue_step_notice log n x :
  log !! n = Some x → isUser x = false → isReply x = false →
  bindingsBefore log (S n) = bindingsBefore log n
  ∧ queueBefore log (S n) = queueBefore log n.
Proof.
  intros Hx Hu Hr.
  assert (Hb : bindingsBefore log (S n) = bindingsBefore log n).
  { cbn [bindingsBefore]. by rewrite (isReplyAt_lookup log n x Hx), Hr. }
  split; [done |]. unfold queueBefore. rewrite Hb.
  apply unansweredBefore_S_other. by rewrite (isUserAt_lookup log n x Hx).
Qed.

(** Counting: every user message seen so far is either waiting or bound, and
    only non-system assistant messages are bound. *)
Lemma queue_count log n :
  n ≤ length log →
  length (queueBefore log n) + length (bindingsBefore log n) =
    length (filter (λ m, isUser m = true) (take n log))
  ∧ length (bindingsBefore log n)
    ≤ length (filter (λ m, isReply m = true) (take n log)).
Proof.
  induction n as [|n IH]; [done |]. intros Hn.
  destruct IH as [IHq IHb]; [lia |].
  destruct (lookup_lt_is_Some_2 log n) as [x Hx]; [lia |].
  rewrite (take_S_r log n x Hx), !filter_app, !length_app, !filter_cons.
  destruct (message_kind x) as [Hu|[Hr|[Hu Hr]]].
  - destruct (queue_step_user log n x Hx Hu) as [-> ->].
    rewrite decide_True by done.
    rewrite decide_False by (rewrite (isUser_not_reply x Hu); done).
    rewrite length_app. simpl. lia.
  - pose proof (queue_step_reply log n x Hx Hr) as Hstep.
    rewrite decide_False by (rewrite (isReply_not_user x Hr); done).
    rewrite decide_True by done.
    destruct (queueBefore log n) as [|j rest]; destruct Hstep as [-> ->];
      rewrite ?length_app; simpl in *; lia.
  - destruct (queue_step_notice log n x Hx Hu Hr) as [-> ->].
    rewrite !decide_False by (rewrite ?Hu, ?Hr; done). simpl. lia.
Qed.

(** In a balanced log the queue is never empty when a reply comes. *)
Lemma balanced_oldestUnanswered log i a :
  balanced log → log !! i = Some a → isReply a = true →
  is_Some (oldestUnanswered log i).
Proof.
  intros Hbal Hi Hr.
  assert (Hlt : i < length log) by by eapply lookup_lt_Some.
  unfold oldestUnanswered. fold (queueBefore log i).
  destruct (queueBefore log i) as [|j rest] eqn:Hq; [|by eexists].
  exfalso.
  destruct (queue_count log i) as [Hcount Hbound]; [lia |].
  specialize (Hbal (S i) Hlt). revert Hbal.
  rewrite (take_S_r log i a Hi), !filter_app, !length_app, !filter_cons.
  rewrite decide_True by done.
  rewrite decide_False by (rewrite (isReply_not_user a Hr); done).
  rewrite Hq in Hcount. simpl in *. lia.
Qed.

(** ** The matching loop against the specification's queue *)

(** The numbering pass writes no reply link. *)
Lemma numberUser_replyLink l base m c k :
  replyLink m k = None →
  replyLink (forEach_from numberUser base l (m, c)).1 k = None.
Proof.
  revert base m c. induction l as [|x l IH]; intros base m c Hk; [done |].
  cbn [forEach_from]. destruct (isUser x) eqn:Hu.
  - rewrite numberUser_user by done. apply IH. unfold replyLink.
    destruct (decide (k = messageKey x base)) as [->|Hne].
    + by rewrite lookup_insert_eq.
    + by rewrite lookup_insert_ne.
  - rewrite numberUser_other by done. by apply IH.
Qed.

Lemma firstPass_replyLink log k : replyLink (firstPass log).1 k = None.
Proof. by apply numberUser_replyLink. Qed.

Section fresh_keys.
  Context (log : list Message) (Hkeys : keysFresh log).

Lemma keysFresh_replies i j a b :
  log !! i = Some a → log !! j = Some b →
  isReply a = true → isReply b = true →
  messageKey a i = messageKey b j → i = j.
Proof.
  intros Hi Hj Ha Hb Heq.
  destruct (Nat.lt_trichotomy i j) as [Hlt|[->|Hlt]]; [|done|]; exfalso.
  - destruct (Hkeys i j a b) as [Hu _]; auto using writes_reply.
    apply isReply_not_user in Ha. congruence.
  - destruct (Hkeys j i b a) as [Hu _]; auto using writes_reply.
    apply isReply_not_user in Hb. congruence.
Qed.

Lemma keysFresh_users i j a b :
  log !! i = Some a → log !! j = Some b →
  isUser a = true → isUser b = true →
  messageKey a i = messageKey b j → i = j.
Proof.
  intros Hi Hj Ha Hb Heq.
  destruct (Nat.lt_trichotomy i j) as [Hlt|[->|Hlt]]; [|done|]; exfalso.
  - destruct (Hkeys i j a b) as [_ Hr]; auto using writes_user.
    apply isReply_not_user in Hr. congruence.
  - destruct (Hkeys j i b a) as [_ Hr]; auto using writes_user.
    apply isReply_not_user in Hr. congruence.
Qed.

Lemma keysFresh_user_reply i j u a :
  log !! j = Some u → log !! i = Some a →
  isUser u = true → isReply a = true →
  messageKey a i = messageKey u j → j < i.
Proof.
  intros Hj Hi Hu Ha Heq.
  destruct (Nat.lt_trichotomy j i) as [Hlt|[->|Hlt]]; [done | |]; exfalso.
  - rewrite Hi in Hj. injection Hj as ->.
    apply isReply_not_user in Ha. congruence.
  - destruct (Hkeys i j a u) as [Hua _]; auto using writes_user, writes_reply.
    apply isReply_not_user in Ha. congruence.
Qed.

(** When the loop reaches a user message, the message still has the record
    of the numbering pass. *)
Lemma matchedUpTo_user n u :
  log !! n = Some u → isUser u = true →
  (matchedUpTo log n).1 !! messageKey u n = Some (userData (userNumber log n)).
Proof.
  intros Hn Hu. unfold matchedUpTo, forEach. rewrite matchReply_untouched.
  - apply firstPass_user; [done..|].
    intros j x Hj Hlt Hux Heq.
    pose proof (keysFresh_users j n x u Hj Hn Hux Hu Heq). lia.
  - intros j x [Hj Hlt]%lookup_take_Some Hr Heq. cbn [Nat.add] in Heq.
    pose proof (keysFresh_user_reply j n u x Hn Hj Hu Hr Heq). lia.
Qed.

(** Before the loop reaches it, an assistant message has no reply link. *)
Lemma matchedUpTo_not_yet n i a :
  log !! i = Some a → isReply a = true → n ≤ i →
  replyLink (matchedUpTo log n).1 (messageKey a i) = None.
Proof.
  intros Hi Hr Hle. unfold replyLink, matchedUpTo, forEach.
  rewrite matchReply_untouched; [apply firstPass_replyLink |].
  intros j x [Hj Hlt]%lookup_take_Some Hrx Heq. cbn [Nat.add] in Heq.
  pose proof (keysFresh_replies j i x a Hj Hi Hrx Hr Heq). lia.
Qed.

Lemma matchedUpTo_S n x :
  log !! n = Some x →
  matchedUpTo log (S n) = Variant2.matchReply (matchedUpTo log n) x n.
Proof. intros Hx. unfold matchedUpTo. by apply forEach_take_S. Qed.

(** The loop's queue is the specification's queue, and every assistant
    message passed so far is bound as the specification expects. *)
Lemma matchedUpTo_spec n :
  n ≤ length log →
  (matchedUpTo log n).2 = questionAt log <$> queueBefore log n
  ∧ ∀ i a, i < n → log !! i = Some a → isReply a = true →
      bound_as_specified log (matchedUpTo log n).1 i a.
Proof.
  induction n as [|n IH]; intros Hn.
  { split; [done | intros; lia]. }
  destruct IH as [IHq IHm]; [lia |].
  destruct (lookup_lt_is_Some_2 log n) as [x Hx]; [lia |].
  rewrite (matchedUpTo_S n x Hx).
  pose proof (matchedUpTo_user n x Hx) as Huser.
  pose proof (matchedUpTo_not_yet n n x Hx) as Hnone.
  destruct (matchedUpTo log n) as [m q]. cbn [fst snd] in *.
  destruct (message_kind x) as [Hu|[Hr|[Hu Hr]]].
  - rewrite matchReply_user by done. rewrite (Huser Hu). cbn [fst snd].
    destruct (queue_step_user log n x Hx Hu) as [_ ->]. split.
    + rewrite fmap_app, IHq. cbn [fmap list_fmap]. do 2 f_equal.
      unfold questionAt, keyAt. by rewrite Hx.
    + intros i a Hlt Hi Ha.
      destruct (decide (i = n)) as [->|Hne].
      * rewrite Hx in Hi. injection Hi as ->.
        apply isReply_not_user in Ha. congruence.
      * apply IHm; [lia | done..].
  - rewrite matchReply_reply by done.
    pose proof (queue_step_reply log n x Hx Hr) as Hstep.
    assert (Hhead : oldestUnanswered log n = head (queueBefore log n)) by done.
    destruct (queueBefore log n) as [|j rest]; destruct Hstep as [_ ->];
      cbn [fmap list_fmap] in IHq; rewrite IHq; cbn [fst snd].
    + split; [done |]. intros i a Hlt Hi Ha.
      destruct (decide (i = n)) as [->|Hne].
      * rewrite Hx in Hi. injection Hi as <-.
        unfold bound_as_specified. rewrite Hhead. by apply Hnone.
      * apply IHm; [lia | done..].
    + split; [done |]. intros i a Hlt Hi Ha.
      destruct (decide (i = n)) as [->|Hne].
      * rewrite Hx in Hi. injection Hi as <-.
        unfold bound_as_specified. rewrite Hhead. cbn [head].
        by rewrite lookup_insert_eq.
      * assert (Hkey : messageKey x n ≠ messageKey a i).
        { intros Heq. by pose proof (keysFresh_replies n i x a Hx Hi Hr Ha Heq). }
        specialize (IHm i a ltac:(lia) Hi Ha).
        unfold bound_as_specified, replyLink in *.
        destruct (oldestUnanswered log i); by rewrite lookup_insert_ne.
  - rewrite matchReply_notice by done. cbn [fst snd].
    destruct (queue_step_notice log n x Hx Hu Hr) as [_ ->]. split; [done |].
    intros i a Hlt Hi Ha.
    destruct (decide (i = n)) as [->|Hne].
    + rewrite Hx in Hi. injection Hi as ->. congruence.
    + apply IHm; [lia | done..].
Qed.

Lemma secondPass_spec i a :
  log !! i = Some a → isReply a = true →
  bound_as_specified log (secondPass log (firstPass log).1).1 i a.
Proof.
  intros Hi Ha.
  destruct (matchedUpTo_spec (length log)) as [_ Hm]; [done |].
  unfold matchedUpTo in Hm. rewrite firstn_all in Hm.
  apply Hm; [by eapply lookup_lt_Some | done..].
Qed.
End fresh_keys.

(** The pending pass adds records without a reply link, and only under keys
    that have no record yet. *)
Lemma pendingPass_replyLink pendingMessages m c k :
  replyLink (pendingPass pendingMessages (m, c)).1 k = replyLink m k.
Proof.
  unfold pendingPass. revert m c.
  induction pendingMessages as [|[id p] l IH]; intros m c; [done |].
  cbn [foldl]. unfold addPending at 2.
  destruct (m !! KeyId id) eqn:Hid; [by apply IH |].
  rewrite IH. unfold replyLink.
  destruct (decide (k = KeyId id)) as [->|Hne].
  - by rewrite lookup_insert_eq, Hid.
  - by rewrite lookup_insert_ne.
Qed.

Lemma isUserAt_true log j :
  isUserAt log j = true → ∃ u, log !! j = Some u ∧ isUser u = true.
Proof. unfold isUserAt. destruct (log !! j) as [u|]; [eauto | done]. Qed.

(** What the returned map holds under the key of a non-system assistant
    message. *)
Lemma useMessageCorrelation_reply log pendingMessages i a :
  keysFresh log → log !! i = Some a → isReply a = true →
  match oldestUnanswered log i with
  | Some j =>
      ∃ u, j < i ∧ log !! j = Some u ∧ isUser u = true
        ∧ Variant2.useMessageCorrelation log pendingMessages !! messageKey a i =
            Some (replyData (userNumber log j) (messageKey u j))
  | None =>
      replyLink (Variant2.useMessageCorrelation log pendingMessages)
        (messageKey a i) = None
  end.
Proof.
  intros Hkeys Hi Ha.
  pose proof (secondPass_spec log Hkeys i a Hi Ha) as Hm.
  unfold bound_as_specified in Hm. rewrite useMessageCorrelation_passes.
  destruct (oldestUnanswered log i) as [j|] eqn:Hj.
  - apply oldestUnanswered_fresh in Hj as (Hlt & Hu & _).
    apply isUserAt_true in Hu as (u & Hju & Hu).
    exists u. split_and!; [done..|].
    apply pendingPass_keeps. rewrite Hm. unfold keyAt. by rewrite Hju.
  - by rewrite pendingPass_replyLink.
Qed.

(** C1, as stated, fails.  First log: one non-system assistant message and one
    user message, so the counts allow a binding, but the assistant message
    comes first and stays unlinked.  Second log: two replies carry the same
    id, and the entry under that id links to the second question, which is
    not the oldest unanswered one when the first reply arrives. *)
Lemma count_condition_counterexample :
  (let log :=
     [mkMessage assistant "Welcome to ElectroMart!" "t0" (Some orchestrator)
        None None;
      mkMessage user "Where is my order?" "t1" None None (Some "m1")] in
   length (filter (λ m, isReply m = true) log)
     ≤ length (filter (λ m, isUser m = true) log)
   ∧ Variant2.useMessageCorrelation log [] !! KeyIndex 0 = None)
  ∧ (let log :=
       [mkMessage user "Where is my order?" "t1" None None (Some "m1");
        mkMessage user "And my refund?" "t2" None None (Some "m2");
        mkMessage assistant "It ships" "t3" (Some logistics) None (Some "r");
        mkMessage assistant "tomorrow." "t4" (Some logistics) None (Some "r")]
     in
     oldestUnanswered log 2 = Some 0
     ∧ replyLink (Variant2.useMessageCorrelation log []) (KeyId "r") =
         Some (KeyId "m2")).
Proof. vm_compute. repeat split; lia. Qed.

(** C1, amended.  Take a log in which two messages written under one key are
    always a user message and a later non-system assistant message (so user
    messages have keys of their own, and so have non-system assistant
    messages).  The correlation binds each assistant message whose agent tag
    is not the system tag to the oldest user message that precedes it and is
    not yet bound to an earlier assistant message: the record under its key
    carries that user message's key and number.  When there is no such user
    message its key gets no reply link.  If moreover every prefix of the log
    holds at most as many such assistant messages as user messages, every one
    of them is bound, and no two of them to the same user message. *)
Theorem fifo_matching log pendingMessages :
  keysFresh log →
  (∀ i a, log !! i = Some a → isReply a = true →
     match oldestUnanswered log i with
     | Some j =>
         ∃ u, j < i ∧ log !! j = Some u ∧ isUser u = true
           ∧ Variant2.useMessageCorrelation log pendingMessages
               !! messageKey a i =
               Some (replyData (userNumber log j) (messageKey u j))
     | None =>
         replyLink (Variant2.useMessageCorrelation log pendingMessages)
           (messageKey a i) = None
     end)
  ∧ (balanced log →
     (∀ i a, log !! i = Some a → isReply a = true →
        ∃ j u, j < i ∧ log !! j = Some u ∧ isUser u = true
          ∧ Variant2.useMessageCorrelation log pendingMessages
              !! messageKey a i =
              Some (replyData (userNumber log j) (messageKey u j)))
     ∧ (∀ i i' a a', log !! i = Some a → log !! i' = Some a' →
          isReply a = true → isReply a' = true →
          replyLink (Variant2.useMessageCorrelation log pendingMessages)
            (messageKey a i) =
          replyLink (Variant2.useMessageCorrelation log pendingMessages)
            (messageKey a' i') →
          i = i')).
Proof.
  intros Hkeys. split.
  { intros i a. by apply useMessageCorrelation_reply. }
  intros Hbal.
  assert (Hbound : ∀ i a, log !! i = Some a → isReply a = true →
            ∃ j u, oldestUnanswered log i = Some j ∧ j < i
              ∧ log !! j = Some u ∧ isUser u = true
              ∧ Variant2.useMessageCorrelation log pendingMessages
                  !! messageKey a i =
                  Some (replyData (userNumber log j) (messageKey u j))).
  { intros i a Hi Ha.
    pose proof (useMessageCorrelation_reply log pendingMessages i a Hkeys Hi Ha)
      as Hrec.
    destruct (balanced_oldestUnanswered log i a Hbal Hi Ha) as [j Hj].
    rewrite Hj in Hrec. destruct Hrec as (u & ?). exists j, u. by split. }
  split.
  - intros i a Hi Ha.
    destruct (Hbound i a Hi Ha) as (j & u & _ & ?). by exists j, u.
  - intros i i' a a' Hi Hi' Ha Ha' Hlink.
    destruct (Hbound i a Hi Ha) as (j & u & Hj & _ & Hju & Hu & Hrec).
    destruct (Hbound i' a' Hi' Ha') as (j' & u' & Hj' & _ & Hju' & Hu' & Hrec').
    unfold replyLink in Hlink. rewrite Hrec, Hrec' in Hlink.
    cbn in Hlink. injection Hlink as Hlink.
    pose proof (keysFresh_users log Hkeys j j' u u' Hju Hju' Hu Hu' Hlink) as <-.
    apply (oldestUnanswered_inj log i i' j); [| |done..].
    + by rewrite (isReplyAt_lookup log i a Hi).
    + by rewrite (isReplyAt_lookup log i' a' Hi').
Qed.

Lemma demoConversation_keysFresh : keysFresh demoConversation.
Proof.
  intros i j a b Hi Hj _ _ Heq Hlt.
  destruct i as [|[|[|[|i]]]]; try done;
    destruct j as [|[|[|[|j]]]]; try done; try lia;
    injection Hi as <-; injection Hj as <-;
    vm_compute in Heq; try discriminate; by split.
Qed.

Lemma demoConversation_balanced : balanced demoConversation.
Proof.
  intros n Hn. do 5 (destruct n as [|n]; [vm_compute; lia |]).
  simpl in Hn. lia.
Qed.

Lemma fifo_matching_witness :
  Variant2.useMessageCorrelation demoConversation [] !! KeyId "m2" =
    Some (replyData 1 (KeyId "m1"))
  ∧ ∃ j u, j < 3 ∧ demoConversation !! j = Some u ∧ isUser u = true
      ∧ Variant2.useMessageCorrelation demoConversation [] !! KeyId "m1" =
          Some (replyData (userNumber demoConversation j) (messageKey u j)).
Proof.
  destruct (fifo_matching demoConversation [] demoConversation_keysFresh)
    as [Heach Hall].
  split.
  - pose proof (Heach 2 _ eq_refl eq_refl) as H.
    assert (Ho : oldestUnanswered demoConversation 2 = Some 0)
      by (vm_compute; reflexivity).
    rewrite Ho in H. destruct H as (u & _ & Hu & _ & Hrec).
    vm_compute in Hu. injection Hu as <-. exact Hrec.
  - destruct (Hall demoConversation_balanced) as [Hbound _].
    exact (Hbound 3 _ eq_refl eq_refl).
Defined.

(** ** Numbers under append *)

Lemma numberUser_keeps l base m c k :
  is_Some (m !! k) →
  is_Some ((forEach_from numberUser base l (m, c)).1 !! k).
Proof.
  revert base m c. induction l as [|x l IH]; intros base m c Hk; [done |].
  cbn [forEach_from]. destruct (isUser x) eqn:Hu.
  - rewrite numberUser_user by done. apply IH.
    apply lookup_insert_is_Some'. by right.
  - rewrite numberUser_other by done. by apply IH.
Qed.

Lemma firstPass_has_user log j x :
  log !! j = Some x → isUser x = true →
  is_Some ((firstPass log).1 !! messageKey x j).
Proof.
  intros Hj Hu. unfold firstPass, forEach.
  rewrite <- (take_drop_middle log j x Hj), forEach_from_app.
  cbn [forEach_from Nat.add].
  rewrite length_take_le by (apply lookup_lt_Some in Hj; lia).
  destruct (forEach_from numberUser 0 (take j log) (∅, 0)) as [m c].
  rewrite numberUser_user by done. apply numberUser_keeps.
  apply lookup_insert_is_Some'. by left.
Qed.

Lemma matchReply_keeps l base m q k :
  is_Some (m !! k) →
  is_Some ((forEach_from Variant2.matchReply base l (m, q)).1 !! k).
Proof.
  revert base m q. induction l as [|x l IH]; intros base m q Hk; [done |].
  cbn [forEach_from].
  destruct (message_kind x) as [Hu|[Hr|[Hu Hr]]].
  - rewrite matchReply_user by done.
    destruct (m !! messageKey x base); by apply IH.
  - rewrite matchReply_reply by done.
    destruct q as [|matched rest]; [by apply IH |].
    apply IH. apply lookup_insert_is_Some'. by right.
  - rewrite matchReply_notice by done. by apply IH.
Qed.

(** The specification's queue at a position depends on the messages before
    that position only. *)
Lemma unansweredBefore_app L E n bound :
  n ≤ length L →
  unansweredBefore (L ++ E) n bound = unansweredBefore L n bound.
Proof.
  induction n as [|n IH]; [done |]. intros Hn.
  assert (Hsame : isUserAt (L ++ E) n = isUserAt L n).
  { unfold isUserAt. by rewrite lookup_app_l by lia. }
  unfold unansweredBefore in *. rewrite seq_S, !filter_app, IH by lia.
  f_equal. cbn [Nat.add]. rewrite !filter_cons, Hsame. by repeat case_decide.
Qed.

Lemma bindingsBefore_app L E n :
  n ≤ length L → bindingsBefore (L ++ E) n = bindingsBefore L n.
Proof.
  induction n as [|n IH]; [done |]. intros Hn.
  cbn [bindingsBefore]. rewrite IH by lia.
  rewrite unansweredBefore_app by lia.
  unfold isReplyAt. by rewrite lookup_app_l by lia.
Qed.

Lemma oldestUnanswered_app L E n :
  n ≤ length L → oldestUnanswered (L ++ E) n = oldestUnanswered L n.
Proof.
  intros Hn. unfold oldestUnanswered.
  by rewrite bindingsBefore_app, unansweredBefore_app.
Qed.

Lemma keyAt_app L E i : i < length L → keyAt (L ++ E) i = keyAt L i.
Proof. intros Hlt. unfold keyAt. by rewrite lookup_app_l. Qed.

Lemma keyOwnOrEchoed_prefix L E i :
  i < length L → keyOwnOrEchoed (L ++ E) i → keyOwnOrEchoed L i.
Proof.
  intros Hlt Hkey j m Hj Hne Hw Heq.
  assert (Hjlt : j < length L) by by eapply lookup_lt_Some.
  destruct (Hkey j m) as [Hr Hbound]; [by apply lookup_app_l_Some | done..| |].
  { by rewrite keyAt_app. }
  split; [done |]. by rewrite oldestUnanswered_app in Hbound by lia.
Qed.

Lemma keyUnshared_keyOwnOrEchoed log i : keyUnshared log i → keyOwnOrEchoed log i.
Proof. intros Hkey j m Hj Hne Hw Heq. by destruct (Hkey j m). Qed.

Section own_or_echoed.
Context (log : list Message) (i : nat) (u : Message).
Context (Hi : log !! i = Some u) (Hu : isUser u = true).
Context (Hkey : keyOwnOrEchoed log i).

Lemma keyAt_own : keyAt log i = messageKey u i.
Proof. unfold keyAt. by rewrite Hi. Qed.

(** When the loop reaches it, every user message has a record. *)
Lemma matchedUpTo_has_user n j x :
  log !! j = Some x → isUser x = true →
  is_Some ((matchedUpTo log n).1 !! messageKey x j).
Proof.
  intros Hj Hx. unfold matchedUpTo, forEach.
  apply matchReply_keeps. by apply firstPass_has_user.
Qed.

(** All through the matching loop the number under the key is the number of
    the user message, and the entry that the loop's queue holds for the user
    message carries its key and its number. *)
Lemma matchedUpTo_own n :
  n ≤ length log →
  numberUnder (matchedUpTo log n).1 (messageKey u i) = Some (userNumber log i)
  ∧ Forall2
      (λ question position,
         position = i →
         question = Variant2.mkQuestion (messageKey u i) (userNumber log i))
      (matchedUpTo log n).2 (queueBefore log n).
Proof.
  induction n as [|n IH]; intros Hn.
  { split; [|by constructor].
    unfold numberUnder, matchedUpTo, forEach. rewrite take_0.
    cbn [forEach_from fst].
    rewrite (firstPass_user log i u Hi Hu); [done |].
    intros j x Hj Hlt Hx Heq. rewrite <- keyAt_own in Heq.
    destruct (Hkey j x Hj) as [Hr _]; [lia | by apply writes_user | done |].
    apply isReply_not_user in Hr. congruence. }
  destruct IH as [IHm IHq]; [lia |].
  destruct (lookup_lt_is_Some_2 log n) as [x Hx]; [lia |].
  rewrite (matchedUpTo_S log n x Hx).
  pose proof (matchedUpTo_has_user n n x Hx) as Hhas.
  destruct (matchedUpTo log n) as [m q]. cbn [fst snd] in *.
  destruct (message_kind x) as [Hux|[Hrx|[Hux Hrx]]].
  - rewrite matchReply_user by done.
    destruct (Hhas Hux) as [d Hd]. rewrite Hd. cbn [fst snd].
    destruct (queue_step_user log n x Hx Hux) as [_ ->].
    split; [done |]. apply Forall2_app; [done |].
    constructor; [|constructor]. intros ->.
    rewrite Hi in Hx. injection Hx as <-.
    unfold numberUnder in IHm. rewrite Hd in IHm. injection IHm as ->. done.
  - rewrite matchReply_reply by done.
    pose proof (queue_step_reply log n x Hx Hrx) as Hstep.
    assert (Hhead : oldestUnanswered log n = head (queueBefore log n)) by done.
    destruct IHq as [|matched j rest positions Hmatched Hrest].
    + destruct Hstep as [_ ->]. split; [done | constructor].
    + destruct Hstep as [_ ->]. cbn [fst snd]. split; [|done].
      unfold numberUnder in *.
      destruct (decide (messageKey x n = messageKey u i)) as [Heq|Hne].
      * rewrite Heq, lookup_insert_eq. cbn [fmap option_fmap option_map].
        destruct (Hkey n x Hx) as [_ Hbound].
        { intros ->. rewrite Hi in Hx. injection Hx as <-.
          apply isReply_not_user in Hrx. congruence. }
        { by apply writes_reply. }
        { by rewrite keyAt_own. }
        rewrite Hhead in Hbound. injection Hbound as ->.
        by rewrite (Hmatched eq_refl).
      * by rewrite lookup_insert_ne.
  - rewrite matchReply_notice by done.
    destruct (queue_step_notice log n x Hx Hux Hrx) as [_ ->]. done.
Qed.

Lemma useMessageCorrelation_own pendingMessages :
  numberUnder (Variant2.useMessageCorrelation log pendingMessages)
    (messageKey u i) = Some (userNumber log i).
Proof.
  destruct (matchedUpTo_own (length log)) as [Hnumber _]; [done |].
  unfold matchedUpTo in Hnumber. rewrite firstn_all in Hnumber.
  unfold numberUnder in *. rewrite useMessageCorrelation_passes.
  fold (secondPass log (firstPass log).1) in Hnumber.
  destruct ((secondPass log (firstPass log).1).1 !! messageKey u i)
    as [d|] eqn:Hd; [|done].
  by rewrite (pendingPass_keeps pendingMessages _ _ _ d Hd).
Qed.
End own_or_echoed.

(** C3, as stated, fails: a reply that carries the id of a user message takes
    over that message's entry, with the number of the question it was matched
    to. *)
Lemma appended_reply_renumbers_counterexample :
  let L := [mkMessage user "Where is my order?" "t1" None None (Some "m1");
            mkMessage user "And my refund?" "t2" None None (Some "m2")] in
  let E := [mkMessage assistant "Refund issued." "t3" (Some support) None
              (Some "m2")] in
  CorrelationData.correlationNumber <$>
    (Variant2.useMessageCorrelation L [] !! KeyId "m2") = Some 2
  ∧ CorrelationData.correlationNumber <$>
      (Variant2.useMessageCorrelation (L ++ E) [] !! KeyId "m2") = Some 1.
Proof. vm_compute. split; reflexivity. Qed.

(** Without the condition on the key the number found is another one: of two
    user messages with one id, the entry shows the number of the later. *)
Example shared_user_id_shows_later_number :
  numberUnder
    (Variant2.useMessageCorrelation
       (demoQuestion
          ++ [mkMessage user "Any news?" "t3" None None (Some "m1")]) [])
    (KeyId "m1") = Some 2.
Proof. reflexivity. Qed.

(** C3, amended.  For a log [L], an extension [E] and a pending map, take a
    user message of [L] whose key is the key of no other user message of
    [L ++ E], and of a non-system assistant message only if that message is
    the reply bound to it.  The number found under its key is the count of
    user messages up to it, so that these numbers run from 1 to the number
    of user messages, strictly increasing in log order; and it is the same in
    the correlation of [L] and in that of [L ++ E].  When no other user
    message and no non-system assistant message has the key at all, the
    whole record is the same. *)
Theorem user_numbers_stable_under_append L E pendingMessages i u :
  L !! i = Some u → role u = user → keyOwnOrEchoed (L ++ E) i →
  numberUnder (Variant2.useMessageCorrelation L pendingMessages)
    (messageKey u i) = Some (userNumber L i)
  ∧ numberUnder (Variant2.useMessageCorrelation (L ++ E) pendingMessages)
      (messageKey u i) = Some (userNumber L i)
  ∧ 1 ≤ userNumber L i ≤ length (filter (λ x, isUser x = true) L)
  ∧ (∀ j v, L !! j = Some v → role v = user → i < j →
       userNumber L i < userNumber L j)
  ∧ (keyUnshared (L ++ E) i →
     Variant2.useMessageCorrelation L pendingMessages !! messageKey u i =
       Some (userData (userNumber L i))
     ∧ Variant2.useMessageCorrelation (L ++ E) pendingMessages
         !! messageKey u i = Some (userData (userNumber L i))).
Proof.
  intros Hi Hrole%isUser_true Hkey.
  assert (Hlt : i < length L) by by eapply lookup_lt_Some.
  split; [|split; [|split; [|split]]].
  - apply useMessageCorrelation_own; [done..|]. by eapply keyOwnOrEchoed_prefix.
  - rewrite <- (userNumber_app L E i Hlt).
    apply useMessageCorrelation_own; [|done..]. by apply lookup_app_l_Some.
  - by eapply userNumber_bounds.
  - intros j v Hj Hv%isUser_true Hij. by eapply userNumber_increasing.
  - intros Hunshared. split.
    + apply useMessageCorrelation_user; [done..|]. by eapply keyUnshared_prefix.
    + rewrite <- (userNumber_app L E i Hlt).
      apply useMessageCorrelation_user; [|done..]. by apply lookup_app_l_Some.
Qed.

Lemma user_numbers_stable_under_append_witness :
  numberUnder (Variant2.useMessageCorrelation demoQuestion []) (KeyId "m1") =
    Some 1
  ∧ numberUnder (Variant2.useMessageCorrelation (demoQuestion ++ demoEcho) [])
      (KeyId "m1") = Some 1.
Proof.
  destruct (user_numbers_stable_under_append demoQuestion demoEcho [] 0
              (mkMessage user "Where is my order?" "t1" None None (Some "m1")))
    as (HL & HLE & _); [reflexivity | reflexivity | | by split].
  intros j m Hj Hne Hw Hk.
  destruct j as [|[|j]]; [done | | done].
  injection Hj as <-. split; reflexivity.
Defined.

(** ** The two versions of the hook *)

(** C10, as stated, fails: with two questions in flight the earlier version
    links the reply to the last question, the later version to the first. *)
Lemma versions_differ_counterexample :
  Variant1.useMessageCorrelation
    [mkMessage user "Where is my order?" "t1" None None (Some "m1");
     mkMessage user "And my refund?" "t2" None None (Some "m2");
     mkMessage assistant "It ships tomorrow." "t3" (Some logistics) None
       (Some "r1")] []
  ≠ Variant2.useMessageCorrelation
      [mkMessage user "Where is my order?" "t1" None None (Some "m1");
       mkMessage user "And my refund?" "t2" None None (Some "m2");
       mkMessage assistant "It ships tomorrow." "t3" (Some logistics) None
         (Some "r1")] [].
Proof.
  intros Heq. apply (f_equal (λ m, replyLink m (KeyId "r1"))) in Heq.
  vm_compute in Heq. discriminate.
Qed.

Lemma truthy_messageKey u i :
  messageKey u i ≠ KeyIndex 0 → Variant1.truthy (Some (messageKey u i)) = true.
Proof.
  unfold messageKey. destruct (message_id u) as [id|].
  - case_decide as Hid; [by destruct i |].
    intros _. cbn. by apply bool_decide_eq_true.
  - by destruct i.
Qed.

Lemma linkReply_user m last x i d :
  isUser x = true → m !! messageKey x i = Some d →
  Variant1.linkReply (m, last) x i =
    (m, Variant1.mkLast (Some (messageKey x i))
          (CorrelationData.correlationNumber d)).
Proof.
  intros Hu%isUser_true Hd. unfold Variant1.linkReply. by rewrite Hu, Hd.
Qed.

Lemma linkReply_user_map st x i :
  isUser x = true → (Variant1.linkReply st x i).1 = st.1.
Proof.
  intros Hu%isUser_true. destruct st as [m last].
  unfold Variant1.linkReply. rewrite Hu.
  by destruct (m !! messageKey x i).
Qed.

Lemma linkReply_assistant m k number x i :
  role x = assistant → Variant1.truthy (Some k) = true →
  Variant1.linkReply (m, Variant1.mkLast (Some k) number) x i =
    (<[messageKey x i := replyData number k]> m,
     Variant1.mkLast (Some k) number).
Proof.
  intros Hrole Hk. unfold Variant1.linkReply. rewrite Hrole.
  cbn [Variant1.lastUserMessageId Variant1.lastUserCorrelationNumber].
  by rewrite Hk.
Qed.

Lemma matchReply_user_map st x i :
  isUser x = true → (Variant2.matchReply st x i).1 = st.1.
Proof.
  intros Hu. destruct st as [m q]. rewrite matchReply_user by done.
  by destruct (m !! messageKey x i).
Qed.

(** On alternating turns the two matching loops write the same records. *)
Lemma alternating_second_pass i l m last :
  alternating i l →
  (∀ j x, l !! j = Some x → isUser x = true →
     is_Some (m !! messageKey x (i + j))) →
  (forEach_from Variant1.linkReply i l (m, last)).1 =
    (forEach_from Variant2.matchReply i l (m, [])).1.
Proof.
  intros Halt. revert m last.
  induction Halt as [i|i u Hu|i u a l Hu Ha Hkey Halt IH]; intros m last Hdom.
  - done.
  - cbn [forEach_from]. by rewrite linkReply_user_map, matchReply_user_map.
  - destruct (Hdom 0 u eq_refl Hu) as [d Hd]. rewrite Nat.add_0_r in Hd.
    cbn [forEach_from].
    rewrite (linkReply_user m last u i d Hu Hd).
    rewrite matchReply_user, Hd by done. cbn [app].
    apply isReply_true in Ha as Ha'. destruct Ha' as [Hrole _].
    rewrite linkReply_assistant by (done || by apply truthy_messageKey).
    rewrite matchReply_reply by done.
    cbn [Variant2.id Variant2.correlationNumber].
    apply IH. intros j x Hx Hux.
    apply lookup_insert_is_Some'. right.
    replace (i + 1 + 1 + j) with (i + S (S j)) by lia.
    by apply Hdom.
Qed.

(** C10, amended.  The two versions of [useMessageCorrelation] compute the
    same map, for every pending map, on every log of strictly alternating
    turns (each user message followed by exactly one non-system assistant
    message before the next user message, the last question possibly still
    open, the user message of an answered turn having an id or not being the
    first message of the log). *)
Theorem versions_agree_on_alternating_turns log pendingMessages :
  alternating 0 log →
  Variant1.useMessageCorrelation log pendingMessages =
    Variant2.useMessageCorrelation log pendingMessages.
Proof.
  intros Halt.
  unfold Variant1.useMessageCorrelation, Variant2.useMessageCorrelation.
  pose proof (firstPass_has_user log) as Hdom. unfold firstPass in Hdom.
  destruct (forEach numberUser log (∅, 0)) as [m c]. cbn [fst] in Hdom.
  pose proof (alternating_second_pass 0 log m (Variant1.mkLast None 0) Halt)
    as Hsame.
  unfold forEach.
  destruct (forEach_from Variant1.linkReply 0 log (m, Variant1.mkLast None 0))
    as [m1 last1].
  destruct (forEach_from Variant2.matchReply 0 log (m, [])) as [m2 q2].
  cbn [fst] in Hsame. rewrite Hsame; [done |].
  intros j x Hj Hu. by apply Hdom.
Qed.

Lemma versions_agree_on_alternating_turns_witness :
  Variant1.useMessageCorrelation demoTurns [] =
    Variant2.useMessageCorrelation demoTurns [].
Proof.
  apply versions_agree_on_alternating_turns.
  apply alternating_turn; [reflexivity | reflexivity | discriminate |].
  apply alternating_open. reflexivity.
Defined.

(** * Further properties of the correlation engine *)

(** ** The palette *)

Lemma getCorrelationColor_defined n : 1 ≤ n → is_Some (getCorrelationColor n).
Proof.
  intros Hn. unfold getCorrelationColor, MESSAGE_CORRELATION.COLORS.
  cbn [length].
  assert (Hrem : (0 ≤ Z.rem (Z.of_nat n - 1) 6 < 6)%Z).
  { rewrite Z.rem_mod_nonneg by lia. apply Z.mod_pos_bound. lia. }
  destruct (Z.ltb_spec (Z.rem (Z.of_nat n - 1) (Z.of_nat 6)) 0) as [Hneg|_];
    [lia |].
  apply lookup_lt_is_Some. cbn [length]. lia.
Qed.

(** X1. For every number from 1 on, [getCorrelationColor] returns a colour of
    the palette, and the colours repeat with the length of the palette; for
    the number 0 the index is negative and the result is undefined. *)
Theorem getCorrelationColor_cycles n :
  1 ≤ n →
  is_Some (getCorrelationColor n)
  ∧ getCorrelationColor (n + length MESSAGE_CORRELATION.COLORS) =
      getCorrelationColor n
  ∧ getCorrelationColor 0 = None.
Proof.
  intros Hn. split; [by apply getCorrelationColor_defined |]. split; [|done].
  unfold getCorrelationColor, MESSAGE_CORRELATION.COLORS. cbn [length].
  replace (Z.of_nat (n + 6) - 1)%Z with (Z.of_nat n - 1 + 1 * Z.of_nat 6)%Z
    by lia.
  rewrite !Z.rem_mod_nonneg by lia.
  by rewrite Z_mod_plus_full.
Qed.

Lemma getCorrelationColor_cycles_witness :
  getCorrelationColor 7 = Some "#1976d2" ∧ getCorrelationColor 1 = Some "#1976d2".
Proof.
  destruct (getCorrelationColor_cycles 1) as (_ & Hcycle & _); [lia |].
  split; [|reflexivity]. exact Hcycle.
Defined.

(** ** Every record is sound *)

Lemma soundRecord_weaken b b' d : b ≤ b' → soundRecord b d → soundRecord b' d.
Proof. unfold soundRecord. intros Hle [Hc Hn]. split; [done | lia]. Qed.

Lemma numberUser_sound bound l base m c :
  c + userCount l ≤ bound →
  map_Forall (λ _, soundRecord bound) m →
  map_Forall (λ _, soundRecord bound) (forEach_from numberUser base l (m, c)).1.
Proof.
  unfold userCount. revert base m c.
  induction l as [|x l IH]; intros base m c Hc Hm; [done |].
  cbn [forEach_from]. rewrite filter_cons in Hc.
  destruct (isUser x) eqn:Hu.
  - rewrite decide_True in Hc by done. cbn [length] in Hc.
    rewrite numberUser_user by done. apply IH; [lia |].
    apply map_Forall_insert_2; [|done].
    split; [done | cbn; lia].
  - rewrite decide_False in Hc by done.
    rewrite numberUser_other by done. by apply IH.
Qed.

Lemma matchReply_sound bound l base m q :
  map_Forall (λ _, soundRecord bound) m → Forall (soundQuestion bound) q →
  map_Forall (λ _, soundRecord bound)
    (forEach_from Variant2.matchReply base l (m, q)).1.
Proof.
  revert base m q. induction l as [|x l IH]; intros base m q Hm Hq; [done |].
  cbn [forEach_from].
  destruct (message_kind x) as [Hu|[Hr|[Hu Hr]]].
  - rewrite matchReply_user by done.
    destruct (m !! messageKey x base) as [d|] eqn:Hd; [|by apply IH].
    apply IH; [done |]. apply Forall_app. split; [done |].
    apply Forall_singleton. apply Hm in Hd. by destruct Hd.
  - rewrite matchReply_reply by done.
    destruct q as [|matched rest]; [by apply IH |].
    apply Forall_cons in Hq as [Hmatched Hrest].
    apply IH; [|done]. apply map_Forall_insert_2; [|done]. by split.
  - rewrite matchReply_notice by done. by apply IH.
Qed.

Lemma pendingPass_sound bound pendingMessages m c :
  c + length pendingMessages ≤ bound →
  map_Forall (λ _, soundRecord bound) m →
  map_Forall (λ _, soundRecord bound) (pendingPass pendingMessages (m, c)).1.
Proof.
  unfold pendingPass. revert m c.
  induction pendingMessages as [|[id p] l IH]; intros m c Hc Hm; [done |].
  cbn [foldl length] in *. unfold addPending at 2.
  destruct (m !! KeyId id); [apply IH; [lia | done] |].
  apply IH; [lia |]. apply map_Forall_insert_2; [|done].
  split; [done | cbn; lia].
Qed.

Lemma firstPass_counter log : (firstPass log).2 = userCount log.
Proof. unfold firstPass, forEach. by rewrite numberUser_counter. Qed.

(** X2. Every record of the map that [useMessageCorrelation] returns carries
    the palette colour of its own number, a defined one, and its number lies
    between 1 and the number of user messages plus the size of the pending
    map. *)
Theorem correlation_records_sound log pendingMessages k d :
  Variant2.useMessageCorrelation log pendingMessages !! k = Some d →
  CorrelationData.color d =
    getCorrelationColor (CorrelationData.correlationNumber d)
  ∧ is_Some (CorrelationData.color d)
  ∧ 1 ≤ CorrelationData.correlationNumber d
      ≤ userCount log + JsMap.size pendingMessages.
Proof.
  rewrite useMessageCorrelation_passes, firstPass_counter. intros Hk.
  set (bound := userCount log + JsMap.size pendingMessages).
  assert (Hsound : soundRecord bound d).
  { revert Hk. apply (pendingPass_sound bound); [done |].
    apply matchReply_sound; [|done].
    apply numberUser_sound; [lia | apply map_Forall_empty]. }
  destruct Hsound as [Hc Hn]. split; [done |]. split; [|done].
  rewrite Hc. apply getCorrelationColor_defined. lia.
Qed.

Lemma correlation_records_sound_witness :
  Variant2.useMessageCorrelation demoLog [] !! KeyId "m2" = Some (userData 2)
  ∧ is_Some (CorrelationData.color (userData 2)).
Proof.
  split; [reflexivity |].
  exact (proj1 (proj2 (correlation_records_sound demoLog [] (KeyId "m2")
                         (userData 2) eq_refl))).
Defined.

(** ** The pending pass *)

Lemma pendingPass_has pendingMessages m c id :
  id ∈ JsMap.keys pendingMessages →
  is_Some ((pendingPass pendingMessages (m, c)).1 !! KeyId id).
Proof.
  unfold pendingPass, JsMap.keys. revert m c.
  induction pendingMessages as [|[id' p] l IH]; intros m c Hin.
  { by apply elem_of_nil in Hin. }
  rewrite fmap_cons in Hin. cbn [fst] in Hin. cbn [foldl].
  unfold addPending at 2.
  apply elem_of_cons in Hin as [->|Hin].
  - destruct (m !! KeyId id') as [d|] eqn:Hd.
    + exists d. by apply pendingPass_keeps.
    + eexists. apply pendingPass_keeps. apply lookup_insert_eq.
  - destruct (m !! KeyId id'); by apply IH.
Qed.


(** X3. Every id of the pending map has a record in the returned map,
    whatever the log holds. *)
Theorem pending_ids_have_records log pendingMessages id :
  id ∈ JsMap.keys pendingMessages →
  is_Some (Variant2.useMessageCorrelation log pendingMessages !! KeyId id).
Proof.
  intros Hin. rewrite useMessageCorrelation_passes. by apply pendingPass_has.
Qed.

Lemma pending_ids_have_records_witness :
  is_Some
    (Variant2.useMessageCorrelation demoLog
       [("temp_1", PendingMessage.mk "Hello" sending 0 false None)]
       !! KeyId "temp_1").
Proof.
  apply pending_ids_have_records. unfold JsMap.keys. cbn. by left.
Defined.

(** X4. The pending map never changes a record that the log gives: whatever
    is found under a key with an empty pending map is found there, unchanged,
    with any pending map. *)
Theorem pending_map_keeps_log_records log pendingMessages k d :
  Variant2.useMessageCorrelation log [] !! k = Some d →
  Variant2.useMessageCorrelation log pendingMessages !! k = Some d.
Proof.
  rewrite !useMessageCorrelation_passes. intros Hk. by apply pendingPass_keeps.
Qed.

Lemma pending_map_keeps_log_records_witness :
  Variant2.useMessageCorrelation demoLog
    [("m2", PendingMessage.mk "And my refund?" sending 0 false None)]
    !! KeyId "m2" = Some (userData 2).
Proof. apply pending_map_keeps_log_records. reflexivity. Defined.



(** ** Which keys have a record *)

(** X6. Every user message of the log has a record under its key in the
    returned map. *)
Theorem user_messages_have_records log pendingMessages i u :
  log !! i = Some u → role u = user →
  is_Some (Variant2.useMessageCorrelation log pendingMessages !! messageKey u i).
Proof.
  intros Hi Hu%isUser_true. rewrite useMessageCorrelation_passes.
  destruct (matchReply_keeps log 0 (firstPass log).1 [] (messageKey u i))
    as [d Hd]; [by apply firstPass_has_user |].
  exists d. by apply pendingPass_keeps.
Qed.

Lemma user_messages_have_records_witness :
  is_Some (Variant2.useMessageCorrelation demoConversation [] !! KeyId "m1").
Proof.
  exact (user_messages_have_records demoConversation [] 0 _ eq_refl eq_refl).
Defined.

(** X7. The returned map holds nothing else: every key with a record is the
    key of a user message or of a non-system assistant message of the log,
    or an id of the pending map. *)
Theorem correlation_records_have_owners log pendingMessages k d :
  Variant2.useMessageCorrelation log pendingMessages !! k = Some d →
  (∃ i m, log !! i = Some m ∧ writes m = true ∧ messageKey m i = k)
  ∨ (∃ id, id ∈ JsMap.keys pendingMessages ∧ k = KeyId id).
Proof.
  intros Hk.
  destruct (decide (Exists (λ id, k = KeyId id) (JsMap.keys pendingMessages)))
    as [Hp|Hp].
  { right. apply Exists_exists in Hp as (id & Hin & ->). by exists id. }
  left.
  destruct (decide (Exists (λ im, writes im.2 = true ∧ messageKey im.2 im.1 = k)
                      (imap (λ i m, (i, m)) log))) as [Hex|Hnone].
  { apply Exists_exists in Hex as ([i m] & Hin & Hw & Hkey).
    apply list_elem_of_lookup in Hin as [j Hj].
    rewrite list_lookup_imap in Hj.
    destruct (log !! j) as [m'|] eqn:Hm; [|done].
    injection Hj as <- <-. by exists j, m'. }
  exfalso.
  assert (Hfree : ∀ j x, log !! j = Some x → writes x = true →
            messageKey x j ≠ k).
  { intros j x Hj Hw Hkey. apply Hnone, Exists_exists.
    exists (j, x). split; [|done].
    apply list_elem_of_lookup. exists j. by rewrite list_lookup_imap, Hj. }
  revert Hk. rewrite useMessageCorrelation_passes.
  rewrite pendingPass_untouched
    by (intros id Hin <-; apply Hp, Exists_exists; by exists id).
  unfold secondPass, forEach. rewrite matchReply_untouched
    by (intros j x Hj Hr; apply Hfree; [done | by apply writes_reply]).
  unfold firstPass, forEach. rewrite numberUser_untouched
    by (intros j x Hj Hu; apply Hfree; [done | by apply writes_user]).
  done.
Qed.

Lemma correlation_records_have_owners_witness :
  (∃ i m, demoLog !! i = Some m ∧ writes m = true ∧ messageKey m i = KeyId "m2")
  ∨ (∃ id, id ∈ JsMap.keys (V := PendingMessage.t) [] ∧ KeyId "m2" = KeyId id).
Proof.
  exact (correlation_records_have_owners demoLog [] (KeyId "m2") (userData 2)
           eq_refl).
Defined.

(** ** The earlier version: last-question linking *)

Lemma Variant1_passes messages pendingMessages :
  Variant1.useMessageCorrelation messages pendingMessages =
    (pendingPass pendingMessages
       ((forEach Variant1.linkReply messages
           ((firstPass messages).1, Variant1.mkLast None 0)).1,
        (firstPass messages).2)).1.
Proof.
  unfold Variant1.useMessageCorrelation, firstPass.
  destruct (forEach numberUser messages (∅, 0)) as [m c]. cbn [fst snd].
  by destruct (forEach Variant1.linkReply messages (m, Variant1.mkLast None 0)).
Qed.

Lemma distinctKeys_lookup log i j a b :
  distinctKeys log → log !! i = Some a → log !! j = Some b →
  messageKey a i = messageKey b j → i = j.
Proof.
  intros Hnd Hi Hj Hkey.
  apply (NoDup_lookup (keysOf log) i j (messageKey a i)); [done |..];
    unfold keysOf; rewrite list_lookup_imap.
  - by rewrite Hi.
  - by rewrite Hj, Hkey.
Qed.

Lemma linkReply_untouched l base m last k :
  (∀ j x, l !! j = Some x → role x = assistant → messageKey x (base + j) ≠ k) →
  (forEach_from Variant1.linkReply base l (m, last)).1 !! k = m !! k.
Proof.
  revert base m last. induction l as [|x l IH]; intros base m last Hk; [done |].
  cbn [forEach_from].
  assert (Htail : ∀ j y, l !! j = Some y → role y = assistant →
            messageKey y (base + 1 + j) ≠ k).
  { intros j y Hy Hr. specialize (Hk (S j) y Hy Hr).
    by replace (base + 1 + j) with (base + S j) by lia. }
  specialize (Hk 0 x eq_refl). rewrite Nat.add_0_r in Hk.
  unfold Variant1.linkReply at 2. destruct (role x) eqn:Hrole.
  - destruct (m !! messageKey x base); by rewrite IH.
  - destruct (Variant1.lastUserMessageId last) as [lastId|]; [|by rewrite IH].
    destruct (Variant1.truthy (Some lastId)); rewrite IH by done; [|done].
    apply lookup_insert_ne. by apply Hk.
Qed.

Lemma linkReply_assistants l base m k number :
  Forall (λ x, role x = assistant) l →
  (forEach_from Variant1.linkReply base l
     (m, Variant1.mkLast (Some k) number)).2 = Variant1.mkLast (Some k) number.
Proof.
  intros Hl. revert base m.
  induction Hl as [|x l Hx Hl IH]; intros base m; [done |].
  cbn [forEach_from]. unfold Variant1.linkReply at 2. rewrite Hx.
  cbn [Variant1.lastUserMessageId Variant1.lastUserCorrelationNumber].
  destruct (Variant1.truthy (Some k)); apply IH.
Qed.

Lemma linkReply_falsy l base m k number :
  Forall (λ x, role x = assistant) l →
  Variant1.truthy (Some k) = false →
  forEach_from Variant1.linkReply base l (m, Variant1.mkLast (Some k) number) =
    (m, Variant1.mkLast (Some k) number).
Proof.
  intros Hl Hk. revert base.
  induction Hl as [|x l Hx Hl IH]; intros base; [done |].
  cbn [forEach_from]. unfold Variant1.linkReply at 2. rewrite Hx.
  cbn [Variant1.lastUserMessageId]. rewrite Hk. apply IH.
Qed.

Lemma numberUser_assistants l base st :
  Forall (λ x, role x = assistant) l →
  forEach_from numberUser base l st = st.
Proof.
  intros Hl. revert base.
  induction Hl as [|x l Hx Hl IH]; intros base; [done |].
  cbn [forEach_from]. unfold numberUser at 2. destruct st as [m c].
  rewrite Hx. apply IH.
Qed.

(** X8. The earlier version links every assistant message, system notices
    included, to the latest user message before it: in a log whose keys are
    distinct, an assistant message that follows the user message [u] with
    only assistant messages in between gets the number of [u] (one more than
    the number of user messages before [u]) and a link to the key of [u],
    unless [u] is a first message without id. *)
Theorem v1_links_to_latest_user pre u mid a post pendingMessages :
  distinctKeys (pre ++ u :: mid ++ a :: post) →
  role u = user →
  Forall (λ x, role x = assistant) (mid ++ [a]) →
  messageKey u (length pre) ≠ KeyIndex 0 →
  Variant1.useMessageCorrelation (pre ++ u :: mid ++ a :: post) pendingMessages
    !! messageKey a (length pre + 1 + length mid) =
    Some (replyData (userCount pre + 1) (messageKey u (length pre))).
Proof.
  intros Hnd Hu Hmid Htruthy.
  apply Forall_app in Hmid as [Hmid Ha]. rewrite Forall_singleton in Ha.
  set (log := pre ++ u :: mid ++ a :: post) in *.
  assert (Hiu : log !! length pre = Some u) by apply list_lookup_middle, eq_refl.
  assert (Hja : log !! (length pre + 1 + length mid) = Some a).
  { unfold log. rewrite lookup_app_r by lia.
    replace (length pre + 1 + length mid - length pre) with (S (length mid))
      by lia.
    cbn [lookup list_lookup]. by apply list_lookup_middle. }
  assert (Huser : isUser u = true) by by apply isUser_true.
  assert (Hfirst : (firstPass log).1 !! messageKey u (length pre) =
            Some (userData (userCount pre + 1))).
  { rewrite (firstPass_user log (length pre) u Hiu Huser).
    - rewrite (userNumber_eq log (length pre) u Hiu Huser).
      unfold log. rewrite take_app_length. done.
    - intros j x Hj Hlt _ Hkey.
      pose proof (distinctKeys_lookup log j (length pre) x u Hnd Hj Hiu Hkey).
      lia. }
  rewrite Variant1_passes. apply pendingPass_keeps.
  unfold forEach, log.
  rewrite forEach_from_app. cbn [forEach_from Nat.add].
  destruct (forEach_from Variant1.linkReply 0 pre
              ((firstPass (pre ++ u :: mid ++ a :: post)).1,
               Variant1.mkLast None 0)) as [m1 last1] eqn:Hpre.
  assert (Hm1 : m1 !! messageKey u (length pre) =
            Some (userData (userCount pre + 1))).
  { rewrite <- Hfirst. change m1 with (m1, last1).1. rewrite <- Hpre.
    apply linkReply_untouched. intros j x Hj _ Hkey. cbn [Nat.add] in Hkey.
    assert (Hjl : log !! j = Some x) by by apply lookup_app_l_Some.
    pose proof (distinctKeys_lookup log j (length pre) x u Hnd Hjl Hiu Hkey).
    apply lookup_lt_Some in Hj. lia. }
  rewrite (linkReply_user m1 last1 u (length pre) _ Huser Hm1).
  cbn [CorrelationData.correlationNumber userData].
  rewrite forEach_from_app. cbn [forEach_from].
  pose proof (linkReply_assistants mid (length pre + 1) m1
                (messageKey u (length pre)) (userCount pre + 1) Hmid) as Hlast.
  destruct (forEach_from Variant1.linkReply (length pre + 1) mid
              (m1, Variant1.mkLast (Some (messageKey u (length pre)))
                     (userCount pre + 1))) as [m2 last2].
  cbn [snd] in Hlast. subst last2.
  rewrite linkReply_assistant by (done || by apply truthy_messageKey).
  rewrite linkReply_untouched; [apply lookup_insert_eq |].
  intros j x Hj _ Hkey.
  assert (Hjl : log !! (length pre + 1 + length mid + 1 + j) = Some x).
  { assert (Hsplit : log = (pre ++ u :: mid ++ [a]) ++ post).
    { unfold log. rewrite <- !app_assoc. simpl. by rewrite <- app_assoc. }
    assert (Hlen : length (pre ++ u :: mid ++ [a]) =
              length pre + 1 + length mid + 1).
    { rewrite length_app. simpl. rewrite length_app. simpl. lia. }
    rewrite Hsplit, lookup_app_r by lia. rewrite Hlen.
    by replace (length pre + 1 + length mid + 1 + j
                - (length pre + 1 + length mid + 1)) with j by lia. }
  pose proof (distinctKeys_lookup log _ _ x a Hnd Hjl Hja Hkey). lia.
Qed.

Lemma v1_links_to_latest_user_witness :
  Variant1.useMessageCorrelation
    ([mkMessage user "Where is my order?" "t1" None None (Some "m1")]
     ++ mkMessage user "And my refund?" "t2" None None None
     :: [mkMessage assistant "Agent switched" "t3" (Some system) None None]
     ++ mkMessage assistant "It ships tomorrow." "t4" (Some logistics) None
          (Some "r1")
     :: []) []
    !! KeyId "r1" = Some (replyData 2 (KeyIndex 1)).
Proof.
  apply (v1_links_to_latest_user
           [mkMessage user "Where is my order?" "t1" None None (Some "m1")]
           (mkMessage user "And my refund?" "t2" None None None)
           [mkMessage assistant "Agent switched" "t3" (Some system) None None]
           (mkMessage assistant "It ships tomorrow." "t4" (Some logistics) None
              (Some "r1"))
           [] []).
  - apply (bool_decide_unpack _). reflexivity.
  - reflexivity.
  - repeat constructor.
  - discriminate.
Defined.

(** X9. In the earlier version a first user message without id never gets a
    reply linked: its key is the position 0, which the linking loop takes for
    "no question yet", so the assistant messages that follow it leave no
    trace in the map. *)
Theorem v1_first_message_without_id_gets_no_reply u replies pendingMessages :
  role u = user →
  messageKey u 0 = KeyIndex 0 →
  Forall (λ x, role x = assistant) replies →
  Variant1.useMessageCorrelation (u :: replies) pendingMessages =
    Variant1.useMessageCorrelation [u] pendingMessages.
Proof.
  intros Hu Hkey Hreplies. apply isUser_true in Hu as Huser.
  rewrite !Variant1_passes.
  assert (Hfirst : firstPass (u :: replies) = firstPass [u]).
  { unfold firstPass, forEach. cbn [forEach_from].
    by apply numberUser_assistants. }
  rewrite Hfirst. do 3 f_equal.
  unfold forEach. cbn [forEach_from].
  destruct (Variant1.linkReply ((firstPass [u]).1, Variant1.mkLast None 0) u 0)
    as [m last] eqn:Hstep.
  assert (Hlast : ∃ number, last = Variant1.mkLast (Some (KeyIndex 0)) number).
  { revert Hstep. unfold Variant1.linkReply. rewrite Hu, Hkey.
    destruct ((firstPass [u]).1 !! KeyIndex 0); intros [= <- <-]; eauto. }
  destruct Hlast as [number ->].
  by rewrite linkReply_falsy.
Qed.

Lemma v1_first_message_without_id_gets_no_reply_witness :
  Variant1.useMessageCorrelation
    [mkMessage user "Where is my order?" "t1" None None None;
     mkMessage assistant "It ships tomorrow." "t2" (Some logistics) None
       (Some "r1")] []
  = Variant1.useMessageCorrelation
      [mkMessage user "Where is my order?" "t1" None None None] [].
Proof.
  apply v1_first_message_without_id_gets_no_reply;
    [reflexivity | reflexivity | repeat constructor].
Defined.

(** * Further properties of [useSocket] *)

Section useSocket_more.
Context `{!Engine}.

(** ** The log *)

Lemma sendMessage_messages env message s :
  messages (sendMessage env message s) = messages s
  ∨ messages (sendMessage env message s) =
      messages s ++
        userMessage env message ::
        (if decide (notConnected s) then [offlineNotice env] else []).
Proof.
  destruct (decide (trim message = "")) as [Hblank|Hblank].
  { left. by rewrite sendMessage_blank. }
  destruct (decide (throttled env message s)) as [Hthr|Hthr].
  { left. by rewrite sendMessage_throttled. }
  destruct (isSending s) eqn:Hsend.
  { left. by rewrite sendMessage_in_flight. }
  right. by apply sendMessage_accepted_messages.
Qed.

Lemma handle_messages_append ev s :
  keepsLog ev →
  ∃ new, messages (handle ev s) = messages s ++ new
    ∧ length new ≤ 2
    ∧ ∀ m, m ∈ new → role m = user →
        ∃ env message, ev = SendMessage env message ∧ m = userMessage env message.
Proof.
  intros Hev.
  assert (Hnone : ∀ s', messages s' = messages s →
            ∃ new, messages s' = messages s ++ new ∧ length new ≤ 2
              ∧ ∀ m, m ∈ new → role m = user →
                  ∃ env message, ev = SendMessage env message
                    ∧ m = userMessage env message).
  { intros s' ->. exists []. rewrite app_nil_r. split; [done |].
    split; [simpl; lia |]. by intros m Hm%elem_of_nil. }
  assert (Hone : ∀ s' x, role x = assistant →
            messages s' = messages s ++ [x] →
            ∃ new, messages s' = messages s ++ new ∧ length new ≤ 2
              ∧ ∀ m, m ∈ new → role m = user →
                  ∃ env message, ev = SendMessage env message
                    ∧ m = userMessage env message).
  { intros s' x Hx ->. exists [x]. split; [done |]. split; [simpl; lia |].
    intros m ->%list_elem_of_singleton Hm. congruence. }
  destruct ev; cbn [handle]; try done.
  - by apply Hnone.
  - unfold on_connect. state_simpl. case_decide.
    + eapply Hone; [|by state_simpl]. done.
    + by apply Hnone.
  - eapply Hone; [|by unfold on_disconnect; state_simpl]. done.
  - eapply Hone; [|by unfold on_reconnect; state_simpl]. done.
  - by apply Hnone.
  - by apply Hnone.
  - eapply Hone; [|by unfold on_reconnect_failed; state_simpl]. done.
  - by apply Hnone.
  - by apply Hnone.
  - eapply Hone; [|unfold on_response, stopTypingIfIdle, resolvePending;
                    repeat (case_decide || case_match); by state_simpl]. done.
  - apply Hnone. unfold on_typing. by case_match.
  - eapply Hone; [|by unfold on_agent_switch; state_simpl]. done.
  - apply Hnone. unfold on_error, stopTypingIfIdle, resolvePending.
    repeat (case_decide || case_match); by state_simpl.
  - eapply Hone; [|by unfold on_all_messages_cancelled; state_simpl]. done.
  - eapply Hone; [|by unfold on_message_duplicate; state_simpl]. done.
  - destruct (sendMessage_messages env message s) as [Hsame|Hsent];
      [by apply Hnone |].
    eexists. split; [exact Hsent |]. split.
    + case_decide; simpl; lia.
    + intros m Hm Hrole. exists env, message. split; [done |].
      apply elem_of_cons in Hm as [->|Hm]; [done |]. exfalso.
      case_decide; [|by apply elem_of_nil in Hm].
      apply list_elem_of_singleton in Hm as ->. done.
  - apply Hnone. unfold cancelMessage. by case_decide.
  - apply Hnone. unfold cancelAllMessages. by case_decide.
  - apply Hnone. unfold on_timeout. case_decide; [|done]. by destruct t.
Qed.

(** X10. Apart from the message-cancelled confirmation and [clearMessages],
    no event of the hook changes or removes a message of the log: the log
    grows at its end, by at most two messages, and a user message enters it
    only through [sendMessage]. *)
Theorem log_grows_by_appending ev s :
  keepsLog ev →
  ∃ new, messages (step ev s) = messages s ++ new
    ∧ length new ≤ 2
    ∧ ∀ m, m ∈ new → role m = user →
        ∃ env message, ev = SendMessage env message ∧ m = userMessage env message.
Proof. intros Hev. step_fields. by apply handle_messages_append. Qed.

(** ** The transport *)

Lemma handle_emitted ev s :
  (∃ new, emitted (handle ev s) = emitted s ++ new)
  ∧ (¬ mayEmit ev → emitted (handle ev s) = emitted s)
  ∧ (notConnected s → (∀ iso, ev ≠ Connect iso) →
     emitted (handle ev s) = emitted s).
Proof.
  assert (Hsame : ∀ s', emitted s' = emitted s →
            ∃ new, emitted s' = emitted s ++ new).
  { intros s' ->. exists []. by rewrite app_nil_r. }
  destruct ev; cbn [handle mayEmit];
    try (split; [apply Hsame |split; [intros _|intros _ _]];
         unfold_handlers; repeat (case_decide || case_match); by state_simpl).
  - split; [|split; [done | intros _ Hev; by destruct (Hev iso)]].
    unfold on_connect. state_simpl. case_decide; [|by apply Hsame].
    state_simpl. by eexists.
  - split; [|split; [done | intros Hoff _;
                      by apply sendMessage_emitted_offline]].
    unfold sendMessage.
    repeat case_decide; try (by apply Hsame);
      destruct (isSending s); try (by apply Hsame).
    state_simpl. by eexists.
  - split; [|split; [done | intros Hoff _; unfold cancelMessage;
                      by rewrite decide_True]].
    unfold cancelMessage. case_decide; [by apply Hsame |].
    state_simpl. by eexists.
  - split; [|split; [done | intros Hoff _; unfold cancelAllMessages;
                      by rewrite decide_True]].
    unfold cancelAllMessages. case_decide; [by apply Hsame |].
    state_simpl. by eexists.
Qed.

(** X11. What has been handed to the transport is never taken back or
    reordered: every event leaves the earlier emissions as a prefix.  Only
    the connect handler, [sendMessage], [cancelMessage] and
    [cancelAllMessages] emit at all, and while the hook is not connected
    nothing but the connect handler does. *)
Theorem transport_trace_only_grows ev s :
  emitted s `prefix_of` emitted (step ev s)
  ∧ (¬ mayEmit ev → emitted (step ev s) = emitted s)
  ∧ (notConnected s → (∀ iso, ev ≠ Connect iso) →
     emitted (step ev s) = emitted s).
Proof. step_fields. apply handle_emitted. Qed.

(** ** More on insertion-ordered maps *)

Lemma filter_Forall_id {A} (P : A → Prop) `{!∀ x, Decision (P x)} (l : list A) :
  Forall P l → filter P l = l.
Proof.
  induction 1 as [|x l Hx Hl IH]; [done |].
  by rewrite filter_cons_True, IH.
Qed.

Section JsMap_more.
Context {V : Type}.
Implicit Types (m : JsMap.t V) (k : string).

Lemma JsMap_get_None k m : JsMap.get k m = None ↔ k ∉ JsMap.keys m.
Proof.
  unfold JsMap.keys. induction m as [|[k' v'] m IH].
  - split; [intros _; apply not_elem_of_nil | done].
  - cbn [JsMap.get]. rewrite fmap_cons, not_elem_of_cons. cbn [fst].
    destruct (decide (k' = k)) as [->|Hne].
    + split; [done | by intros [? _]].
    + rewrite IH. split; [by intros ? | by intros [_ ?]].
Qed.

Lemma JsMap_has_keys k m : JsMap.has k m = bool_decide (k ∈ JsMap.keys m).
Proof.
  unfold JsMap.has. destruct (JsMap.get k m) eqn:Hget.
  - symmetry. apply bool_decide_eq_true. apply dec_stable.
    intros Hnin%JsMap_get_None. congruence.
  - symmetry. apply bool_decide_eq_false. by apply JsMap_get_None.
Qed.

Lemma JsMap_get_delete_ne k k' m :
  k' ≠ k → JsMap.get k' (JsMap.delete k m) = JsMap.get k' m.
Proof.
  intros Hne. induction m as [|[k0 v0] m IH]; [done |].
  cbn [JsMap.delete JsMap.get]. destruct (decide (k0 = k)) as [->|Hk0].
  - by rewrite decide_False.
  - cbn [JsMap.get]. by rewrite IH.
Qed.

Lemma JsMap_keys_delete k m :
  JsMap.wf m →
  JsMap.keys (JsMap.delete k m) = filter (λ k', k' ≠ k) (JsMap.keys m).
Proof.
  unfold JsMap.wf, JsMap.keys. induction m as [|[k0 v0] m IH]; [done |].
  rewrite fmap_cons. cbn [fst]. intros [Hnin Hnd]%NoDup_cons.
  cbn [JsMap.delete]. rewrite filter_cons.
  destruct (decide (k0 = k)) as [->|Hk0].
  - rewrite decide_False by (by intros ?).
    symmetry. apply filter_Forall_id. rewrite Forall_forall.
    intros x Hx ->. done.
  - rewrite decide_True by done. rewrite fmap_cons. cbn [fst].
    by rewrite IH.
Qed.

Lemma JsMap_delete_fresh k m : k ∉ JsMap.keys m → JsMap.delete k m = m.
Proof.
  unfold JsMap.keys. induction m as [|[k0 v0] m IH]; [done |].
  rewrite fmap_cons, not_elem_of_cons. cbn [fst]. intros [Hne Hnin].
  cbn [JsMap.delete]. rewrite decide_False by done. by rewrite IH.
Qed.

Lemma JsMap_delete_set_fresh k v m :
  k ∉ JsMap.keys m → JsMap.delete k (JsMap.set k v m) = m.
Proof.
  unfold JsMap.keys. induction m as [|[k0 v0] m IH].
  - intros _. cbn [JsMap.set JsMap.delete]. by rewrite decide_True.
  - rewrite fmap_cons, not_elem_of_cons. cbn [fst]. intros [Hne Hnin].
    cbn [JsMap.set]. rewrite decide_False by done.
    cbn [JsMap.delete]. rewrite decide_False by done. by rewrite IH.
Qed.

Lemma JsMap_get_update_eq k f m :
  JsMap.get k (JsMap.update k f m) = f <$> JsMap.get k m.
Proof.
  induction m as [|[k0 v0] m IH]; [done |].
  cbn [JsMap.update JsMap.get]. destruct (decide (k0 = k)) as [->|Hk0].
  - cbn [JsMap.get]. by rewrite decide_True.
  - cbn [JsMap.get]. by rewrite decide_False.
Qed.

Lemma JsMap_get_update_ne k k' f m :
  k' ≠ k → JsMap.get k' (JsMap.update k f m) = JsMap.get k' m.
Proof.
  intros Hne. induction m as [|[k0 v0] m IH]; [done |].
  cbn [JsMap.update JsMap.get]. destruct (decide (k0 = k)) as [->|Hk0].
  - cbn [JsMap.get]. by rewrite !decide_False.
  - cbn [JsMap.get]. by rewrite IH.
Qed.
End JsMap_more.

(** ** Which events change the pending map, and how *)

Lemma sendMessage_pendingMessages env message s :
  pendingMessages (sendMessage env message s) = pendingMessages s
  ∨ (accepted env message s ∧ ¬ notConnected s
     ∧ pendingMessages (sendMessage env message s) =
         JsMap.set (tempMessageId env) (pendingEntry env message)
           (pendingMessages s)).
Proof.
  destruct (decide (trim message = "")) as [Hblank|Hblank].
  { left. by rewrite sendMessage_blank. }
  destruct (decide (throttled env message s)) as [Hthr|Hthr].
  { left. by rewrite sendMessage_throttled. }
  destruct (isSending s) eqn:Hsend.
  { left. by rewrite sendMessage_in_flight. }
  destruct (decide (notConnected s)) as [Hoff|Hon].
  - left. by rewrite sendMessage_accepted_offline.
  - right. split; [done |]. split; [done |].
    by rewrite sendMessage_accepted_online.
Qed.

Lemma handle_pending_keys ev s :
  (∀ env message, ev ≠ SendMessage env message) →
  sublist (JsMap.keys (pendingMessages (handle ev s)))
    (JsMap.keys (pendingMessages s)).
Proof.
  intros Hev.
  destruct ev; cbn [handle];
    try (unfold_handlers; repeat (case_decide || case_match); state_simpl;
         first [ done | apply JsMap_keys_delete_sublist
               | by rewrite JsMap_keys_update | apply sublist_nil_l ]).
  by destruct (Hev env message).
Qed.

(** X12. Only [sendMessage] adds an entry to the pending map, and only under
    the id it has just made: every other event leaves the ids of the map, in
    their order, as a sub-sequence of what they were, and a send either
    leaves them alone or, when it is accepted while connected, puts the new
    id at the end (or keeps its place, should the id be there already). *)
Theorem only_send_adds_pending ev s :
  ((∀ env message, ev ≠ SendMessage env message) →
   sublist (JsMap.keys (pendingMessages (step ev s)))
     (JsMap.keys (pendingMessages s)))
  ∧ (∀ env message, ev = SendMessage env message →
       JsMap.keys (pendingMessages (step ev s)) = JsMap.keys (pendingMessages s)
       ∨ (accepted env message s ∧ ¬ notConnected s
          ∧ JsMap.keys (pendingMessages (step ev s)) =
              JsMap.keys (pendingMessages s) ++ [tempMessageId env])).
Proof.
  step_fields. split; [apply handle_pending_keys |].
  intros env message ->. cbn [handle].
  destruct (sendMessage_pendingMessages env message s)
    as [->|(Hacc & Hon & ->)]; [by left |].
  rewrite JsMap_keys_set. case_decide; [by left | by right].
Qed.

Lemma handle_resolved ev id s :
  resolved ev = Some id →
  pendingMessages (handle ev s) = JsMap.delete id (pendingMessages s).
Proof.
  destruct ev; cbn [resolved handle]; try done.
  - intros Hid. unfold on_response, stopTypingIfIdle, resolvePending.
    rewrite Hid. case_decide; by state_simpl.
  - intros Hid. unfold on_error, stopTypingIfIdle, resolvePending.
    rewrite Hid. case_decide; by state_simpl.
  - intros [= <-]. unfold on_message_cancelled. case_decide; by state_simpl.
Qed.

(** X13. A reply, an error and a message-cancelled confirmation resolve
    exactly the pending entry they name: in every reachable state the named
    id leaves the pending map, the other ids stay, in their order, and their
    entries are untouched. *)
Theorem event_resolves_only_its_entry ev id s :
  reachable s → resolved ev = Some id →
  JsMap.keys (pendingMessages (step ev s)) =
    filter (λ id', id' ≠ id) (JsMap.keys (pendingMessages s))
  ∧ JsMap.get id (pendingMessages (step ev s)) = None
  ∧ ∀ id', id' ≠ id →
      JsMap.get id' (pendingMessages (step ev s)) =
        JsMap.get id' (pendingMessages s).
Proof.
  intros Hs Hev. apply reachable_pendingMessages_wf in Hs as Hwf.
  step_fields. rewrite (handle_resolved ev id s Hev).
  split; [by apply JsMap_keys_delete |]. split.
  - apply JsMap_get_None. rewrite JsMap_keys_delete by done.
    intros [Hne _]%list_elem_of_filter. done.
  - intros id' Hne. by apply JsMap_get_delete_ne.
Qed.

(** X14. The queue acknowledgement and the typing signal update the entry
    they name in place: the ids of the pending map and their order are
    kept, the named entry changes only in status and queue position (for the
    acknowledgement) or in its typing flag (for the signal), the other entries
    are untouched, and an id that is not in the map gets no entry. *)
Theorem acknowledgements_update_in_place s :
  (∀ data,
     JsMap.keys (pendingMessages (step (MessageQueued data) s)) =
       JsMap.keys (pendingMessages s)
     ∧ JsMap.get (MessageQueuedData.message_id data)
         (pendingMessages (step (MessageQueued data) s)) =
         markQueued (MessageQueuedData.queue_position data)
           <$> JsMap.get (MessageQueuedData.message_id data) (pendingMessages s)
     ∧ ∀ id', id' ≠ MessageQueuedData.message_id data →
         JsMap.get id' (pendingMessages (step (MessageQueued data) s)) =
           JsMap.get id' (pendingMessages s))
  ∧ (∀ data id, truthyString (TypingData.message_id data) = Some id →
       JsMap.keys (pendingMessages (step (Typing data) s)) =
         JsMap.keys (pendingMessages s)
       ∧ JsMap.get id (pendingMessages (step (Typing data) s)) =
           markTyping (TypingData.is_typing data)
             <$> JsMap.get id (pendingMessages s)
       ∧ ∀ id', id' ≠ id →
           JsMap.get id' (pendingMessages (step (Typing data) s)) =
             JsMap.get id' (pendingMessages s)).
Proof.
  split.
  - intros data. step_fields. unfold on_message_queued. state_simpl.
    split; [apply JsMap_keys_update |].
    split; [apply JsMap_get_update_eq |].
    intros id' Hne. by apply JsMap_get_update_ne.
  - intros data id Hid. step_fields. unfold on_typing. rewrite Hid.
    state_simpl.
    split; [apply JsMap_keys_update |].
    split; [apply JsMap_get_update_eq |].
    intros id' Hne. by apply JsMap_get_update_ne.
Qed.

(** ** Pending entries and the log *)

Lemma tempMessageId_nonempty env : tempMessageId env ≠ "".
Proof. unfold tempMessageId. discriminate. Qed.

Lemma pendingOwned_mono s s' :
  (∀ id, id ∈ JsMap.keys (pendingMessages s') →
     id ∈ JsMap.keys (pendingMessages s)) →
  (∀ m, m ∈ messages s → m ∈ messages s') →
  pendingOwned s → pendingOwned s'.
Proof.
  intros Hkeys Hlog Hown id Hid.
  destruct (Hown id (Hkeys id Hid)) as (Hne & m & Hm & Hrole & Hmid).
  split; [done |]. exists m. split; [by apply Hlog | done].
Qed.

Lemma handle_pendingOwned ev s :
  JsMap.wf (pendingMessages s) → pendingOwned s → pendingOwned (handle ev s).
Proof.
  intros Hwf Hown.
  assert (Hgeneric : keepsLog ev →
            (∀ env message, ev ≠ SendMessage env message) →
            pendingOwned (handle ev s)).
  { intros Hlog Hsend. apply (pendingOwned_mono s); [| |done].
    - intros id Hid.
      by apply (sublist_subseteq _ _ (handle_pending_keys ev s Hsend)).
    - intros m Hm. destruct (handle_messages_append ev s Hlog) as (new & -> & _).
      apply elem_of_app. by left. }
  destruct ev; try (apply Hgeneric; [exact I | discriminate]); clear Hgeneric;
    cbn [handle].
  - (* message_cancelled *)
    intros id Hid. unfold on_message_cancelled in *.
    assert (Hid' : id ∈ JsMap.keys
                     (JsMap.delete (MessageCancelledData.message_id data)
                        (pendingMessages s))).
    { revert Hid. case_decide; by state_simpl. }
    rewrite JsMap_keys_delete in Hid' by done.
    apply list_elem_of_filter in Hid' as [Hne Hin].
    destruct (Hown id Hin) as (Hnonempty & m & Hm & Hrole & Hmid).
    split; [done |]. exists m. split; [|done].
    assert (Hkept : m ∈ filter
                      (λ msg, message_id msg ≠
                                Some (MessageCancelledData.message_id data))
                      (messages s)).
    { apply list_elem_of_filter. split; [|done]. rewrite Hmid. congruence. }
    case_decide; by state_simpl.
  - (* sendMessage *)
    destruct (sendMessage_pendingMessages env message s)
      as [Hsame|(Hacc & Hon & Hset)].
    + apply (pendingOwned_mono s); [| |done].
      * intros id. by rewrite Hsame.
      * intros m Hm.
        destruct (sendMessage_messages env message s) as [->| ->]; [done |].
        apply elem_of_app. by left.
    + intros id. rewrite Hset, JsMap_keys_set.
      rewrite (sendMessage_accepted_messages env message s Hacc).
      rewrite (decide_False (P := notConnected s)) by done.
      intros Hid.
      assert (Hcases : id ∈ JsMap.keys (pendingMessages s)
                       ∨ id = tempMessageId env).
      { case_decide; [by left |].
        apply elem_of_app in Hid as [Hin|Hin]; [by left |].
        apply list_elem_of_singleton in Hin. by right. }
      destruct Hcases as [Hin| ->].
      * destruct (Hown id Hin) as (Hne & m & Hm & Hrole & Hmid).
        split; [done |]. exists m. split; [|done]. apply elem_of_app. by left.
      * split; [apply tempMessageId_nonempty |].
        exists (userMessage env message). split; [|done].
        apply elem_of_app. right. by left.
  - (* clearMessages *)
    intros id Hid. unfold clearMessages in Hid. state_simpl.
    by apply elem_of_nil in Hid.
Qed.

Lemma reachable_pendingOwned s : reachable s → pendingOwned s.
Proof.
  induction 1 as [|ev s Hs IH].
  - intros id Hid. by apply elem_of_nil in Hid.
  - apply (handle_pendingOwned ev) in IH;
      [|by apply reachable_pendingMessages_wf].
    exact IH.
Qed.

(** X15. In every reachable state each entry of the pending map belongs to a
    user message that is in the log: its id is not empty and is the id of a
    user message of the log. *)
Theorem pending_entries_have_user_messages s id :
  reachable s → id ∈ JsMap.keys (pendingMessages s) →
  id ≠ "" ∧ ∃ m, m ∈ messages s ∧ role m = user ∧ message_id m = Some id.
Proof. intros Hs. by apply reachable_pendingOwned. Qed.

(** X16. The message-cancelled confirmation for a message that has just been
    sent, while connected and under an id that no message of the log carries,
    undoes the send in the log and in the pending map; the emission is not
    undone. *)
Theorem cancellation_undoes_send s env message data :
  reachable s → accepted env message s → ¬ notConnected s →
  freshId (tempMessageId env) s →
  MessageCancelledData.message_id data = tempMessageId env →
  messages (step (MessageCancelled data) (step (SendMessage env message) s)) =
    messages s
  ∧ pendingMessages
      (step (MessageCancelled data) (step (SendMessage env message) s)) =
      pendingMessages s
  ∧ emitted (step (MessageCancelled data) (step (SendMessage env message) s)) =
      emitted s ++ [emit_message message MessageType.text].
Proof.
  intros Hs Hacc Hon Hfresh Hid.
  assert (Hnin : tempMessageId env ∉ JsMap.keys (pendingMessages s)).
  { intros Hin.
    destruct (reachable_pendingOwned s Hs _ Hin) as (_ & m & Hm & _ & Hmid).
    by apply (Hfresh m). }
  assert (Hsent : messages (handle (SendMessage env message) s) =
            messages s ++ [userMessage env message]
          ∧ pendingMessages (handle (SendMessage env message) s) =
              JsMap.set (tempMessageId env) (pendingEntry env message)
                (pendingMessages s)
          ∧ emitted (handle (SendMessage env message) s) =
              emitted s ++ [emit_message message MessageType.text]).
  { cbn [handle]. rewrite sendMessage_accepted_online by done. by state_simpl. }
  destruct Hsent as (Hm & Hp & He).
  assert (Hcancel : ∀ s',
            messages (handle (MessageCancelled data) s') =
              filter (λ msg, message_id msg ≠ Some (tempMessageId env))
                (messages s')
            ∧ pendingMessages (handle (MessageCancelled data) s') =
                JsMap.delete (tempMessageId env) (pendingMessages s')
            ∧ emitted (handle (MessageCancelled data) s') = emitted s').
  { intros s'. cbn [handle]. unfold on_message_cancelled. rewrite Hid.
    case_decide; by state_simpl. }
  destruct (Hcancel (step (SendMessage env message) s)) as (Hm' & Hp' & He').
  split; [|split].
  - rewrite step_messages, Hm', step_messages, Hm.
    rewrite filter_app, filter_cons_False by (intros Hne; by apply Hne).
    rewrite filter_nil, app_nil_r. apply filter_Forall_id. rewrite Forall_forall.
    exact Hfresh.
  - rewrite step_pendingMessages, Hp', step_pendingMessages, Hp.
    by apply JsMap_delete_set_fresh.
  - by rewrite step_emitted, He', step_emitted, He.
Qed.

(** ** Timeouts *)

(** X17. The in-flight window always ends: in every reachable state in which
    a send is in flight, the timeout that clears the flag is scheduled, for
    one sending-state duration after that send, and once it has run the flag
    is clear. *)
Theorem in_flight_window_ends s :
  reachable s → isSending s = true →
  (clearSending, (lastSentTime s + TIMING.SENDING_STATE_DURATION_MS)%Z)
    ∈ timers s
  ∧ isSending (step (TimeoutFires clearSending) s) = false.
Proof.
  intros Hs Hsend. pose proof (reachable_inFlightTimer s Hs Hsend) as Hin.
  split; [done |]. step_fields. unfold on_timeout.
  rewrite decide_True; [by state_simpl |].
  apply list_elem_of_fmap. by eexists (_, _).
Qed.

(** X18. The timeout scheduled by a throttled send clears whatever error is
    shown when it runs, not only the "too fast" error: if the connection is
    lost between the rejection and the timeout, the "connection lost" error
    is cleared while the hook is still disconnected. *)
Theorem throttle_timeout_clears_later_error s env message reason iso :
  trim message ≠ "" → throttled env message s →
  error (step (Disconnect reason iso) (step (SendMessage env message) s)) =
    Some ERROR_MESSAGES.CONNECTION_LOST
  ∧ error (step (TimeoutFires clearError)
             (step (Disconnect reason iso) (step (SendMessage env message) s))) =
      None
  ∧ isConnected (step (TimeoutFires clearError)
                   (step (Disconnect reason iso)
                      (step (SendMessage env message) s))) = false.
Proof.
  intros Hblank Hthr.
  assert (Htimer : clearError ∈
            (timers (step (Disconnect reason iso)
                       (step (SendMessage env message) s))).*1).
  { rewrite step_timers. cbn [handle]. unfold on_disconnect. state_simpl.
    rewrite step_timers. cbn [handle].
    rewrite sendMessage_throttled by done. state_simpl.
    rewrite fmap_app. apply elem_of_app. right. by left. }
  split; [by rewrite step_error |].
  generalize dependent (step (SendMessage env message) s). intros s1 Htimer.
  assert (Hoff : isConnected (step (Disconnect reason iso) s1) = false)
    by by rewrite step_isConnected.
  generalize dependent (step (Disconnect reason iso) s1). intros s2 Htimer Hoff.
  rewrite step_error, step_isConnected. cbn [handle]. unfold on_timeout.
  rewrite decide_True by done. by state_simpl.
Qed.

(** ** [clearMessages] *)

(** X19. [clearMessages] empties the log and the pending map but not the
    offline queue: the messages queued while offline are still replayed, in
    queue order, when the transport connects, and the replay notice is then
    the only message of the log. *)
Theorem clearing_keeps_offline_queue s iso :
  offlineQueue s ≠ [] →
  messages (step ClearMessages s) = []
  ∧ pendingMessages (step ClearMessages s) = []
  ∧ emitted (step (Connect iso) (step ClearMessages s)) =
      emitted s ++ (emitQueued <$> offlineQueue s)
  ∧ messages (step (Connect iso) (step ClearMessages s)) =
      [replayNotice (length (offlineQueue s)) iso].
Proof.
  intros Hne.
  assert (Hcleared : messages (step ClearMessages s) = []
            ∧ pendingMessages (step ClearMessages s) = []
            ∧ emitted (step ClearMessages s) = emitted s
            ∧ offlineQueue (step ClearMessages s) = offlineQueue s
            ∧ offlineQueueRef (step ClearMessages s) = offlineQueue s).
  { step_fields. unfold clearMessages. by state_simpl. }
  destruct Hcleared as (Hm & Hp & He & Hq & Href).
  split; [done |]. split; [done |].
  generalize dependent (step ClearMessages s). intros s' Hm Hp He Hq Href.
  destruct (on_connect_replay iso s') as (Hm' & He' & _);
    [congruence | congruence |].
  rewrite step_emitted, step_messages. cbn [handle].
  rewrite Hm', He', Hm, He, Hq. done.
Qed.

End useSocket_more.

(** ** These properties on runs of the hook *)

Lemma log_grows_by_appending_witness :
  ∃ new,
    messages (step (Response demoReply "2024-05-01T10:00:02.000Z") demoOnline) =
      messages demoOnline ++ new
    ∧ length new ≤ 2
    ∧ ∀ m, m ∈ new → role m = user →
        ∃ env message,
          Response demoReply "2024-05-01T10:00:02.000Z" = SendMessage env message
          ∧ m = userMessage env message.
Proof.
  exact (log_grows_by_appending
           (Response demoReply "2024-05-01T10:00:02.000Z") demoOnline I).
Defined.

Lemma transport_trace_only_grows_witness :
  emitted (step (Response demoReply "2024-05-01T10:00:02.000Z") demoOnline) =
    emitted demoOnline
  ∧ emitted (step (CancelMessage "temp_5000_k3x9q2m1a") demoOffline) =
      emitted demoOffline.
Proof.
  destruct (transport_trace_only_grows
              (Response demoReply "2024-05-01T10:00:02.000Z") demoOnline)
    as (_ & Hserver & _).
  destruct (transport_trace_only_grows
              (CancelMessage "temp_5000_k3x9q2m1a") demoOffline)
    as (_ & _ & Hoffline).
  split.
  - apply Hserver. intros [].
  - apply Hoffline; [vm_compute; right; reflexivity | discriminate].
Defined.

Lemma only_send_adds_pending_witness :
  sublist
    (JsMap.keys
       (pendingMessages
          (step (Response demoReply "2024-05-01T10:00:02.000Z") demoOnline)))
    (JsMap.keys (pendingMessages demoOnline)).
Proof.
  destruct (only_send_adds_pending
              (Response demoReply "2024-05-01T10:00:02.000Z") demoOnline)
    as [Hother _].
  apply Hother. discriminate.
Defined.

Lemma event_resolves_only_its_entry_witness :
  JsMap.get "temp_5000_k3x9q2m1a"
    (pendingMessages
       (step (Response demoReply "2024-05-01T10:00:02.000Z") demoOnline)) = None.
Proof.
  exact (proj1 (proj2 (event_resolves_only_its_entry
                         (Response demoReply "2024-05-01T10:00:02.000Z")
                         "temp_5000_k3x9q2m1a" demoOnline
                         demoOnline_reachable eq_refl))).
Defined.

Lemma acknowledgements_update_in_place_witness :
  JsMap.get "temp_5000_k3x9q2m1a"
    (pendingMessages
       (step (Typing (TypingData.mk true (Some "temp_5000_k3x9q2m1a")))
          demoOnline)) =
    markTyping true <$> JsMap.get "temp_5000_k3x9q2m1a" (pendingMessages demoOnline).
Proof.
  destruct (acknowledgements_update_in_place demoOnline) as [_ Htyping].
  destruct (Htyping (TypingData.mk true (Some "temp_5000_k3x9q2m1a"))
              "temp_5000_k3x9q2m1a" eq_refl) as (_ & Hget & _).
  exact Hget.
Defined.

Lemma pending_entries_have_user_messages_witness :
  "temp_5000_k3x9q2m1a" ≠ ""
  ∧ ∃ m, m ∈ messages demoOnline ∧ role m = user
      ∧ message_id m = Some "temp_5000_k3x9q2m1a".
Proof.
  apply (pending_entries_have_user_messages demoOnline);
    [exact demoOnline_reachable |].
  vm_compute. by left.
Defined.

Lemma cancellation_undoes_send_witness :
  messages
    (step (MessageCancelled (MessageCancelledData.mk "temp_5000_k3x9q2m1a" true))
       demoOnline) =
    messages (step (Connect "2024-05-01T10:00:00.000Z") (step Mount initialState))
  ∧ pendingMessages
      (step (MessageCancelled
               (MessageCancelledData.mk "temp_5000_k3x9q2m1a" true))
         demoOnline) = [].
Proof.
  destruct (cancellation_undoes_send
              (step (Connect "2024-05-01T10:00:00.000Z") (step Mount initialState))
              (demoEnv 5000 "k3x9q2m1a") "Where is my order?"
              (MessageCancelledData.mk "temp_5000_k3x9q2m1a" true))
    as (Hlog & Hpending & _).
  - do 2 apply reachable_step. apply reachable_initial.
  - split; [vm_compute; discriminate | split; [|reflexivity]].
    intros [[=] _].
  - vm_compute. intros [[=]|[=]].
  - intros m Hm. vm_compute in Hm. by apply elem_of_nil in Hm.
  - reflexivity.
  - split; [exact Hlog | exact Hpending].
Defined.

Lemma in_flight_window_ends_witness :
  (clearSending, 6000%Z) ∈ timers demoOnline
  ∧ isSending (step (TimeoutFires clearSending) demoOnline) = false.
Proof.
  exact (in_flight_window_ends demoOnline demoOnline_reachable eq_refl).
Defined.

Lemma throttle_timeout_clears_later_error_witness :
  error
    (step (TimeoutFires clearError)
       (step (Disconnect "transport close" "2024-05-01T10:00:02.000Z")
          (step (SendMessage (demoEnv 6200 "p0o9i8u7y") "where is my order?")
             demoOnlineIdle))) = None.
Proof.
  destruct (throttle_timeout_clears_later_error demoOnlineIdle
              (demoEnv 6200 "p0o9i8u7y") "where is my order?"
              "transport close" "2024-05-01T10:00:02.000Z")
    as (_ & Hcleared & _).
  - vm_compute. discriminate.
  - vm_compute. split; reflexivity.
  - exact Hcleared.
Defined.

Lemma clearing_keeps_offline_queue_witness :
  emitted (step (Connect "2024-05-01T10:00:07.000Z")
             (step ClearMessages demoOffline)) =
    [emit_message "Where is my order?" MessageType.text].
Proof.
  destruct (clearing_keeps_offline_queue demoOffline "2024-05-01T10:00:07.000Z")
    as (_ & _ & Hemit & _).
  - vm_compute. discriminate.
  - rewrite Hemit. vm_compute. reflexivity.
Defined.

(** * The hook, the correlation map and the message list together *)

Section wired.
Context `{!Engine}.

Lemma messageKey_KeyId m i id :
  messageKey m i = KeyId id → message_id m = Some id ∧ id ≠ "".
Proof.
  unfold messageKey. destruct (message_id m) as [id'|]; [|done].
  case_decide; [done |]. by intros [= <-].
Qed.

Lemma messageKey_of_id m i id :
  message_id m = Some id → id ≠ "" → messageKey m i = KeyId id.
Proof. intros Hid Hne. unfold messageKey. by rewrite Hid, decide_False. Qed.

Lemma pendingPass_covered pendingMessages m c :
  (∀ id, id ∈ JsMap.keys pendingMessages → is_Some (m !! KeyId id)) →
  pendingPass pendingMessages (m, c) = (m, c).
Proof.
  unfold pendingPass, JsMap.keys.
  induction pendingMessages as [|[id p] l IH]; intros Hcov; [done |].
  rewrite fmap_cons in Hcov. cbn [fst] in Hcov. cbn [foldl].
  unfold addPending at 2.
  destruct (Hcov id) as [d ->]; [by left |].
  apply IH. intros id' Hin. apply Hcov. by right.
Qed.

Lemma logPasses_has_user log i u :
  log !! i = Some u → isUser u = true →
  is_Some ((secondPass log (firstPass log).1).1 !! messageKey u i).
Proof.
  intros Hi Hu. unfold secondPass, forEach.
  apply matchReply_keeps. by apply firstPass_has_user.
Qed.

(** X20. As the chat window wires them, the pending pass of
    [useMessageCorrelation] never adds a record: in every reachable state of
    [useSocket] the map computed from the log and the pending map is the map
    computed from the log alone. *)
Theorem pending_pass_adds_nothing_when_wired s :
  reachable s →
  Variant2.useMessageCorrelation (messages s) (pendingMessages s) =
    Variant2.useMessageCorrelation (messages s) [].
Proof.
  intros Hs. rewrite !useMessageCorrelation_passes.
  rewrite pendingPass_covered; [done |].
  intros id Hid.
  destruct (reachable_pendingOwned s Hs id Hid) as (Hne & m & Hm & Hrole & Hmid).
  apply list_elem_of_lookup in Hm as [i Hi].
  rewrite <- (messageKey_of_id m i id Hmid Hne).
  apply logPasses_has_user; [done |]. by apply isUser_true.
Qed.

(** X21. A message that has just been sent gets the next number: after a
    send accepted under an id that no message of the log carries, connected
    or not, the correlation map of the new state holds for that id the user
    record whose number is one more than the number of user messages that
    were in the log. *)
Theorem sent_message_numbered_next s env message :
  accepted env message s → freshId (tempMessageId env) s →
  Variant2.useMessageCorrelation
    (messages (step (SendMessage env message) s))
    (pendingMessages (step (SendMessage env message) s))
    !! KeyId (tempMessageId env) =
    Some (userData (userCount (messages s) + 1)).
Proof.
  intros Hacc Hfresh.
  generalize (pendingMessages (step (SendMessage env message) s)).
  intros pending. rewrite step_messages. cbn [handle].
  rewrite (sendMessage_accepted_messages env message s Hacc).
  set (tail := if decide (notConnected s) then [offlineNotice env] else []).
  set (log := messages s ++ userMessage env message :: tail).
  assert (Hi : log !! length (messages s) = Some (userMessage env message))
    by apply list_lookup_middle, eq_refl.
  assert (Hkey : messageKey (userMessage env message) (length (messages s)) =
            KeyId (tempMessageId env)).
  { apply messageKey_of_id; [done | apply tempMessageId_nonempty]. }
  rewrite <- Hkey.
  rewrite (useMessageCorrelation_user log pending (length (messages s))
             (userMessage env message) Hi eq_refl).
  - rewrite (userNumber_eq log _ _ Hi eq_refl).
    unfold log. by rewrite take_app_length.
  - intros j m Hj Hne Hw. unfold keyAt. rewrite Hi, Hkey.
    intros [Hmid _]%messageKey_KeyId.
    destruct (decide (j < length (messages s))) as [Hlt|Hge].
    + unfold log in Hj. rewrite lookup_app_l in Hj by done.
      apply (Hfresh m); [|done]. by eapply list_elem_of_lookup_2.
    + unfold log in Hj. rewrite lookup_app_r in Hj by lia.
      destruct (j - length (messages s)) as [|[|n]] eqn:Hd; [lia | |].
      * cbn in Hj. unfold tail in Hj. case_decide; [|done].
        injection Hj as <-. done.
      * cbn in Hj. unfold tail in Hj. by case_decide.
Qed.

End wired.

Lemma pending_pass_adds_nothing_when_wired_witness :
  Variant2.useMessageCorrelation (messages demoOnline) (pendingMessages demoOnline) =
    Variant2.useMessageCorrelation (messages demoOnline) [].
Proof.
  exact (pending_pass_adds_nothing_when_wired demoOnline demoOnline_reachable).
Defined.

Lemma sent_message_numbered_next_witness :
  Variant2.useMessageCorrelation (messages demoOnline) (pendingMessages demoOnline)
    !! KeyId "temp_5000_k3x9q2m1a" = Some (userData 1).
Proof.
  assert (Hacc : accepted (demoEnv 5000 "k3x9q2m1a") "Where is my order?"
                   (step (Connect "2024-05-01T10:00:00.000Z")
                      (step Mount initialState))).
  { split; [vm_compute; discriminate | split; [|reflexivity]].
    intros [[=] _]. }
  assert (Hfresh : freshId (tempMessageId (demoEnv 5000 "k3x9q2m1a"))
                     (step (Connect "2024-05-01T10:00:00.000Z")
                        (step Mount initialState))).
  { intros m Hm. vm_compute in Hm. by apply elem_of_nil in Hm. }
  pose proof (sent_message_numbered_next _ _ _ Hacc Hfresh) as Hsent.
  vm_compute in Hsent. vm_compute. exact Hsent.
Defined.

(** ** The message list *)

Lemma numberUser_notPending l base m c :
  map_Forall (λ _ d, CorrelationData.isPending d = false) m →
  map_Forall (λ _ d, CorrelationData.isPending d = false)
    (forEach_from numberUser base l (m, c)).1.
Proof.
  revert base m c. induction l as [|x l IH]; intros base m c Hm; [done |].
  cbn [forEach_from]. destruct (isUser x) eqn:Hu.
  - rewrite numberUser_user by done. apply IH.
    by apply map_Forall_insert_2.
  - rewrite numberUser_other by done. by apply IH.
Qed.

Lemma matchReply_notPending l base m q :
  map_Forall (λ _ d, CorrelationData.isPending d = false) m →
  map_Forall (λ _ d, CorrelationData.isPending d = false)
    (forEach_from Variant2.matchReply base l (m, q)).1.
Proof.
  revert base m q. induction l as [|x l IH]; intros base m q Hm; [done |].
  cbn [forEach_from].
  destruct (message_kind x) as [Hu|[Hr|[Hu Hr]]].
  - rewrite matchReply_user by done.
    destruct (m !! messageKey x base); by apply IH.
  - rewrite matchReply_reply by done.
    destruct q as [|matched rest]; [by apply IH |].
    apply IH. by apply map_Forall_insert_2.
  - rewrite matchReply_notice by done. by apply IH.
Qed.

Lemma logPasses_notPending log k d :
  (secondPass log (firstPass log).1).1 !! k = Some d →
  CorrelationData.isPending d = false.
Proof.
  revert k d. apply matchReply_notPending, numberUser_notPending.
  apply map_Forall_empty.
Qed.

(** X22. For a message of the log, the pending mark of its bubble depends on
    the pending map alone: [isMessagePending] answers whether the message is
    a user message whose id is a key of the pending map.  The pending flag
    of the correlation record never decides, because the record under the
    key of a user message of the log is never one made by the pending
    pass. *)
Theorem pending_mark_reads_pending_map log pendingMessages i m :
  log !! i = Some m →
  MessageList.isMessagePending
    (Variant2.useMessageCorrelation log pendingMessages) pendingMessages m i =
    isUser m && JsMap.has (default "" (message_id m)) pendingMessages.
Proof.
  intros Hi. unfold MessageList.isMessagePending, isUser.
  destruct (role m) eqn:Hrole; [|done].
  rewrite bool_decide_eq_true_2 by done. cbn [andb].
  destruct (logPasses_has_user log i m Hi) as [d Hd];
    [by apply isUser_true |].
  unfold getMessageCorrelationInfo.
  rewrite useMessageCorrelation_passes.
  rewrite (pendingPass_keeps pendingMessages _ _ _ d Hd). cbn [from_option].
  rewrite (logPasses_notPending log _ d Hd). apply orb_false_r.
Qed.

Lemma pending_mark_reads_pending_map_witness :
  MessageList.isMessagePending
    (Variant2.useMessageCorrelation (messages demoOnline)
       (pendingMessages demoOnline))
    (pendingMessages demoOnline)
    (userMessage (demoEnv 5000 "k3x9q2m1a") "Where is my order?") 0 = true.
Proof.
  rewrite (pending_mark_reads_pending_map (messages demoOnline)
             (pendingMessages demoOnline) 0
             (userMessage (demoEnv 5000 "k3x9q2m1a") "Where is my order?")
             eq_refl).
  vm_compute. reflexivity.
Defined.

(** X23. The number on a bubble is the number of the record under the
    message's key, whenever there is one: the guard of [getCorrelationNumber]
    against a zero number never fires on a map made by
    [useMessageCorrelation].  For a user message whose key no other message
    of the log uses, the bubble shows the position of the message among the
    user messages of the log. *)
Theorem bubble_shows_record_number log pendingMessages :
  (∀ m i,
     MessageList.getCorrelationNumber
       (Variant2.useMessageCorrelation log pendingMessages) m i =
       CorrelationData.correlationNumber
         <$> Variant2.useMessageCorrelation log pendingMessages
               !! messageKey m i)
  ∧ (∀ i u, log !! i = Some u → role u = user → keyUnshared log i →
       MessageList.getCorrelationNumber
         (Variant2.useMessageCorrelation log pendingMessages) u i =
         Some (userNumber log i)).
Proof.
  assert (Hnumber : ∀ m i,
            MessageList.getCorrelationNumber
              (Variant2.useMessageCorrelation log pendingMessages) m i =
              CorrelationData.correlationNumber
                <$> Variant2.useMessageCorrelation log pendingMessages
                      !! messageKey m i).
  { intros m i. unfold MessageList.getCorrelationNumber,
      getMessageCorrelationInfo.
    destruct (Variant2.useMessageCorrelation log pendingMessages
                !! messageKey m i) as [d|] eqn:Hd; [|done].
    cbn [fmap option_fmap option_map].
    rewrite useMessageCorrelation_passes, firstPass_counter in Hd.
    assert (Hsound : soundRecord (userCount log + JsMap.size pendingMessages) d).
    { revert Hd. apply (pendingPass_sound _); [done |].
      apply matchReply_sound; [|done].
      apply numberUser_sound; [lia | apply map_Forall_empty]. }
    destruct Hsound as [_ Hn]. rewrite decide_False; [done | lia]. }
  split; [exact Hnumber |].
  intros i u Hi Hu%isUser_true Hkey. rewrite Hnumber.
  by rewrite (useMessageCorrelation_user log pendingMessages i u Hi Hu Hkey).
Qed.

Lemma bubble_shows_record_number_witness :
  MessageList.getCorrelationNumber
    (Variant2.useMessageCorrelation demoLog [])
    (mkMessage user "And my refund?" "t2" None None (Some "m2")) 1 = Some 2.
Proof.
  destruct (bubble_shows_record_number demoLog []) as [_ Huser].
  apply (Huser 1 _ eq_refl eq_refl).
  intros j m Hj Hne Hw.
  destruct j as [|[|j]]; [|done|done].
  injection Hj as <-. discriminate.
Defined.

(** * lib/socket.ts *)

Lemma SocketModule_call_session c st :
  (SocketModule.socket st = None → SocketModule.sessionId st = None) →
  SocketModule.socket (SocketModule.call c st) = None →
  SocketModule.sessionId (SocketModule.call c st) = None.
Proof.
  intros Hinv.
  destruct c; cbn [SocketModule.call];
    unfold SocketModule.getSocket, SocketModule.on_connected,
      SocketModule.disconnectSocket;
    destruct (SocketModule.socket st) eqn:Hsock; cbn; intros Hnone;
    first [ done | congruence | by apply Hinv ].
Qed.

Lemma SocketModule_calls_session cs st :
  (SocketModule.socket st = None → SocketModule.sessionId st = None) →
  SocketModule.socket (SocketModule.calls cs st) = None →
  SocketModule.sessionId (SocketModule.calls cs st) = None.
Proof.
  unfold SocketModule.calls. revert st.
  induction cs as [|c cs IH]; intros st Hinv; [done |].
  cbn [foldl]. apply IH. by apply SocketModule_call_session.
Qed.

Lemma SocketModule_calls_socket cs st sock :
  SocketModule.DisconnectSocket ∉ cs →
  SocketModule.socket st = Some sock →
  SocketModule.socket (SocketModule.calls cs st) = Some sock.
Proof.
  unfold SocketModule.calls. revert st.
  induction cs as [|c cs IH]; intros st Hcs Hsock; [done |].
  apply not_elem_of_cons in Hcs as [Hc Hcs]. cbn [foldl]. apply IH; [done |].
  destruct c; cbn [SocketModule.call]; [| |done].
  - unfold SocketModule.getSocket. by rewrite Hsock.
  - unfold SocketModule.on_connected. by rewrite Hsock.
Qed.

(** X24. The stored session id never outlives the socket: after any sequence
    of calls of the module, when no socket exists no session id is stored,
    and the socket made after [disconnectSocket] authenticates without a
    session id. *)
Theorem session_forgotten_with_socket cs :
  (SocketModule.socket (SocketModule.calls cs SocketModule.initial) = None →
   SocketModule.getStoredSessionId
     (SocketModule.calls cs SocketModule.initial) = None)
  ∧ SocketModule.auth
      (SocketModule.getSocket
         (SocketModule.disconnectSocket
            (SocketModule.calls cs SocketModule.initial))).2 = None.
Proof.
  assert (Hinv : SocketModule.socket
                   (SocketModule.calls cs SocketModule.initial) = None →
                 SocketModule.sessionId
                   (SocketModule.calls cs SocketModule.initial) = None).
  { by apply SocketModule_calls_session. }
  split; [exact Hinv |].
  unfold SocketModule.disconnectSocket, SocketModule.auth,
    SocketModule.getSocket.
  destruct (SocketModule.socket (SocketModule.calls cs SocketModule.initial))
    eqn:Hsock; cbn; [done |].
  rewrite Hsock. cbn. by rewrite Hinv.
Qed.

Lemma session_forgotten_with_socket_witness :
  SocketModule.getStoredSessionId
    (SocketModule.calls
       [SocketModule.GetSocket; SocketModule.ConnectedEvent "session-1";
        SocketModule.DisconnectSocket] SocketModule.initial) = None.
Proof.
  destruct (session_forgotten_with_socket
              [SocketModule.GetSocket; SocketModule.ConnectedEvent "session-1";
               SocketModule.DisconnectSocket]) as [Hnone _].
  apply Hnone. reflexivity.
Defined.

(** X25. [getSocket] hands out one socket until [disconnectSocket] is called:
    whatever is called in between, except [disconnectSocket], a later
    [getSocket] returns the socket that the earlier one returned, and the
    session id received last is what the socket offers when it reconnects. *)
Theorem socket_kept_until_disconnect st cs :
  SocketModule.DisconnectSocket ∉ cs →
  (SocketModule.getSocket
     (SocketModule.calls cs (SocketModule.getSocket st).2)).1 =
    (SocketModule.getSocket st).1
  ∧ ∀ session_id, session_id ≠ "" →
      SocketModule.auth
        (SocketModule.calls (cs ++ [SocketModule.ConnectedEvent session_id])
           (SocketModule.getSocket st).2) = Some session_id.
Proof.
  intros Hcs.
  assert (Hsock : SocketModule.socket (SocketModule.getSocket st).2 =
            Some (SocketModule.getSocket st).1).
  { unfold SocketModule.getSocket.
    by destruct (SocketModule.socket st) eqn:Hst. }
  pose proof (SocketModule_calls_socket cs _ _ Hcs Hsock) as Hkept.
  split.
  - unfold SocketModule.getSocket at 1. by rewrite Hkept.
  - intros session_id Hne. unfold SocketModule.calls in *.
    rewrite foldl_app. cbn [foldl SocketModule.call].
    unfold SocketModule.on_connected. rewrite Hkept.
    unfold SocketModule.auth. cbn. by rewrite decide_False.
Qed.

Lemma socket_kept_until_disconnect_witness :
  (SocketModule.getSocket
     (SocketModule.calls
        [SocketModule.ConnectedEvent "session-1"; SocketModule.GetSocket]
        (SocketModule.getSocket SocketModule.initial).2)).1 = 0.
Proof.
  destruct (socket_kept_until_disconnect SocketModule.initial
              [SocketModule.ConnectedEvent "session-1"; SocketModule.GetSocket])
    as [Hsame _].
  - intros Hin. apply elem_of_cons in Hin as [[=]|Hin].
    apply elem_of_cons in Hin as [[=]|Hin]. by apply elem_of_nil in Hin.
  - exact Hsame.
Defined.

(** * The input box *)

Section input_box.
Context `{!Engine}.

Lemma normalize_trim s : normalize (trim s) = normalize s.
Proof. unfold normalize. by rewrite trim_idempotent. Qed.

Lemma accepted_trim env message s :
  accepted env message s → accepted env (trim message) s.
Proof.
  unfold accepted, throttled. rewrite trim_idempotent, normalize_trim. done.
Qed.

(** X26. What the input box hands to [sendMessage] is never blank and is
    judged by the guards of [sendMessage] as the raw input would be: when the
    raw input would be accepted, the send goes through, the user message that
    enters the log carries the trimmed text, the throttle remembers the
    normalized raw input, and the input field is emptied.  A blank input, or
    a disabled box, changes nothing. *)
Theorem input_box_sends_trimmed_text env disabled box s :
  (accepted env (InputBox.message box) s → disabled = false →
   messages (InputBox.handleSend (sendMessage env) disabled box s).2 =
     messages s ++
       userMessage env (trim (InputBox.message box)) ::
       (if decide (notConnected s) then [offlineNotice env] else [])
   ∧ lastSentMessage (InputBox.handleSend (sendMessage env) disabled box s).2 =
       Some (normalize (InputBox.message box))
   ∧ InputBox.message (InputBox.handleSend (sendMessage env) disabled box s).1 =
       "")
  ∧ (trim (InputBox.message box) = "" ∨ disabled = true →
     InputBox.handleSend (sendMessage env) disabled box s = (box, s)).
Proof.
  split.
  - intros Hacc ->. pose proof (accepted_trim _ _ _ Hacc) as Hacc'.
    destruct Hacc as (Hblank & _). unfold InputBox.handleSend.
    rewrite bool_decide_eq_true_2 by done. cbn [andb negb snd fst].
    split; [by apply sendMessage_accepted_messages |]. split; [|done].
    rewrite <- normalize_trim.
    destruct (decide (notConnected s)).
    + rewrite sendMessage_accepted_offline by done. by state_simpl.
    + rewrite sendMessage_accepted_online by done. by state_simpl.
  - intros [Hblank| ->]; unfold InputBox.handleSend.
    + rewrite bool_decide_eq_false_2; [done |]. by intros Hne.
    + by rewrite andb_false_r.
Qed.

End input_box.

Lemma input_box_sends_trimmed_text_witness :
  messages
    (InputBox.handleSend (sendMessage (demoEnv 5000 "k3x9q2m1a")) false
       (InputBox.mk "  Where is my order? " "" None "")
       (step (Connect "2024-05-01T10:00:00.000Z") (step Mount initialState))).2 =
    [userMessage (demoEnv 5000 "k3x9q2m1a") "Where is my order?"].
Proof.
  destruct (input_box_sends_trimmed_text (demoEnv 5000 "k3x9q2m1a") false
              (InputBox.mk "  Where is my order? " "" None "")
              (step (Connect "2024-05-01T10:00:00.000Z")
                 (step Mount initialState))) as [Hsend _].
  destruct Hsend as (Hlog & _ & _).
  - split; [vm_compute; discriminate | split; [|reflexivity]].
    intros [[=] _].
  - reflexivity.
  - rewrite Hlog. vm_compute. reflexivity.
Defined.
